(** * bank.c: a shallow embedding and its verified properties

    The development models the in-memory ledger of [bank.c]:
    the cents codec, the per-account transaction ring, the open-addressing
    PIX (alias) index and the banking operations that sit on top of them.

    Conventions of the embedding.
    - A C string is the [string] of its bytes before the terminating NUL.
    - [cents_t] is [int64_t]: a [Z] kept in range by [wrap64], the
      two's-complement result of the machine operation.
    - [unsigned] counters and table indices are [nat]; every use in the
      source is reduced modulo a power of two that divides 2^32, so the
      32-bit wrap-around never shows.
    - The global array [accounts] together with [account_count] is the list
      of the first [account_count] slots; the test
      [ai >= 0 && ai < account_count] is the bounds test of the lookup.
    - The loops over the PIX table carry fuel [PIX_TABLE_SIZE] and return
      [None] when it runs out.  A probe ([pix_find], [pix_insert], the
      search of [pix_remove]) that has not stopped by then has seen every
      slot and never stops.  For the rehash loop of [pix_remove] the fuel
      bounds the length of the run it walks; every statement below about
      it shows that the loop returns.
    - What an operation prints is kept as its [outcome].
    - [stdin] is the string of the bytes still to be read.  The menus are
      functions of it; their loops carry fuel that bounds the number of
      turns, and a loop that has not returned when the fuel is used up is
      reported as running, in the state it is in. *)

From Stdlib Require Import ZArith Lia String Ascii DecimalString.
From Stdlib Require DecimalFacts DecimalPos.
From stdpp Require Import base list strings.

Local Open Scope string_scope.
Local Open Scope Z_scope.

(** ** Configuration *)

Definition MAX_ACCOUNTS : nat := 1024.
Definition MAX_NAME_LEN : nat := 32.
Definition MAX_PASS_LEN : nat := 64.
Definition MAX_AGENCY_LEN : nat := 8.
Definition MAX_PIX_LEN : nat := 64.
Definition TX_LOG_SIZE : nat := 256.
Definition TX_NOTE_LEN : nat := 40.
Definition PIX_TABLE_BITS : Z := 11.
Definition PIX_TABLE_SIZE : nat := 2048.

(** ** Machine integers *)

Definition INT64_MAX : Z := 2 ^ 63 - 1.
Definition INT64_MIN : Z := - 2 ^ 63.

(** The value an [int64_t] holds after an operation whose exact result is
    [z]. *)
Definition wrap64 (z : Z) : Z := (z + 2 ^ 63) mod 2 ^ 64 - 2 ^ 63.

(** The same for [uint64_t]. *)
Definition wrapu64 (z : Z) : Z := z mod 2 ^ 64.

Definition in_int64 (z : Z) : Prop := INT64_MIN <= z <= INT64_MAX.

(** ** Strings *)

(** [safe_strcpy(dst, src, dstcap)] with [dstcap > 0]: the new content of
    [dst] is the first [dstcap - 1] bytes of [src]. *)
Definition safe_strcpy (src : string) (dstcap : nat) : string :=
  substring 0 (dstcap - 1) src.

(** [snprintf(buf, cap, ...)] keeps the first [cap - 1] bytes of the
    formatted text. *)
Definition snprintf (cap : nat) (text : string) : string :=
  substring 0 (cap - 1) text.

(** ** Cyclic indexing

    Both the ring and the table address their slots as [(i + k) mod n]. *)

Definition cyc (n i k : nat) : nat := ((i + k) mod n)%nat.

(** ** Transaction log (ring buffer) *)

(** [tx_type_t]; [TX_NONE] is the value 0 that [memset] leaves in a slot
    that was never written (it is not an enumerator of the source). *)
Inductive tx_type_t :=
  | TX_NONE | TX_DEPOSIT | TX_WITHDRAW | TX_TRANSFER_OUT | TX_TRANSFER_IN
  | TX_CREDIT_ADV | TX_MISC.

Record tx_t := mk_tx {
  tx_type : tx_type_t;
  tx_amount : Z;
  tx_note : string
}.

Record txlog_t := mk_txlog {
  entries : list tx_t;
  head : nat;   (* index of oldest *)
  count : nat   (* number stored *)
}.

Definition tx_zero : tx_t := mk_tx TX_NONE 0 "".

(** The log of a freshly registered account: zeroed memory. *)
Definition txlog_empty : txlog_t :=
  mk_txlog (replicate TX_LOG_SIZE tx_zero) 0 0.

(** The record that [txlog_push] leaves in the slot it writes. *)
Definition tx_stored (type : tx_type_t) (amount : Z) (note : string) : tx_t :=
  mk_tx type amount (safe_strcpy note TX_NOTE_LEN).

Definition txlog_push (log : txlog_t) (type : tx_type_t) (amount : Z)
    (note : string) : txlog_t :=
  if (count log <? TX_LOG_SIZE)%nat then
    let idx := ((head log + count log) mod TX_LOG_SIZE)%nat in
    mk_txlog (<[idx := tx_stored type amount note]> (entries log))
             (head log) (S (count log))
  else
    let idx := head log in
    mk_txlog (<[idx := tx_stored type amount note]> (entries log))
             ((head log + 1) mod TX_LOG_SIZE)%nat (count log).

(** The records [print_txlog] visits, in the order of its loop. *)
Definition txlog_records (log : txlog_t) : list tx_t :=
  map (fun i => nth ((head log + i) mod TX_LOG_SIZE)%nat (entries log) tx_zero)
      (seq 0 (count log)).

(** What [print_txlog] prints for the type of a record. *)
Definition tx_type_name (t : tx_type_t) : string :=
  match t with
  | TX_DEPOSIT => "DEPOSIT"
  | TX_WITHDRAW => "WITHDRAW"
  | TX_TRANSFER_OUT => "XFER_OUT"
  | TX_TRANSFER_IN => "XFER_IN"
  | TX_CREDIT_ADV => "CREDIT"
  | _ => "MISC"
  end.

(** ** Money codec *)

Definition is_digit (c : ascii) : bool :=
  ((48 <=? nat_of_ascii c) && (nat_of_ascii c <=? 57))%nat.

(** [*p - '0'] *)
Definition digit_val (c : ascii) : Z := Z.of_nat (nat_of_ascii c) - 48.

(** [isspace] in the C locale: space, \t, \n, \v, \f, \r. *)
Definition isspace (c : ascii) : bool :=
  let k := nat_of_ascii c in ((k =? 32) || ((9 <=? k) && (k <=? 13)))%nat.

(** The loop over the whole part.  [None] is the early [return 0] of the
    overflow guard.  The counter [digits] of the source is never read. *)
Fixpoint parse_whole (p : string) (whole : Z) : option (Z * string) :=
  match p with
  | String c p' =>
      if is_digit c then
        let whole' := wrap64 (wrap64 (whole * 10) + digit_val c) in
        if whole' >? 2 ^ 60 then None else parse_whole p' whole'
      else Some (whole, p)
  | EmptyString => Some (whole, p)
  end.

(** The loop over the first two fractional digits. *)
Fixpoint parse_frac (p : string) (frac : Z) (fdigits : nat)
    : Z * nat * string :=
  match p with
  | String c p' =>
      if is_digit c && (fdigits <? 2)%nat then
        parse_frac p' (frac * 10 + digit_val c) (S fdigits)
      else (frac, fdigits, p)
  | EmptyString => (frac, fdigits, p)
  end.

Fixpoint skip_digits (p : string) : string :=
  match p with
  | String c p' => if is_digit c then skip_digits p' else p
  | EmptyString => p
  end.

Fixpoint skip_space (p : string) : string :=
  match p with
  | String c p' => if isspace c then skip_space p' else p
  | EmptyString => p
  end.

(** [parse_money_to_cents]: [Some v] when the source returns 1 with
    [*out = v], [None] when it returns 0. *)
Definition parse_money_to_cents (s : string) : option Z :=
  match s with
  | EmptyString => None
  | String c0 s' =>
      let '(sign, p) :=
        if Ascii.eqb c0 "+" then (1, s')
        else if Ascii.eqb c0 "-" then (-1, s')
        else (1, s) in
      match parse_whole p 0 with
      | None => None
      | Some (whole, p) =>
          let '(frac, p) :=
            match p with
            | String c p1 =>
                if Ascii.eqb c "." then
                  let '(frac, fdigits, p2) := parse_frac p1 0 0 in
                  let frac := if (fdigits =? 1)%nat then frac * 10 else frac in
                  (frac, skip_digits p2)
                else (0, p)
            | EmptyString => (0, p)
            end in
          match skip_space p with
          | EmptyString =>
              Some (wrap64 (sign * wrap64 (wrap64 (whole * 100) + frac)))
          | _ => None
          end
      end
  end.

(** [printf("%" PRId64, n)] *)
Definition fmt_d (n : Z) : string := NilZero.string_of_int (Z.to_int n).

(** [printf("%02" PRId64, n)]: zero-padded to width 2, the sign counted in
    the width. *)
Definition fmt_02d (n : Z) : string :=
  if (0 <=? n) && (n <? 10) then String "0" (fmt_d n) else fmt_d n.

(** [cents_to_str(c, out, outcap)] with [outcap > 0]: the text left in
    [out].  Division and remainder truncate toward zero. *)
Definition cents_to_str (c : Z) (outcap : nat) : string :=
  let neg := c <? 0 in
  let c := if neg then wrap64 (- c) else c in
  let whole := Z.quot c 100 in
  let frac := Z.rem c 100 in
  if neg then snprintf outcap ("-" ++ fmt_d whole ++ "." ++ fmt_02d frac)
  else snprintf outcap (fmt_d whole ++ "." ++ fmt_02d frac).

(** One line of [print_txlog]. *)
Definition print_tx (t : tx_t) : string :=
  "[" ++ tx_type_name (tx_type t) ++ "] " ++ cents_to_str (tx_amount t) 32
      ++ "  " ++ tx_note t.

Definition print_txlog (log : txlog_t) : list string :=
  if (count log =? 0)%nat then ["<no transactions>"]
  else map print_tx (txlog_records log).

(** ** Accounts and the global state *)

Record Account := mk_account {
  username : string;
  password : string;
  agency : string;
  balance : Z;
  credit_limit : Z;
  credit_used : Z;
  pix_key : string;
  txlog : txlog_t;
  used : bool
}.

(** [accounts[0 .. account_count-1]] and [pix_table]. *)
Record State := mk_state {
  accounts : list Account;
  pix_table : list Z
}.

Definition account_count (st : State) : nat := length (accounts st).

Definition set_balance (a : Account) (v : Z) : Account :=
  mk_account (username a) (password a) (agency a) v (credit_limit a)
             (credit_used a) (pix_key a) (txlog a) (used a).

Definition set_credit_limit (a : Account) (v : Z) : Account :=
  mk_account (username a) (password a) (agency a) (balance a) v
             (credit_used a) (pix_key a) (txlog a) (used a).

Definition set_credit_used (a : Account) (v : Z) : Account :=
  mk_account (username a) (password a) (agency a) (balance a) (credit_limit a)
             v (pix_key a) (txlog a) (used a).

Definition set_pix_key (a : Account) (k : string) : Account :=
  mk_account (username a) (password a) (agency a) (balance a) (credit_limit a)
             (credit_used a) k (txlog a) (used a).

Definition set_password (a : Account) (p : string) : Account :=
  mk_account (username a) p (agency a) (balance a) (credit_limit a)
             (credit_used a) (pix_key a) (txlog a) (used a).

Definition set_txlog (a : Account) (l : txlog_t) : Account :=
  mk_account (username a) (password a) (agency a) (balance a) (credit_limit a)
             (credit_used a) (pix_key a) l (used a).

Definition log_account_tx (a : Account) (type : tx_type_t) (amt : Z)
    (note : string) : Account :=
  set_txlog a (txlog_push (txlog a) type amt note).

(** ** PIX hash table (open addressing, FNV-1a) *)

Fixpoint fnv1a_loop (s : string) (h : Z) : Z :=
  match s with
  | EmptyString => h
  | String c s' =>
      let h := Z.lxor h (Z.of_nat (nat_of_ascii c)) in
      fnv1a_loop s' (wrapu64 (h * 1099511628211))
  end.

Definition fnv1a_hash (s : string) : Z := fnv1a_loop s 1469598103934665603.

(** [(uint32_t)h & (PIX_TABLE_SIZE - 1)] *)
Definition pix_home (key : string) : nat :=
  Z.to_nat (Z.land (fnv1a_hash key mod 2 ^ 32) (Z.of_nat PIX_TABLE_SIZE - 1)).

(** [(idx + 1) & (PIX_TABLE_SIZE - 1)] *)
Definition pix_next (idx : nat) : nat :=
  Z.to_nat (Z.land (Z.of_nat idx + 1) (Z.of_nat PIX_TABLE_SIZE - 1)).

(** [pix_table[idx]] *)
Definition pix_slot (tbl : list Z) (idx : nat) : Z := nth idx tbl 0.

(** The test of [pix_find] and [pix_remove] on the account a slot names:
    [ai >= 0 && ai < account_count && accounts[ai].used &&
     accounts[ai].pix_key[0] && strcmp(accounts[ai].pix_key, key) == 0]. *)
Definition pix_hit (accs : list Account) (ai : Z) (key : string) : bool :=
  (0 <=? ai) && (ai <? Z.of_nat (length accs)) &&
  match accs !! Z.to_nat ai with
  | Some a => used a && negb (pix_key a =? "")%string && (pix_key a =? key)%string
  | None => false
  end.

(** The test of [pix_insert], which does not look at [pix_key[0]]. *)
Definition pix_same (accs : list Account) (ai : Z) (key : string) : bool :=
  (0 <=? ai) && (ai <? Z.of_nat (length accs)) &&
  match accs !! Z.to_nat ai with
  | Some a => used a && (pix_key a =? key)%string
  | None => false
  end.

(** The test of the rehash loop before it reinserts an entry; the key of
    the account is returned with it. *)
Definition pix_live (accs : list Account) (ai : Z) : option string :=
  if (0 <=? ai) && (ai <? Z.of_nat (length accs)) then
    match accs !! Z.to_nat ai with
    | Some a => if used a && negb (pix_key a =? "")%string
                then Some (pix_key a) else None
    | None => None
    end
  else None.

Fixpoint pix_find_loop (fuel : nat) (accs : list Account) (tbl : list Z)
    (key : string) (idx : nat) : option Z :=
  match fuel with
  | O => None
  | S fuel =>
      let v := pix_slot tbl idx in
      if v =? 0 then Some (-1)
      else
        let ai := v - 1 in
        if pix_hit accs ai key then Some ai
        else pix_find_loop fuel accs tbl key (pix_next idx)
  end.

(** find account index by pix key, or -1 *)
Definition pix_find (accs : list Account) (tbl : list Z) (key : string)
    : option Z :=
  if (key =? "")%string then Some (-1)
  else pix_find_loop PIX_TABLE_SIZE accs tbl key (pix_home key).

Fixpoint pix_insert_loop (fuel : nat) (accs : list Account) (tbl : list Z)
    (key : string) (account_index : Z) (idx : nat) : option (list Z) :=
  match fuel with
  | O => None
  | S fuel =>
      if pix_slot tbl idx =? 0 then Some (<[idx := account_index + 1]> tbl)
      else
        let ai := pix_slot tbl idx - 1 in
        if pix_same accs ai key then Some (<[idx := account_index + 1]> tbl)
        else pix_insert_loop fuel accs tbl key account_index (pix_next idx)
  end.

(** insert mapping key -> account_index (overwrites existing if present) *)
Definition pix_insert (accs : list Account) (tbl : list Z) (key : string)
    (account_index : Z) : option (list Z) :=
  if (key =? "")%string then Some tbl
  else pix_insert_loop PIX_TABLE_SIZE accs tbl key account_index (pix_home key).

(** The inner loop of [pix_remove]: clear and reinsert the entries of the
    run that starts at [j]. *)
Fixpoint pix_rehash_loop (fuel : nat) (accs : list Account) (tbl : list Z)
    (j : nat) : option (list Z) :=
  match fuel with
  | O => None
  | S fuel =>
      if pix_slot tbl j =? 0 then Some tbl
      else
        let re_ai := pix_slot tbl j - 1 in
        let tbl := <[j := 0]> tbl in
        match pix_live accs re_ai with
        | Some k =>
            match pix_insert accs tbl k re_ai with
            | Some tbl => pix_rehash_loop fuel accs tbl (pix_next j)
            | None => None
            end
        | None => pix_rehash_loop fuel accs tbl (pix_next j)
        end
  end.

Fixpoint pix_remove_loop (fuel : nat) (accs : list Account) (tbl : list Z)
    (key : string) (idx : nat) : option (list Z) :=
  match fuel with
  | O => None
  | S fuel =>
      let v := pix_slot tbl idx in
      if v =? 0 then Some tbl (* not found *)
      else
        let ai := v - 1 in
        if pix_hit accs ai key then
          (* remove and rehash following cluster *)
          pix_rehash_loop PIX_TABLE_SIZE accs (<[idx := 0]> tbl) (pix_next idx)
        else pix_remove_loop fuel accs tbl key (pix_next idx)
  end.

(** remove mapping for key (if any) keeping clustering intact *)
Definition pix_remove (accs : list Account) (tbl : list Z) (key : string)
    : option (list Z) :=
  if (key =? "")%string then Some tbl
  else pix_remove_loop PIX_TABLE_SIZE accs tbl key (pix_home key).

(** ** Account helpers *)

Fixpoint find_account_by_name_from (i : nat) (accs : list Account)
    (name : string) : Z :=
  match accs with
  | [] => -1
  | a :: accs' =>
      if used a && (username a =? name)%string then Z.of_nat i
      else find_account_by_name_from (S i) accs' name
  end.

Definition find_account_by_name (st : State) (name : string) : Z :=
  find_account_by_name_from 0 (accounts st) name.

(** ** Banking operations

    Every operation reports what it did on the terminal; [outcome] names
    the message. *)
Inductive outcome :=
  | Done                (* the success message of the operation *)
  | Invalid_amount      (* "Invalid deposit/withdrawal/transfer amount." *)
  | Insufficient_funds  (* "Insufficient funds[ for transfer]." *)
  | Own_pix_unset       (* "You must set your own PIX key before making transfers." *)
  | Not_enough_credit   (* "Not enough credit available." *)
  | Target_not_found    (* "Target PIX key not found or not set." *)
  | Limit_below_used    (* "New limit cannot be lower than current credit used." *)
  | Bad_password        (* "Incorrect current password." *)
  | Empty_password      (* "New password cannot be empty." *)
  | Pix_empty           (* "PIX key cannot be empty." *)
  | Pix_taken           (* "This PIX key is already registered." *)
  | Username_empty      (* "Username cannot be empty." *)
  | Username_taken      (* "Username already taken." *)
  | Agency_required     (* "Agency is required." *)
  | Account_limit.      (* "Account limit reached." *)

Definition deposit (a : Account) (amount : Z) : Account * outcome :=
  if amount <=? 0 then (a, Invalid_amount)
  else
    let a := set_balance a (wrap64 (balance a + amount)) in
    let nb := cents_to_str amount 64 in
    let note := snprintf TX_NOTE_LEN ("Deposited " ++ nb) in
    (log_account_tx a TX_DEPOSIT amount note, Done).

Definition withdraw_ (a : Account) (amount : Z) : Account * outcome :=
  if amount <=? 0 then (a, Invalid_amount)
  else if amount <=? balance a then
    let a := set_balance a (wrap64 (balance a - amount)) in
    let nb := cents_to_str amount 64 in
    let note := snprintf TX_NOTE_LEN ("Withdrew " ++ nb) in
    (log_account_tx a TX_WITHDRAW amount note, Done)
  else (a, Insufficient_funds).

(** The credit branch of [transfer_], taken when the target key is the
    sender's own. *)
Definition credit_advance (a : Account) (amount : Z) : Account * outcome :=
  let available := wrap64 (credit_limit a - credit_used a) in
  if amount <=? available then
    let a := set_credit_used a (wrap64 (credit_used a + amount)) in
    let a := set_balance a (wrap64 (balance a + amount)) in
    let nb := cents_to_str amount 64 in
    let note := snprintf TX_NOTE_LEN ("Credit advance " ++ nb) in
    (log_account_tx a TX_CREDIT_ADV amount note, Done)
  else (a, Not_enough_credit).

(** [transfer_(a, amount, pix_key)] with [a = &accounts[i]].  The target is
    reached through the array, so the writes to [*a] and [*target] are
    threaded through one list.  [None]: the probe of [pix_find] does not
    return (or [i] is no account). *)
Definition transfer_ (st : State) (i : nat) (amount : Z) (pix : string)
    : option (State * outcome) :=
  match accounts st !! i with
  | None => None
  | Some a =>
      if (pix_key a =? "")%string then Some (st, Own_pix_unset)
      else if amount <=? 0 then Some (st, Invalid_amount)
      else if (pix =? pix_key a)%string then
        let '(a', o) := credit_advance a amount in
        Some (mk_state (<[i := a']> (accounts st)) (pix_table st), o)
      else
        match pix_find (accounts st) (pix_table st) pix with
        | None => None
        | Some tidx =>
            if tidx <? 0 then Some (st, Target_not_found)
            else
              let t := Z.to_nat tidx in
              if amount <=? balance a then
                let accs := accounts st in
                let accs :=
                  alter (fun a => set_balance a (wrap64 (balance a - amount)))
                        i accs in
                let accs :=
                  alter (fun g => set_balance g (wrap64 (balance g + amount)))
                        t accs in
                let amtbuf := cents_to_str amount 64 in
                let tname := from_option username "" (accs !! t) in
                let aname := from_option username "" (accs !! i) in
                let note_out :=
                  snprintf TX_NOTE_LEN
                    ("Transferred " ++ amtbuf ++ " to " ++ tname) in
                let note_in :=
                  snprintf TX_NOTE_LEN
                    ("Received " ++ amtbuf ++ " from " ++ aname) in
                let accs :=
                  alter (fun a => log_account_tx a TX_TRANSFER_OUT amount note_out)
                        i accs in
                let accs :=
                  alter (fun g => log_account_tx g TX_TRANSFER_IN amount note_in)
                        t accs in
                Some (mk_state accs (pix_table st), Done)
              else Some (st, Insufficient_funds)
        end
  end.

Definition change_credit_limit (a : Account) (new_limit : Z)
    : Account * outcome :=
  if new_limit >=? credit_used a then
    let a := set_credit_limit a new_limit in
    let nb := cents_to_str new_limit 64 in
    let note := snprintf TX_NOTE_LEN ("Credit limit set to " ++ nb) in
    (log_account_tx a TX_MISC 0 note, Done)
  else (a, Limit_below_used).

Definition change_password (a : Account) (oldp newp : string)
    : Account * outcome :=
  if negb (password a =? oldp)%string then (a, Bad_password)
  else if (newp =? "")%string then (a, Empty_password)
  else
    let a := set_password a (safe_strcpy newp MAX_PASS_LEN) in
    (log_account_tx a TX_MISC 0 "Password changed", Done).

(** Case '6' of [account_menu] ("Set/Update PIX Key") for the account
    [my_index], with [pix] the line that was read. *)
Definition menu_set_pix (st : State) (my_index : nat) (pix : string)
    : option (State * outcome) :=
  match accounts st !! my_index with
  | None => None
  | Some account =>
      if (pix =? "")%string then Some (st, Pix_empty)
      else
        match pix_find (accounts st) (pix_table st) pix with
        | None => None
        | Some existing =>
            if (existing >=? 0) && negb (existing =? Z.of_nat my_index)
            then Some (st, Pix_taken)
            else
              let removed :=
                if (pix_key account =? "")%string then Some (pix_table st)
                else pix_remove (accounts st) (pix_table st) (pix_key account) in
              match removed with
              | None => None
              | Some tbl =>
                  let account :=
                    set_pix_key account (safe_strcpy pix MAX_PIX_LEN) in
                  let accs := <[my_index := account]> (accounts st) in
                  match pix_insert accs tbl (pix_key account)
                                   (Z.of_nat my_index) with
                  | None => None
                  | Some tbl =>
                      let account :=
                        log_account_tx account TX_MISC 0 "PIX key set/updated" in
                      Some (mk_state (<[my_index := account]> accs) tbl, Done)
                  end
              end
        end
  end.

(** ** Sign up and initialization *)

(** A slot after [memset(a, 0, sizeof *a)] and the assignments of
    [sign_up]. *)
Definition new_account (name pass ag : string) : Account :=
  mk_account (safe_strcpy name MAX_NAME_LEN) (safe_strcpy pass MAX_PASS_LEN)
             (safe_strcpy ag MAX_AGENCY_LEN) 0 (100 * 100) 0 "" txlog_empty true.

Definition sign_up (st : State) (name pass ag : string) : State * outcome :=
  if (name =? "")%string then (st, Username_empty)
  else if find_account_by_name st name >=? 0 then (st, Username_taken)
  else if (ag =? "")%string then (st, Agency_required)
  else if (MAX_ACCOUNTS <=? account_count st)%nat then (st, Account_limit)
  else (mk_state (accounts st ++ [new_account name pass ag])%list (pix_table st),
        Done).

Definition sample_account (name key : string) : Account :=
  mk_account (safe_strcpy name MAX_NAME_LEN) (safe_strcpy "pass" MAX_PASS_LEN)
             (safe_strcpy "DF" MAX_AGENCY_LEN) 0 (100 * 100) 0
             (safe_strcpy key MAX_PIX_LEN) txlog_empty true.

Definition init_sample_accounts (st : State) : option State :=
  if (MAX_ACCOUNTS <? account_count st + 2)%nat then Some st
  else
    let a := sample_account "user1" "user1pix" in
    let i1 := account_count st in
    let accs := (accounts st ++ [a])%list in
    match pix_insert accs (pix_table st) (pix_key a) (Z.of_nat i1) with
    | None => None
    | Some tbl =>
        let a := sample_account "user2" "user2pix" in
        let i2 := length accs in
        let accs := (accs ++ [a])%list in
        match pix_insert accs tbl (pix_key a) (Z.of_nat i2) with
        | None => None
        | Some tbl => Some (mk_state accs tbl)
        end
    end.

(** The state [main] reaches before its menu loop: zeroed globals, then
    [init_sample_accounts]. *)
Definition zero_state : State := mk_state [] (replicate PIX_TABLE_SIZE 0).

Definition boot_state : option State := init_sample_accounts zero_state.

(** ** The program as a transition system *)

Inductive op :=
  | Op_sign_up (name pass ag : string)
  | Op_deposit (i : nat) (amount : Z)
  | Op_withdraw (i : nat) (amount : Z)
  | Op_transfer (i : nat) (amount : Z) (pix : string)
  | Op_set_pix (i : nat) (pix : string)
  | Op_credit_limit (i : nat) (new_limit : Z)
  | Op_password (i : nat) (oldp newp : string).

(** What the menus can pass: the logged-in account is a slot below
    [account_count], amounts are [cents_t] values, and every line read
    fits its buffer. *)
Definition valid_op (st : State) (o : op) : Prop :=
  match o with
  | Op_sign_up name pass ag =>
      (String.length name < MAX_NAME_LEN)%nat /\
      (String.length pass < MAX_PASS_LEN)%nat /\
      (String.length ag < MAX_AGENCY_LEN)%nat
  | Op_deposit i amount | Op_withdraw i amount | Op_credit_limit i amount =>
      (i < account_count st)%nat /\ in_int64 amount
  | Op_transfer i amount pix =>
      (i < account_count st)%nat /\ in_int64 amount /\
      (String.length pix < MAX_PIX_LEN)%nat
  | Op_set_pix i pix =>
      (i < account_count st)%nat /\ (String.length pix < MAX_PIX_LEN)%nat
  | Op_password i oldp newp =>
      (i < account_count st)%nat /\
      (String.length oldp < MAX_PASS_LEN)%nat /\
      (String.length newp < MAX_PASS_LEN)%nat
  end.

(** Apply an operation on one account to slot [i] of the array. *)
Definition on_account (st : State) (i : nat) (f : Account -> Account * outcome)
    : option (State * outcome) :=
  match accounts st !! i with
  | None => None
  | Some a =>
      let '(a', o) := f a in
      Some (mk_state (<[i := a']> (accounts st)) (pix_table st), o)
  end.

Definition run (st : State) (o : op) : option (State * outcome) :=
  match o with
  | Op_sign_up name pass ag => Some (sign_up st name pass ag)
  | Op_deposit i amount => on_account st i (fun a => deposit a amount)
  | Op_withdraw i amount => on_account st i (fun a => withdraw_ a amount)
  | Op_transfer i amount pix => transfer_ st i amount pix
  | Op_set_pix i pix => menu_set_pix st i pix
  | Op_credit_limit i nl => on_account st i (fun a => change_credit_limit a nl)
  | Op_password i oldp newp =>
      on_account st i (fun a => change_password a oldp newp)
  end.

Definition step (st : State) (o : op) : option State :=
  fst <$> run st o.

Inductive reachable : State -> Prop :=
  | reachable_boot st : boot_state = Some st -> reachable st
  | reachable_step st o st' :
      reachable st -> valid_op st o -> step st o = Some st' -> reachable st'.

(** ** Console input

    [stdin] is the string of the bytes still to be read; at the end of
    input it is empty.  What the program prints is not modelled here. *)

(** [fgets(buf, n + 1, stdin)]: the bytes stored in [buf], at most [n] of
    them and none after the first newline, and the input left.  The call
    returns [NULL] when it stores nothing because the input is at its
    end. *)
Fixpoint fgets (n : nat) (inp : string) : string * string :=
  match n, inp with
  | S n', String c rest =>
      if Ascii.eqb c "010" then (String c "", rest)
      else let '(line, rest') := fgets n' rest in (String c line, rest')
  | _, _ => ("", inp)
  end.

(** The C string that a buffer holds: its bytes before the first NUL. *)
Fixpoint c_str (buf : string) : string :=
  match buf with
  | String c rest => if Ascii.eqb c "000" then "" else String c (c_str rest)
  | EmptyString => ""
  end.

(** [if (len && buf[len-1] == '\n') buf[len-1] = '\0'] *)
Fixpoint chop_newline (s : string) : string :=
  match s with
  | EmptyString => ""
  | String c EmptyString => if Ascii.eqb c "010" then "" else s
  | String c rest => String c (chop_newline rest)
  end.

(** [readln(buf, cap)] with [cap > 0]: the line left in [buf] and the input
    left.  When [fgets] returns [NULL] the buffer is set to the empty
    string, which is also what the bytes stored amount to. *)
Definition readln (inp : string) (cap : nat) : string * string :=
  let '(raw, rest) := fgets (cap - 1) inp in
  (chop_newline (c_str raw), rest).

(** [get_password(prompt, out, cap)], the branch compiled outside Windows:
    one [fgets] with the echo of the terminal switched off, the newline
    cut. *)
Definition get_password (inp : string) (cap : nat) : string * string :=
  let '(raw, rest) := fgets (cap - 1) inp in
  (chop_newline (c_str raw), rest).

(** [pause_screen]: one line is read into [char tmp[8]] and dropped. *)
Definition pause_screen (inp : string) : string := (readln inp 8).2.

(** [read_cents_prompt]: lines are read into [char buf[128]] until one
    parses.  The fuel bounds the number of lines read; [None]: no line
    read so far has parsed. *)
Fixpoint read_cents_prompt (fuel : nat) (inp : string) : option (Z * string) :=
  match fuel with
  | O => None
  | S fuel =>
      let '(buf, inp) := readln inp 128 in
      match parse_money_to_cents buf with
      | Some val => Some (val, inp)
      | None => read_cents_prompt fuel inp
      end
  end.

(** ** The menus *)

(** Where a menu loop stands: it has returned, with the input that is left,
    or it is still running, in the state given, when the fuel is used up.
    The fuel bounds the turns of every loop; a loop that is [Running] for
    every amount of fuel never returns. *)
Inductive session :=
  | Returned (st : State) (inp : string)
  | Running (st : State).

Definition session_state (s : session) : State :=
  match s with
  | Returned st _ => st
  | Running st => st
  end.

(** [s[0]]: the first byte of a C string, the terminating NUL when the
    string is empty. *)
Definition first_byte (s : string) : ascii :=
  match s with
  | String c _ => c
  | EmptyString => "000"%char
  end.

(** The [switch (choice[0])] of [account_menu] for a choice other than
    '9': the operation that the case starts, if any, after the input it
    reads for it.  Cases '4' and '5' only print, and so does the default
    case.  [None]: [read_cents_prompt] has not returned. *)
Definition account_menu_case (fuel : nat) (i : nat) (choice inp : string)
    : option (option op * string) :=
  let c := first_byte choice in
  if Ascii.eqb c "1" then
    match read_cents_prompt fuel inp with
    | Some (amt, inp) => Some (Some (Op_deposit i amt), inp)
    | None => None
    end
  else if Ascii.eqb c "2" then
    match read_cents_prompt fuel inp with
    | Some (amt, inp) => Some (Some (Op_withdraw i amt), inp)
    | None => None
    end
  else if Ascii.eqb c "3" then
    let '(pix, inp) := readln inp MAX_PIX_LEN in
    match read_cents_prompt fuel inp with
    | Some (amt, inp) => Some (Some (Op_transfer i amt pix), inp)
    | None => None
    end
  else if Ascii.eqb c "4" then Some (None, inp)
  else if Ascii.eqb c "5" then Some (None, inp)
  else if Ascii.eqb c "6" then
    let '(pix, inp) := readln inp MAX_PIX_LEN in
    Some (Some (Op_set_pix i pix), inp)
  else if Ascii.eqb c "7" then
    match read_cents_prompt fuel inp with
    | Some (nl, inp) => Some (Some (Op_credit_limit i nl), inp)
    | None => None
    end
  else if Ascii.eqb c "8" then
    let '(oldp, inp) := get_password inp MAX_PASS_LEN in
    let '(newp, inp) := get_password inp MAX_PASS_LEN in
    Some (Some (Op_password i oldp newp), inp)
  else Some (None, inp).

(** [account_menu(&accounts[i])]: each turn of the loop reads a choice into
    [char choice[64]], looks at its first byte, runs the case and, unless
    the choice was '9', calls [pause_screen].  The loop stays where it is
    when [read_cents_prompt] or the operation does not return. *)
Fixpoint account_menu (fuel : nat) (st : State) (i : nat) (inp : string)
    : session :=
  match fuel with
  | O => Running st
  | S fuel =>
      let '(choice, inp) := readln inp 64 in
      if Ascii.eqb (first_byte choice) "9" then Returned st inp
      else
        match account_menu_case fuel i choice inp with
        | None => Running st
        | Some (None, inp) => account_menu fuel st i (pause_screen inp)
        | Some (Some o, inp) =>
            match step st o with
            | Some st' => account_menu fuel st' i (pause_screen inp)
            | None => Running st
            end
        end
  end.

(** The test of [log_in] on the two lines read:
    [idx >= 0 && strcmp(accounts[idx].password, password) == 0], with the
    account it selects. *)
Definition log_in_account (st : State) (name pass : string) : option nat :=
  let idx := find_account_by_name st name in
  if idx >=? 0 then
    match accounts st !! Z.to_nat idx with
    | Some a => if (password a =? pass)%string then Some (Z.to_nat idx) else None
    | None => None
    end
  else None.

Definition log_in (fuel : nat) (st : State) (inp : string) : session :=
  let '(name, inp) := readln inp MAX_NAME_LEN in
  let '(pass, inp) := get_password inp MAX_PASS_LEN in
  match log_in_account st name pass with
  | Some idx => account_menu fuel st idx (pause_screen inp)
  | None => Returned st inp
  end.

(** [sign_up] reading its lines: the password and the agency are asked for
    only after the user name has passed its checks, and every refusal ends
    in [pause_screen]. *)
Definition sign_up_io (st : State) (inp : string) : State * string :=
  let '(name, inp) := readln inp MAX_NAME_LEN in
  if (name =? "")%string then (st, pause_screen inp)
  else if find_account_by_name st name >=? 0 then (st, pause_screen inp)
  else
    let '(pass, inp) := get_password inp MAX_PASS_LEN in
    let '(ag, inp) := readln inp MAX_AGENCY_LEN in
    if (ag =? "")%string then (st, pause_screen inp)
    else if (MAX_ACCOUNTS <=? account_count st)%nat then (st, pause_screen inp)
    else
      (mk_state (accounts st ++ [new_account name pass ag])%list (pix_table st),
       inp).

(** The loop of [main]: a choice is read into [char opt[64]] and
    [switch (opt[0])] runs; '3' ends the program after one [pause_screen],
    every other turn ends in [pause_screen] and goes round. *)
Fixpoint main_loop (fuel : nat) (st : State) (inp : string) : session :=
  match fuel with
  | O => Running st
  | S fuel =>
      let '(opt, inp) := readln inp 64 in
      let c := first_byte opt in
      if Ascii.eqb c "1" then
        let '(st', inp) := sign_up_io st inp in
        main_loop fuel st' (pause_screen inp)
      else if Ascii.eqb c "2" then
        match log_in fuel st inp with
        | Returned st' inp => main_loop fuel st' (pause_screen inp)
        | Running st' => Running st'
        end
      else if Ascii.eqb c "3" then Returned st (pause_screen inp)
      else main_loop fuel st (pause_screen inp)
  end.

(** [main]: the globals are zeroed, the sample accounts created, and the
    loop entered. *)
Definition main (fuel : nat) (inp : string) : option session :=
  match boot_state with
  | Some st => Some (main_loop fuel st inp)
  | None => None
  end.

(** * Vocabulary of the statements *)

(** ** The transaction ring *)

(** The last [n] elements of a list. *)
Definition lastn {A} (n : nat) (l : list A) : list A := drop (length l - n) l.

(** The shape of a ring: [TX_LOG_SIZE] slots, the oldest among them, at
    most [TX_LOG_SIZE] records. *)
Definition txlog_wf (log : txlog_t) : Prop :=
  length (entries log) = TX_LOG_SIZE /\
  (head log < TX_LOG_SIZE)%nat /\ (count log <= TX_LOG_SIZE)%nat.

(** A sequence of pushes, each given as (kind, amount, note). *)
Definition txlog_push_all (log : txlog_t)
    (l : list (tx_type_t * Z * string)) : txlog_t :=
  fold_left (fun lg '(ty, am, note) => txlog_push lg ty am note) l log.

(** The record a push of (kind, amount, note) stores. *)
Definition tx_stored_of (r : tx_type_t * Z * string) : tx_t :=
  let '(ty, am, note) := r in tx_stored ty am note.

(** The record a push of (kind, amount, note) is to leave in the ring, in
    the words of the specification: that kind, that amount and that note,
    of which the 40 bytes of a record hold the first 39. *)
Definition pushed_record (r : tx_type_t * Z * string) : tx_t :=
  let '(ty, am, note) := r in mk_tx ty am (substring 0 39 note).

(** The same when the note fits: the record is the triple as it was
    pushed. *)
Definition record_as_pushed (r : tx_type_t * Z * string) : tx_t :=
  let '(ty, am, note) := r in mk_tx ty am note.

(** ** The PIX index *)

(** The key under which slot [p] is indexed: the key of the live account
    the slot names, if the slot is occupied. *)
Definition entry_key (accs : list Account) (tbl : list Z) (p : nat)
    : option string :=
  if pix_slot tbl p =? 0 then None else pix_live accs (pix_slot tbl p - 1).

(** Slot [p] lies on the probe path of [key] and every slot before it on
    that path is occupied. *)
Definition probe_reaches (tbl : list Z) (key : string) (p : nat) : Prop :=
  exists d, (d < PIX_TABLE_SIZE)%nat /\
    p = cyc PIX_TABLE_SIZE (pix_home key) d /\
    forall d', (d' < d)%nat ->
      pix_slot tbl (cyc PIX_TABLE_SIZE (pix_home key) d') <> 0.

(** The probe from [start] stops at offset [d]: the slots before it are
    occupied by other keys, and the slot itself is empty or holds [key]. *)
Definition probe_stops (accs : list Account) (tbl : list Z) (key : string)
    (start d : nat) : Prop :=
  (forall d', (d' < d)%nat ->
     entry_key accs tbl (cyc PIX_TABLE_SIZE start d') <> Some key /\
     pix_slot tbl (cyc PIX_TABLE_SIZE start d') <> 0) /\
  (pix_slot tbl (cyc PIX_TABLE_SIZE start d) = 0 \/
   entry_key accs tbl (cyc PIX_TABLE_SIZE start d) = Some key).

(** Well-formed index: every occupied slot names a live account, no two
    slots carry the same key, and every entry is reached by the probe for
    its key. *)
Record pix_wf (accs : list Account) (tbl : list Z) : Prop := {
  wf_length : length tbl = PIX_TABLE_SIZE;
  wf_live : forall p, (p < PIX_TABLE_SIZE)%nat ->
    pix_slot tbl p <> 0 -> is_Some (entry_key accs tbl p);
  wf_distinct : forall p q k, (p < PIX_TABLE_SIZE)%nat ->
    (q < PIX_TABLE_SIZE)%nat ->
    entry_key accs tbl p = Some k -> entry_key accs tbl q = Some k -> p = q;
  wf_reach : forall p k, (p < PIX_TABLE_SIZE)%nat ->
    entry_key accs tbl p = Some k -> probe_reaches tbl k p
}.

(** Some slot of the table is empty. *)
Definition has_empty (tbl : list Z) : Prop :=
  exists p, (p < PIX_TABLE_SIZE)%nat /\ pix_slot tbl p = 0.

(** The invariant of the rehash loop of [pix_remove], when the loop is
    about to look at offset [k] from the removed slot [idx] of the
    well-formed table [orig], whose first empty slot after [idx] is at
    offset [kstar]: the slots from offset [k] on are untouched, the
    entries are those of [orig] without the removed one, and only the
    entries of the run still to be processed may be cut off from their
    home slot. *)
Record rehash_inv (accs : list Account) (orig : list Z) (idx kstar : nat)
    (tbl : list Z) (k : nat) : Prop := {
  ri_length : length tbl = PIX_TABLE_SIZE;
  ri_rest : forall m, (k <= m < PIX_TABLE_SIZE)%nat ->
    pix_slot tbl (cyc PIX_TABLE_SIZE idx m) = pix_slot orig (cyc PIX_TABLE_SIZE idx m);
  ri_live : forall p, (p < PIX_TABLE_SIZE)%nat ->
    pix_slot tbl p <> 0 -> is_Some (entry_key accs tbl p);
  ri_distinct : forall p q key, (p < PIX_TABLE_SIZE)%nat ->
    (q < PIX_TABLE_SIZE)%nat ->
    entry_key accs tbl p = Some key -> entry_key accs tbl q = Some key -> p = q;
  ri_values : forall v, v <> 0 ->
    (exists p, (p < PIX_TABLE_SIZE)%nat /\ pix_slot tbl p = v) <->
    (exists p, (p < PIX_TABLE_SIZE)%nat /\ p <> idx /\ pix_slot orig p = v);
  ri_reach : forall p key, (p < PIX_TABLE_SIZE)%nat ->
    entry_key accs tbl p = Some key ->
    probe_reaches tbl key p \/
    exists m, (k <= m < kstar)%nat /\ p = cyc PIX_TABLE_SIZE idx m
}.

(** ** The index and the accounts *)

(** The index of a state is well formed, every account is in use, and
    every account that has a key is indexed. *)
Record index_inv (st : State) : Prop := {
  ii_count : (account_count st <= MAX_ACCOUNTS)%nat;
  ii_wf : pix_wf (accounts st) (pix_table st);
  ii_used : forall i a, accounts st !! i = Some a -> used a = true;
  ii_indexed : forall i a, accounts st !! i = Some a -> pix_key a <> "" ->
    exists p, (p < PIX_TABLE_SIZE)%nat /\ pix_slot (pix_table st) p = Z.of_nat i + 1
}.

(** The same between the removal and the insertion of the key of account
    [my]: that account is not indexed, all others are. *)
Record index_inv_but (my : nat) (accs : list Account) (tbl : list Z) : Prop := {
  ib_count : (length accs <= MAX_ACCOUNTS)%nat;
  ib_wf : pix_wf accs tbl;
  ib_used : forall i a, accs !! i = Some a -> used a = true;
  ib_indexed : forall i a, i <> my -> accs !! i = Some a -> pix_key a <> "" ->
    exists p, (p < PIX_TABLE_SIZE)%nat /\ pix_slot tbl p = Z.of_nat i + 1;
  ib_absent : forall p, (p < PIX_TABLE_SIZE)%nat -> pix_slot tbl p <> Z.of_nat my + 1
}.

(** Two account arrays that agree on keys and [used] flags. *)
Definition same_keys (accs accs' : list Account) : Prop :=
  length accs' = length accs /\
  forall i a, accs !! i = Some a ->
    exists a', accs' !! i = Some a' /\ pix_key a' = pix_key a /\ used a' = used a.

(** The removal in the words of the specification: clear the matched slot
    [idx], then clear and reinsert, one after the other, the entries of the
    [len] occupied slots that follow it. *)
Definition reinsert_entry (accs : list Account) (tbl : option (list Z))
    (j : nat) : option (list Z) :=
  match tbl with
  | None => None
  | Some tbl =>
      match pix_live accs (pix_slot tbl j - 1) with
      | Some k => pix_insert accs (<[j := 0]> tbl) k (pix_slot tbl j - 1)
      | None => Some (<[j := 0]> tbl)
      end
  end.

(** The [len] slots that follow slot [idx], in probing order. *)
Definition run_after (idx len : nat) : list nat :=
  map (cyc PIX_TABLE_SIZE idx) (seq 1 len).

Definition remove_by_run (accs : list Account) (tbl : list Z) (idx len : nat)
    : option (list Z) :=
  fold_left (reinsert_entry accs) (run_after idx len) (Some (<[idx := 0]> tbl)).

(** ** Running scenarios *)

(** [in_int64] and [valid_op] as tests. *)
Definition in_int64b (z : Z) : bool := (INT64_MIN <=? z) && (z <=? INT64_MAX).

Definition valid_opb (st : State) (o : op) : bool :=
  match o with
  | Op_sign_up name pass ag =>
      (String.length name <? MAX_NAME_LEN)%nat &&
      (String.length pass <? MAX_PASS_LEN)%nat &&
      (String.length ag <? MAX_AGENCY_LEN)%nat
  | Op_deposit i amount | Op_withdraw i amount | Op_credit_limit i amount =>
      (i <? account_count st)%nat && in_int64b amount
  | Op_transfer i amount pix =>
      (i <? account_count st)%nat && in_int64b amount &&
      (String.length pix <? MAX_PIX_LEN)%nat
  | Op_set_pix i pix =>
      (i <? account_count st)%nat && (String.length pix <? MAX_PIX_LEN)%nat
  | Op_password i oldp newp =>
      (i <? account_count st)%nat &&
      (String.length oldp <? MAX_PASS_LEN)%nat &&
      (String.length newp <? MAX_PASS_LEN)%nat
  end.

(** Run a list of menu operations, each checked to be one the menus can
    start. *)
Fixpoint exec (st : State) (ops : list op) : option State :=
  match ops with
  | [] => Some st
  | o :: ops =>
      if valid_opb st o then
        match step st o with
        | Some st' => exec st' ops
        | None => None
        end
      else None
  end.

(** The same from the state [main] starts its menu in. *)
Definition exec_from_boot (ops : list op) : option State :=
  match boot_state with
  | Some st => exec st ops
  | None => None
  end.

(** Three accounts whose keys have the same home slot, 2047, set in the
    order A = "k96", B = "k171", C = "k218": they occupy slots 2047, 0, 1. *)
Definition cluster_ops : list op :=
  [Op_sign_up "user3" "pass" "DF"; Op_set_pix 0 "k96"; Op_set_pix 1 "k171";
   Op_set_pix 2 "k218"].

Definition cluster_state : State :=
  default zero_state (exec_from_boot cluster_ops).

(** The table of [cluster_state] after [pix_remove] of B. *)
Definition cluster_after : list Z :=
  default [] (pix_remove (accounts cluster_state) (pix_table cluster_state)
                         "k171").

(** ** The ledger *)

(** The fields of an account as [cents_t] values, with the credit used
    between 0 and the limit. *)
Definition account_ok (a : Account) : Prop :=
  in_int64 (balance a) /\
  0 <= credit_used a /\ credit_used a <= credit_limit a /\
  credit_limit a <= INT64_MAX.

(** What operation [o] may do to the credit used by account [i]: leave it
    as it is, or, when it is a transfer to the account's own key, add the
    positive amount of the advance. *)
Definition credit_change (o : op) (i : nat) (a a' : Account) : Prop :=
  credit_used a' = credit_used a \/
  exists amount, o = Op_transfer i amount (pix_key a) /\ 0 < amount /\
                 credit_used a' = credit_used a + amount.

(** The additions to a balance that operation [o] performs in state [st]
    stay within [int64_t]: that of a deposit, that of a credit advance that
    is granted, and the credit of the receiver of a transfer that the
    sender can pay. *)
Definition no_overflow (st : State) (o : op) : Prop :=
  match o with
  | Op_deposit i amount =>
      forall a, accounts st !! i = Some a -> 0 < amount ->
        balance a + amount <= INT64_MAX
  | Op_transfer i amount pix =>
      forall a, accounts st !! i = Some a -> pix_key a <> "" -> 0 < amount ->
        if (pix =? pix_key a)%string then
          amount <= wrap64 (credit_limit a - credit_used a) ->
          balance a + amount <= INT64_MAX
        else forall t b,
          pix_find (accounts st) (pix_table st) pix = Some t -> 0 <= t ->
          accounts st !! Z.to_nat t = Some b -> amount <= balance a ->
          balance b + amount <= INT64_MAX
  | _ => True
  end.

(** The states reached by operations that do not overflow a balance. *)
Inductive reachable_in_range : State -> Prop :=
  | in_range_boot st : boot_state = Some st -> reachable_in_range st
  | in_range_step st o st' :
      reachable_in_range st -> valid_op st o -> no_overflow st o ->
      step st o = Some st' -> reachable_in_range st'.

(** No account of the state has a negative balance. *)
Definition balances_nonneg (st : State) : Prop :=
  Forall (fun a => 0 <= balance a) (accounts st).

(** The note texts of the operations. *)
Definition note_deposit (amount : Z) : string :=
  snprintf TX_NOTE_LEN ("Deposited " ++ cents_to_str amount 64).
Definition note_withdraw (amount : Z) : string :=
  snprintf TX_NOTE_LEN ("Withdrew " ++ cents_to_str amount 64).
Definition note_credit (amount : Z) : string :=
  snprintf TX_NOTE_LEN ("Credit advance " ++ cents_to_str amount 64).
Definition note_transfer_out (amount : Z) (target : string) : string :=
  snprintf TX_NOTE_LEN
    ("Transferred " ++ cents_to_str amount 64 ++ " to " ++ target).
Definition note_transfer_in (amount : Z) (sender : string) : string :=
  snprintf TX_NOTE_LEN
    ("Received " ++ cents_to_str amount 64 ++ " from " ++ sender).

(** User 2 deposits the largest [cents_t] amount, user 1 deposits one
    cent. *)
Definition full_ops : list op :=
  [Op_deposit 1 INT64_MAX; Op_deposit 0 1].

Definition full_state : State := default zero_state (exec_from_boot full_ops).

(** The balance of account [i], 0 when there is no such account. *)
Definition balance_of (st : State) (i : nat) : Z :=
  from_option balance 0 (accounts st !! i).

(** Its credit used, and the records of its log, oldest first. *)
Definition credit_used_of (st : State) (i : nat) : Z :=
  from_option credit_used 0 (accounts st !! i).

Definition history_of (st : State) (i : nat) : list tx_t :=
  from_option (fun a => txlog_records (txlog a)) [] (accounts st !! i).

(** User 2 deposits the largest [cents_t] amount and then one more cent. *)
Definition wrapped_ops : list op :=
  [Op_deposit 1 INT64_MAX; Op_deposit 1 1].

Definition wrapped_state : State :=
  default zero_state (exec_from_boot wrapped_ops).

(** The state [main] starts its menu in. *)
Definition boot : State := default zero_state boot_state.

(** A test that implies [no_overflow]. *)
Definition no_overflowb (st : State) (o : op) : bool :=
  match o with
  | Op_deposit i amount =>
      match accounts st !! i with
      | Some a => balance a + amount <=? INT64_MAX
      | None => true
      end
  | Op_transfer i amount pix =>
      match accounts st !! i with
      | Some a =>
          if (pix =? pix_key a)%string then balance a + amount <=? INT64_MAX
          else
            match pix_find (accounts st) (pix_table st) pix with
            | Some t =>
                match accounts st !! Z.to_nat t with
                | Some b => balance b + amount <=? INT64_MAX
                | None => true
                end
            | None => true
            end
      | None => true
      end
  | _ => true
  end.

(** [exec] with that test added at every step. *)
Fixpoint exec_in_range (st : State) (ops : list op) : option State :=
  match ops with
  | [] => Some st
  | o :: ops =>
      if valid_opb st o && no_overflowb st o then
        match step st o with
        | Some st' => exec_in_range st' ops
        | None => None
        end
      else None
  end.

(** User 1 deposits 10.00 and transfers 3.00 to user 2. *)
Definition paid_ops : list op :=
  [Op_deposit 0 1000; Op_transfer 0 300 "user2pix"].

Definition paid_state : State := default zero_state (exec_in_range boot paid_ops).

(** User 1 draws 50.00 of credit right after boot. *)
Definition advanced_state : State :=
  default zero_state (step boot (Op_transfer 0 5000 "user1pix")).

(** User 1 has deposited 10.00. *)
Definition funded_state : State :=
  default zero_state (step boot (Op_deposit 0 1000)).

(** The account of the first user in a state. *)
Definition user1_of (st : State) : Account :=
  nth 0 (accounts st) (new_account "" "" "").

(** ** The money codec *)

(** The string consists of decimal digits; of whitespace. *)
Fixpoint all_digits (s : string) : bool :=
  match s with
  | EmptyString => true
  | String c s' => is_digit c && all_digits s'
  end.

Fixpoint all_space (s : string) : bool :=
  match s with
  | EmptyString => true
  | String c s' => isspace c && all_space s'
  end.

(** The string does not start with a digit. *)
Definition no_digit_head (s : string) : Prop :=
  match s with
  | String c _ => is_digit c = false
  | EmptyString => True
  end.

(** The exact value of a run of decimal digits that continues the number
    [acc]. *)
Fixpoint digits_value (s : string) (acc : Z) : Z :=
  match s with
  | EmptyString => acc
  | String c s' => digits_value s' (acc * 10 + digit_val c)
  end.

(** The cents of a fractional part: its first two digits, a missing second
    digit counted as 0; further digits do not count. *)
Definition frac_cents (fs : string) : Z :=
  match fs with
  | EmptyString => 0
  | String d1 EmptyString => digit_val d1 * 10
  | String d1 (String d2 _) => digit_val d1 * 10 + digit_val d2
  end.

(** The form of an amount in the words of the specification: an optional
    sign, integer digits, an optional '.' followed by fractional digits,
    and optional trailing whitespace. *)
Record money_text := mk_money_text {
  mt_sign : string;
  mt_whole : string;
  mt_dot : bool;
  mt_frac : string;
  mt_space : string
}.

(** The parts are what their names say; without a '.' there are no
    fractional digits. *)
Definition money_text_ok (m : money_text) : Prop :=
  (mt_sign m = "" \/ mt_sign m = "+" \/ mt_sign m = "-") /\
  all_digits (mt_whole m) = true /\
  all_digits (mt_frac m) = true /\
  (mt_dot m = false -> mt_frac m = "") /\
  all_space (mt_space m) = true.

(** The string the parts make up, and its sign. *)
Definition money_string (m : money_text) : string :=
  mt_sign m ++ mt_whole m ++
  (if mt_dot m then "." ++ mt_frac m else "") ++ mt_space m.

Definition money_sign (m : money_text) : Z :=
  if (mt_sign m =? "-")%string then -1 else 1.


(** The two decimal digits of a number below 100. *)
Definition two_digits (n : Z) : string :=
  String (ascii_of_nat (48 + Z.to_nat (n / 10)))
    (String (ascii_of_nat (48 + Z.to_nat (n mod 10))) "").



(** Three hundred deposits of 1, 2, ..., 300 cents. *)
Definition many_pushes : list (tx_type_t * Z * string) :=
  map (fun n => (TX_DEPOSIT, Z.of_nat n, "Deposited")) (seq 1 300).

(** * Vocabulary of the further properties *)

(** ** Accounts *)

(** The accounts operation [o] works on in state [st]: the account of the
    menu, and for a transfer also the account the target key resolves
    to. *)
Definition acts_on (st : State) (o : op) (j : nat) : Prop :=
  match o with
  | Op_sign_up _ _ _ => False
  | Op_deposit i _ | Op_withdraw i _ | Op_credit_limit i _ => j = i
  | Op_set_pix i _ => j = i
  | Op_password i _ _ => j = i
  | Op_transfer i _ pix =>
      j = i \/ pix_find (accounts st) (pix_table st) pix = Some (Z.of_nat j)
  end.

(** Every string of the account fits the array that holds it, and its
    ring is in shape. *)
Definition account_fits (a : Account) : Prop :=
  (String.length (username a) < MAX_NAME_LEN)%nat /\
  (String.length (password a) < MAX_PASS_LEN)%nat /\
  (String.length (agency a) < MAX_AGENCY_LEN)%nat /\
  (String.length (pix_key a) < MAX_PIX_LEN)%nat /\
  txlog_wf (txlog a) /\
  Forall (fun t => (String.length (tx_note t) < TX_NOTE_LEN)%nat)
         (entries (txlog a)).

(** The sum over all accounts of balance minus credit used. *)
Definition net_position (st : State) : Z :=
  foldr (fun a s => balance a - credit_used a + s) 0 (accounts st).

(** The cash an operation brings in when it succeeds. *)
Definition cash_flow (o : op) : Z :=
  match o with
  | Op_deposit _ amount => amount
  | Op_withdraw _ amount => - amount
  | _ => 0
  end.

(** ** Console input *)

(** The byte [c] occurs in [s]. *)
Fixpoint has_char (c : ascii) (s : string) : bool :=
  match s with
  | EmptyString => false
  | String d s' => Ascii.eqb d c || has_char c s'
  end.

(** The newline and the NUL byte. *)
Definition newline : ascii := "010"%char.
Definition NUL : ascii := "000"%char.

(** A line as the terminal delivers it: the text and its newline. *)
Definition line (s : string) : string := s ++ String newline "".

(** Three lines typed at the amount prompt: two that are no amounts and
    "12.50". *)
Definition amount_input : string := line "abc" ++ line "" ++ line "12.50".

(** ** The account menu *)

(** The account that an operation of the account menu is started on. *)
Definition op_account (o : op) : option nat :=
  match o with
  | Op_sign_up _ _ _ => None
  | Op_deposit i _ | Op_withdraw i _ | Op_credit_limit i _ => Some i
  | Op_transfer i _ _ => Some i
  | Op_set_pix i _ => Some i
  | Op_password i _ _ => Some i
  end.

(** The record that a successful operation of the account menu leaves in
    the log of the account it was started on: its kind and its amount.  A
    transfer to the own alias is a credit advance. *)
Definition op_record (st : State) (o : op) : tx_type_t * Z :=
  match o with
  | Op_deposit _ amount => (TX_DEPOSIT, amount)
  | Op_withdraw _ amount => (TX_WITHDRAW, amount)
  | Op_transfer i amount pix =>
      if (pix =? from_option pix_key "" (accounts st !! i))%string
      then (TX_CREDIT_ADV, amount) else (TX_TRANSFER_OUT, amount)
  | _ => (TX_MISC, 0)
  end.

(** What one user cannot change of the account of another: everything
    but the balance and the log. *)
Definition same_settings (a a' : Account) : Prop :=
  username a' = username a /\ password a' = password a /\
  agency a' = agency a /\ pix_key a' = pix_key a /\
  credit_limit a' = credit_limit a /\ credit_used a' = credit_used a /\
  used a' = used a.

(** The text of a non-negative amount: whole part, '.', two digits. *)
Definition amount_text (amount : Z) : string :=
  fmt_d (amount / 100) ++ "." ++ two_digits (amount mod 100).

(** A session at the terminal: user1 logs in, deposits 10.00, logs out,
    and the program is left. *)
Definition console_input : string :=
  line "2" ++ line "user1" ++ line "pass" ++ line "" ++
  line "1" ++ line "10.00" ++ line "" ++ line "9" ++ line "" ++
  line "3" ++ line "".

(** What user1 types in the account menu: a deposit of 10.00, a transfer
    of 5.00 to the alias of user2, and the logout. *)
Definition menu_input : string :=
  line "1" ++ line "10.00" ++ line "" ++
  line "3" ++ line "user2pix" ++ line "5.00" ++ line "" ++ line "9".

(** * Proofs *)

(** ** Cyclic indexing *)

Section Cyclic.
Variable n : nat.
Hypothesis n_pos : (0 < n)%nat.

Lemma cyc_lt i k : (cyc n i k < n)%nat.
Proof. unfold cyc. apply Nat.mod_upper_bound. lia. Qed.

Lemma cyc_0 i : (i < n)%nat -> cyc n i 0 = i.
Proof. intros H. unfold cyc. rewrite Nat.add_0_r. by apply Nat.mod_small. Qed.

Lemma cyc_cyc i a b : cyc n (cyc n i a) b = cyc n i (a + b).
Proof.
  clear n_pos. unfold cyc. rewrite Nat.Div0.add_mod_idemp_l. f_equal. lia.
Qed.

Lemma cyc_n i : (i < n)%nat -> cyc n i n = i.
Proof.
    intros H. unfold cyc.
    replace (i + n)%nat with (i + 1 * n)%nat by lia.
    rewrite Nat.Div0.mod_add. by apply Nat.mod_small.
Qed.

Lemma cyc_inj_le i a b :
    (a <= b)%nat -> (b - a < n)%nat -> cyc n i a = cyc n i b -> a = b.
Proof.
    unfold cyc. intros Hle Hd Heq.
    pose proof (Nat.div_mod_eq (i + a) n) as Ea.
    pose proof (Nat.div_mod_eq (i + b) n) as Eb.
    rewrite Heq in Ea.
    set (qa := ((i + a) / n)%nat) in *. set (qb := ((i + b) / n)%nat) in *.
    assert (qa = qb \/ qa < qb \/ qb < qa)%nat as [E|[E|E]] by lia.
    - rewrite E in Ea. lia.
    - assert (n * S qa <= n * qb)%nat by (apply Nat.mul_le_mono_l; lia). nia.
    - assert (n * S qb <= n * qa)%nat by (apply Nat.mul_le_mono_l; lia). nia.
Qed.

Lemma cyc_inj i a b :
    (a < n)%nat -> (b < n)%nat -> cyc n i a = cyc n i b -> a = b.
Proof.
    intros Ha Hb Heq. destruct (Nat.le_ge_cases a b).
    - apply (cyc_inj_le i); [done | lia | done].
    - symmetry. apply (cyc_inj_le i); [done | lia | done].
Qed.

(** Every slot lies at one offset below [n] from any start. *)
Lemma cyc_dist i p :
    (i < n)%nat -> (p < n)%nat -> exists d, (d < n)%nat /\ p = cyc n i d.
Proof.
    intros Hi Hp. destruct (Nat.le_gt_cases i p).
    - exists (p - i)%nat. split; [lia|]. unfold cyc.
      replace (i + (p - i))%nat with p by lia. symmetry. by apply Nat.mod_small.
    - exists (n - i + p)%nat. split; [lia|]. unfold cyc.
      replace (i + (n - i + p))%nat with (p + 1 * n)%nat by lia.
      rewrite Nat.Div0.mod_add. symmetry. by apply Nat.mod_small.
Qed.
End Cyclic.

(** ** Arrays *)

Lemma nth_insert_eq {A} (l : list A) i x d :
  (i < length l)%nat -> nth i (<[i := x]> l) d = x.
Proof. intros H. by rewrite nth_lookup, list_lookup_insert_eq. Qed.

Lemma nth_insert_ne {A} (l : list A) i j x d :
  i <> j -> nth j (<[i := x]> l) d = nth j l d.
Proof. intros H. by rewrite !nth_lookup, list_lookup_insert_ne. Qed.

(** ** The transaction ring *)

Lemma lastn_all {A} n (l : list A) : (length l <= n)%nat -> lastn n l = l.
Proof. intros H. unfold lastn. by replace (length l - n)%nat with 0%nat by lia. Qed.

Lemma lastn_app {A} n (l1 l2 : list A) :
  lastn n (lastn n l1 ++ l2)%list = lastn n (l1 ++ l2)%list.
Proof.
  unfold lastn. rewrite !length_app, length_drop, !drop_app, drop_drop, length_drop.
  f_equal; f_equal; lia.
Qed.

Lemma TX_LOG_SIZE_pos : (0 < TX_LOG_SIZE)%nat.
Proof. unfold TX_LOG_SIZE. lia. Qed.

Lemma txlog_empty_wf : txlog_wf txlog_empty.
Proof.
  unfold txlog_wf, txlog_empty. cbn [entries head count].
  rewrite length_replicate. pose proof TX_LOG_SIZE_pos. lia.
Qed.

Lemma txlog_push_wf log ty am note :
  txlog_wf log -> txlog_wf (txlog_push log ty am note).
Proof.
  intros (Hl & Hh & Hc). unfold txlog_push, txlog_wf.
  destruct (Nat.ltb_spec (count log) TX_LOG_SIZE); cbn [entries head count];
    rewrite length_insert; repeat split; try lia.
  apply Nat.mod_upper_bound. lia.
Qed.

(** One push appends the record, and evicts the oldest one when the ring
    is full. *)
Lemma txlog_push_records log ty am note :
  txlog_wf log ->
  txlog_records (txlog_push log ty am note) =
  lastn TX_LOG_SIZE (txlog_records log ++ [tx_stored ty am note])%list.
Proof.
  intros (Hl & Hh & Hc). pose proof TX_LOG_SIZE_pos as Hpos.
  assert (Hlen : length (txlog_records log) = count log).
  { unfold txlog_records. by rewrite length_map, length_seq. }
  unfold txlog_push.
  destruct (Nat.ltb_spec (count log) TX_LOG_SIZE) as [Hlt|Hge].
  - rewrite lastn_all by (rewrite length_app, Hlen; cbn [length]; lia).
    unfold txlog_records. cbn [entries head count].
    rewrite seq_S, map_app. cbn [map Nat.add]. f_equal.
    + apply map_ext_in. intros i Hi. apply in_seq in Hi.
      apply nth_insert_ne. fold (cyc TX_LOG_SIZE (head log) (count log)).
      fold (cyc TX_LOG_SIZE (head log) i). intros E.
      apply cyc_inj in E; lia.
    + f_equal. apply nth_insert_eq. rewrite Hl. apply Nat.mod_upper_bound. lia.
  - assert (Hfull : count log = TX_LOG_SIZE) by lia.
    unfold lastn. rewrite length_app, Hlen, Hfull. cbn [length].
    replace (TX_LOG_SIZE + 1 - TX_LOG_SIZE)%nat with 1%nat by lia.
    rewrite drop_app_le by lia.
    destruct TX_LOG_SIZE as [|m] eqn:Em; [lia|].
    unfold txlog_records at 1. cbn [entries head count]. rewrite ?Hfull, ?Em.
    rewrite seq_S, map_app. cbn [map Nat.add]. f_equal.
    + unfold txlog_records. rewrite Hfull, ?Em. cbn [seq map drop].
      rewrite <- seq_shift, map_map. apply map_ext_in. intros i Hi.
      apply in_seq in Hi. rewrite Nat.Div0.add_mod_idemp_l.
      replace (head log + 1 + i)%nat with (head log + S i)%nat by lia.
      apply nth_insert_ne. intros E.
      assert (E' : cyc (S m) (head log) 0 = cyc (S m) (head log) (S i)).
      { rewrite cyc_0 by lia. exact E. }
      apply cyc_inj in E'; lia.
    + f_equal. rewrite Nat.Div0.add_mod_idemp_l.
      replace (head log + 1 + m)%nat with (head log + S m)%nat by lia.
      fold (cyc (S m) (head log) (S m)). rewrite cyc_n by lia.
      apply nth_insert_eq. lia.
Qed.

Lemma txlog_push_all_wf l : forall log,
  txlog_wf log -> txlog_wf (txlog_push_all log l).
Proof.
  induction l as [|[[ty am] note] l IH]; intros log Hwf; [done|].
  apply IH. by apply txlog_push_wf.
Qed.

Lemma txlog_push_all_records l : forall log,
  txlog_wf log ->
  txlog_records (txlog_push_all log l) =
  lastn TX_LOG_SIZE (txlog_records log ++ map tx_stored_of l)%list.
Proof.
  induction l as [|[[ty am] note] l IH]; intros log Hwf.
  - simpl. rewrite app_nil_r. symmetry. apply lastn_all.
    unfold txlog_records. rewrite length_map, length_seq. apply Hwf.
  - simpl. fold (txlog_push_all (txlog_push log ty am note) l).
    rewrite IH by (by apply txlog_push_wf).
    rewrite txlog_push_records by done.
    rewrite lastn_app. by rewrite <- app_assoc.
Qed.

Lemma tx_stored_of_pushed l : map tx_stored_of l = map pushed_record l.
Proof. apply map_ext. by intros [[ty am] note]. Qed.

Lemma pushed_record_fits l :
  Forall (fun r => (String.length r.2 < TX_NOTE_LEN)%nat) l ->
  map pushed_record l = map record_as_pushed l.
Proof.
  induction 1 as [|[[ty am] note] l Hr _ IH]; [done|].
  cbn [map pushed_record record_as_pushed snd] in *. rewrite IH. do 2 f_equal.
  clear -Hr. unfold TX_NOTE_LEN in Hr.
  assert (Hn : forall n s, (String.length s <= n)%nat -> substring 0 n s = s).
  { intros n s. revert n. induction s as [|c s IHs]; intros [|n] H;
      cbn [substring String.length] in *; try done; [lia|].
    rewrite IHs; [done|lia]. }
  apply Hn. lia.
Qed.

(** C2. After any sequence of [k] pushes into the ring of a new account,
    the records visited by [print_txlog] are the last [min k TX_LOG_SIZE]
    records pushed, oldest first: all of them while [k <= TX_LOG_SIZE], and
    the last [TX_LOG_SIZE] of them once the ring overwrites.  Each record
    visited has the kind, the amount and the note of its push, the note
    cut to the 39 bytes a record holds; when every note fits, the records
    visited are the triples pushed, unchanged.  A push is a total
    function, it has no failure case. *)
Theorem txlog_keeps_last_pushes (l : list (tx_type_t * Z * string)) :
  let log := txlog_push_all txlog_empty l in
  txlog_records log = drop (length l - TX_LOG_SIZE) (map pushed_record l) /\
  length (txlog_records log) = Nat.min (length l) TX_LOG_SIZE /\
  ((length l <= TX_LOG_SIZE)%nat -> txlog_records log = map pushed_record l) /\
  (Forall (fun r => (String.length r.2 < TX_NOTE_LEN)%nat) l ->
   txlog_records log = drop (length l - TX_LOG_SIZE) (map record_as_pushed l)).
Proof.
  intros log. subst log.
  assert (E : txlog_records (txlog_push_all txlog_empty l) =
              drop (length l - TX_LOG_SIZE) (map pushed_record l)).
  { rewrite txlog_push_all_records by apply txlog_empty_wf.
    unfold lastn. simpl. by rewrite length_map, tx_stored_of_pushed. }
  split; [exact E|]. split; [|split].
  - rewrite E, length_drop, length_map. lia.
  - intros H. rewrite E. by replace (length l - TX_LOG_SIZE)%nat with 0%nat by lia.
  - intros H. by rewrite E, pushed_record_fits.
Qed.

(** Three hundred pushes into the ring of 256 slots. *)
Lemma txlog_keeps_last_pushes_witness :
  let log := txlog_push_all txlog_empty many_pushes in
  txlog_records log =
    drop (length many_pushes - TX_LOG_SIZE) (map pushed_record many_pushes) /\
  length (txlog_records log) = Nat.min (length many_pushes) TX_LOG_SIZE /\
  ((length many_pushes <= TX_LOG_SIZE)%nat ->
   txlog_records log = map pushed_record many_pushes) /\
  (Forall (fun r => (String.length r.2 < TX_NOTE_LEN)%nat) many_pushes ->
   txlog_records log =
     drop (length many_pushes - TX_LOG_SIZE) (map record_as_pushed many_pushes)).
Proof. apply (txlog_keeps_last_pushes many_pushes). Defined.

(** The same run evaluated: 256 records are kept, the oldest is the 45th
    push and the newest the 300th, each with its kind, amount and note. *)
Example ring_scenario :
  let log := txlog_push_all txlog_empty many_pushes in
  (count log, head log, length (txlog_records log),
   txlog_records log !! 0%nat, last (txlog_records log)) =
  (256%nat, 44%nat, 256%nat,
   Some (mk_tx TX_DEPOSIT 45 "Deposited"),
   Some (mk_tx TX_DEPOSIT 300 "Deposited")).
Proof. vm_compute. reflexivity. Qed.

(** ** The PIX index: probing *)

Lemma PIX_TABLE_SIZE_pos : (0 < PIX_TABLE_SIZE)%nat.
Proof. unfold PIX_TABLE_SIZE. lia. Qed.

Lemma land_mask (z : Z) :
  0 <= z -> Z.to_nat (Z.land z (Z.of_nat PIX_TABLE_SIZE - 1))
            = (Z.to_nat z mod PIX_TABLE_SIZE)%nat.
Proof.
  intros Hz. change (Z.of_nat PIX_TABLE_SIZE - 1) with (Z.ones 11).
  rewrite Z.land_ones by lia.
  change (2 ^ 11) with (Z.of_nat PIX_TABLE_SIZE).
  rewrite <- (Z2Nat.id z) at 1 by lia.
  rewrite <- Nat2Z.inj_mod. apply Nat2Z.id.
Qed.

Lemma pix_next_cyc idx : pix_next idx = cyc PIX_TABLE_SIZE idx 1.
Proof.
  unfold pix_next, cyc. rewrite land_mask by lia. f_equal. lia.
Qed.

Lemma pix_home_lt key : (pix_home key < PIX_TABLE_SIZE)%nat.
Proof.
  unfold pix_home. rewrite land_mask.
  - apply Nat.mod_upper_bound. pose proof PIX_TABLE_SIZE_pos. lia.
  - apply Z.mod_pos_bound. lia.
Qed.

Lemma pix_slot_insert tbl i v p :
  (i < length tbl)%nat ->
  pix_slot (<[i := v]> tbl) p = if decide (p = i) then v else pix_slot tbl p.
Proof.
  intros Hi. unfold pix_slot. destruct (decide (p = i)) as [->|Hne].
  - by apply nth_insert_eq.
  - by apply nth_insert_ne.
Qed.

Lemma pix_hit_live accs ai key :
  pix_hit accs ai key = true <-> pix_live accs ai = Some key.
Proof.
  unfold pix_hit, pix_live.
  destruct ((0 <=? ai) && (ai <? Z.of_nat (length accs))); simpl; [|done].
  destruct (accs !! Z.to_nat ai) as [a|]; [|done].
  destruct (used a); simpl; [|done].
  destruct (pix_key a =? "")%string; simpl; [done|].
  rewrite String.eqb_eq. split; congruence.
Qed.

Lemma pix_same_hit accs ai key :
  key <> "" -> pix_same accs ai key = pix_hit accs ai key.
Proof.
  intros Hk. unfold pix_same, pix_hit. f_equal.
  destruct (accs !! Z.to_nat ai) as [a|]; [|done].
  destruct (used a); simpl; [|done].
  destruct (String.eqb_spec (pix_key a) ""); simpl; [|done].
  apply String.eqb_neq. congruence.
Qed.

Lemma pix_live_nonempty accs ai key : pix_live accs ai = Some key -> key <> "".
Proof.
  unfold pix_live.
  destruct ((0 <=? ai) && (ai <? Z.of_nat (length accs))); [|done].
  destruct (accs !! Z.to_nat ai) as [a|]; [|done].
  destruct (used a); simpl; [|done].
  destruct (String.eqb_spec (pix_key a) ""); simpl; [done|]. congruence.
Qed.

Lemma entry_key_hit accs tbl p key :
  pix_slot tbl p <> 0 ->
  pix_hit accs (pix_slot tbl p - 1) key = true <-> entry_key accs tbl p = Some key.
Proof.
  intros Hv. unfold entry_key. destruct (Z.eqb_spec (pix_slot tbl p) 0); [done|].
  apply pix_hit_live.
Qed.

Lemma entry_key_occupied accs tbl p key :
  entry_key accs tbl p = Some key -> pix_slot tbl p <> 0.
Proof. unfold entry_key. by destruct (Z.eqb_spec (pix_slot tbl p) 0). Qed.

Lemma entry_key_nonempty accs tbl p key : entry_key accs tbl p = Some key -> key <> "".
Proof.
  unfold entry_key. destruct (pix_slot tbl p =? 0); [done|]. apply pix_live_nonempty.
Qed.

Lemma probe_stops_shift accs tbl key start d :
  probe_stops accs tbl key start (S d) ->
  probe_stops accs tbl key (cyc PIX_TABLE_SIZE start 1) d.
Proof.
  intros [Hb Hs]. split.
  - intros d' Hd'. rewrite cyc_cyc. apply Hb. lia.
  - rewrite cyc_cyc. done.
Qed.

Lemma probe_stops_head accs tbl key start d :
  (start < PIX_TABLE_SIZE)%nat ->
  probe_stops accs tbl key start (S d) ->
  pix_slot tbl start <> 0 /\ pix_hit accs (pix_slot tbl start - 1) key = false.
Proof.
  intros Hs [Hb _]. destruct (Hb 0%nat) as [Hk Hv]; [lia|].
  rewrite cyc_0 in Hk, Hv by done. split; [done|].
  apply not_true_is_false. by rewrite entry_key_hit.
Qed.

(** What the three probing loops do once the stopping offset is known. *)
Lemma pix_find_loop_stops accs tbl key d : forall fuel start,
  (start < PIX_TABLE_SIZE)%nat -> (d < fuel)%nat ->
  probe_stops accs tbl key start d ->
  pix_find_loop fuel accs tbl key start =
  Some (pix_slot tbl (cyc PIX_TABLE_SIZE start d) - 1).
Proof.
  pose proof PIX_TABLE_SIZE_pos as Hpos.
  induction d as [|d IH]; intros fuel start Hs Hf Hst;
    (destruct fuel as [|fuel]; [lia|]); cbn [pix_find_loop].
  - destruct Hst as [_ Hst]. rewrite cyc_0 in * by done.
    destruct Hst as [Hz|Hk].
    + by rewrite Hz.
    + pose proof (entry_key_occupied _ _ _ _ Hk) as Hv.
      destruct (Z.eqb_spec (pix_slot tbl start) 0); [done|].
      apply entry_key_hit in Hk; [|done]. by rewrite Hk.
  - destruct (probe_stops_head _ _ _ _ _ Hs Hst) as [Hv Hh].
    destruct (Z.eqb_spec (pix_slot tbl start) 0); [done|]. rewrite Hh.
    rewrite pix_next_cyc, IH; [|by apply cyc_lt|lia|by apply probe_stops_shift].
    by rewrite cyc_cyc.
Qed.

Lemma pix_insert_loop_stops accs tbl key ai d : forall fuel start,
  key <> "" ->
  (start < PIX_TABLE_SIZE)%nat -> (d < fuel)%nat ->
  probe_stops accs tbl key start d ->
  pix_insert_loop fuel accs tbl key ai start =
  Some (<[cyc PIX_TABLE_SIZE start d := ai + 1]> tbl).
Proof.
  pose proof PIX_TABLE_SIZE_pos as Hpos.
  induction d as [|d IH]; intros fuel start Hne Hs Hf Hst;
    (destruct fuel as [|fuel]; [lia|]); cbn [pix_insert_loop].
  - destruct Hst as [_ Hst]. rewrite cyc_0 in * by done.
    destruct Hst as [Hz|Hk].
    + by rewrite Hz.
    + pose proof (entry_key_occupied _ _ _ _ Hk) as Hv.
      destruct (Z.eqb_spec (pix_slot tbl start) 0); [done|].
      apply entry_key_hit in Hk; [|done]. by rewrite pix_same_hit, Hk.
  - destruct (probe_stops_head _ _ _ _ _ Hs Hst) as [Hv Hh].
    destruct (Z.eqb_spec (pix_slot tbl start) 0); [done|].
    rewrite pix_same_hit, Hh by done.
    rewrite pix_next_cyc, IH; [|done|by apply cyc_lt|lia|by apply probe_stops_shift].
    by rewrite cyc_cyc.
Qed.

Lemma pix_remove_loop_stops accs tbl key d : forall fuel start,
  (start < PIX_TABLE_SIZE)%nat -> (d < fuel)%nat ->
  probe_stops accs tbl key start d ->
  pix_remove_loop fuel accs tbl key start =
  let idx := cyc PIX_TABLE_SIZE start d in
  if pix_slot tbl idx =? 0 then Some tbl
  else pix_rehash_loop PIX_TABLE_SIZE accs (<[idx := 0]> tbl) (pix_next idx).
Proof.
  pose proof PIX_TABLE_SIZE_pos as Hpos.
  induction d as [|d IH]; intros fuel start Hs Hf Hst;
    (destruct fuel as [|fuel]; [lia|]); cbn [pix_remove_loop].
  - destruct Hst as [_ Hst]. cbv zeta. rewrite cyc_0 in * by done.
    destruct Hst as [Hz|Hk].
    + by rewrite Hz.
    + pose proof (entry_key_occupied _ _ _ _ Hk) as Hv.
      destruct (Z.eqb_spec (pix_slot tbl start) 0); [done|].
      apply entry_key_hit in Hk; [|done]. by rewrite Hk.
  - destruct (probe_stops_head _ _ _ _ _ Hs Hst) as [Hv Hh].
    destruct (Z.eqb_spec (pix_slot tbl start) 0); [done|]. rewrite Hh.
    rewrite pix_next_cyc, IH; [|by apply cyc_lt|lia|by apply probe_stops_shift].
    cbv zeta. by rewrite cyc_cyc.
Qed.

Lemma probe_stops_exists accs tbl key start d :
  pix_slot tbl (cyc PIX_TABLE_SIZE start d) = 0 \/
  entry_key accs tbl (cyc PIX_TABLE_SIZE start d) = Some key ->
  exists d0, (d0 <= d)%nat /\ probe_stops accs tbl key start d0.
Proof.
  intros Hstop.
  assert (Hscan : forall n,
    (exists d0, (d0 < n)%nat /\ probe_stops accs tbl key start d0) \/
    (forall d', (d' < n)%nat ->
       entry_key accs tbl (cyc PIX_TABLE_SIZE start d') <> Some key /\
       pix_slot tbl (cyc PIX_TABLE_SIZE start d') <> 0)).
  { induction n as [|n [(d0 & Hd0 & Hp)|Hall]].
    - right. intros d' Hd'. lia.
    - left. exists d0. split; [lia|done].
    - destruct (Z.eq_dec (pix_slot tbl (cyc PIX_TABLE_SIZE start n)) 0) as [Hz|Hnz].
      { left. exists n. split; [lia|]. split; [done|by left]. }
      destruct (decide (entry_key accs tbl (cyc PIX_TABLE_SIZE start n) = Some key))
        as [Hk|Hnk].
      { left. exists n. split; [lia|]. split; [done|by right]. }
      right. intros d' Hd'. destruct (decide (d' = n)) as [->|Hne]; [done|].
      apply Hall. lia. }
  destruct (Hscan d) as [(d0 & Hd0 & Hp)|Hall].
  - exists d0. split; [lia|done].
  - exists d. split; [lia|]. split; done.
Qed.

Lemma pix_find_loop_sound accs tbl key fuel : forall start r,
  (start < PIX_TABLE_SIZE)%nat ->
  pix_find_loop fuel accs tbl key start = Some r ->
  r = -1 \/
  exists p, (p < PIX_TABLE_SIZE)%nat /\ pix_slot tbl p = r + 1 /\
            entry_key accs tbl p = Some key.
Proof.
  pose proof PIX_TABLE_SIZE_pos as Hpos.
  induction fuel as [|fuel IH]; intros start r Hs; cbn [pix_find_loop]; [done|].
  destruct (Z.eqb_spec (pix_slot tbl start) 0) as [Hz|Hnz].
  - intros [= <-]. by left.
  - destruct (pix_hit accs (pix_slot tbl start - 1) key) eqn:Hh.
    + intros [= <-]. right. exists start. split; [done|]. split; [lia|].
      by apply entry_key_hit.
    + rewrite pix_next_cyc. apply IH. by apply cyc_lt.
Qed.

Lemma pix_live_range accs ai key :
  pix_live accs ai = Some key -> 0 <= ai < Z.of_nat (length accs).
Proof.
  unfold pix_live.
  destruct (Z.leb_spec 0 ai); simpl; [|done].
  destruct (Z.ltb_spec ai (Z.of_nat (length accs))); [|done]. lia.
Qed.

Lemma pix_find_sound accs tbl key r :
  pix_find accs tbl key = Some r -> 0 <= r ->
  exists p, (p < PIX_TABLE_SIZE)%nat /\ pix_slot tbl p = r + 1 /\
            entry_key accs tbl p = Some key.
Proof.
  unfold pix_find. destruct (key =? "")%string.
  - intros [= <-]. lia.
  - intros Hf Hr. apply pix_find_loop_sound in Hf; [|apply pix_home_lt].
    destruct Hf as [->|Hf]; [lia|done].
Qed.

(** On a well-formed index, the probe for the key of an entry stops at that
    entry. *)
Lemma wf_probe_stops accs tbl p key :
  pix_wf accs tbl -> (p < PIX_TABLE_SIZE)%nat ->
  entry_key accs tbl p = Some key ->
  exists d, (d < PIX_TABLE_SIZE)%nat /\ p = cyc PIX_TABLE_SIZE (pix_home key) d /\
            probe_stops accs tbl key (pix_home key) d.
Proof.
  intros Hwf Hp Hk. pose proof PIX_TABLE_SIZE_pos as Hpos.
  destruct (wf_reach _ _ Hwf p key Hp Hk) as (d & Hd & Hpd & Hocc).
  exists d. split; [done|]. split; [done|]. split.
  - intros d' Hd'. split; [|by apply Hocc].
    intros Hk'. assert (cyc PIX_TABLE_SIZE (pix_home key) d' = p) as E.
    { apply (wf_distinct _ _ Hwf _ _ key); [by apply cyc_lt|done|done|done]. }
    rewrite Hpd in E. apply cyc_inj in E; lia.
  - right. by rewrite <- Hpd.
Qed.

Lemma wf_find_present accs tbl p key :
  pix_wf accs tbl -> (p < PIX_TABLE_SIZE)%nat ->
  entry_key accs tbl p = Some key ->
  pix_find accs tbl key = Some (pix_slot tbl p - 1).
Proof.
  intros Hwf Hp Hk.
  destruct (wf_probe_stops _ _ _ _ Hwf Hp Hk) as (d & Hd & -> & Hst).
  unfold pix_find.
  destruct (String.eqb_spec key ""); [by apply entry_key_nonempty in Hk|].
  apply pix_find_loop_stops; [apply pix_home_lt|done|done].
Qed.

Lemma find_absent accs tbl key :
  has_empty tbl ->
  (forall p, (p < PIX_TABLE_SIZE)%nat -> entry_key accs tbl p <> Some key) ->
  pix_find accs tbl key = Some (-1).
Proof.
  intros (e & He & Hz) Hno. pose proof PIX_TABLE_SIZE_pos as Hpos.
  unfold pix_find. destruct (key =? "")%string; [done|].
  destruct (cyc_dist _ Hpos (pix_home key) e (pix_home_lt key) He) as (d & Hd & ->).
  destruct (probe_stops_exists accs tbl key (pix_home key) d) as (d0 & Hd0 & Hst);
    [by left|].
  rewrite (pix_find_loop_stops _ _ _ d0); [|apply pix_home_lt|lia|done].
  destruct Hst as [_ [Hz0|Hk]].
  - by rewrite Hz0.
  - exfalso. eapply Hno; [|exact Hk]. by apply cyc_lt.
Qed.

(** ** An index of at most [MAX_ACCOUNTS] entries has an empty slot *)

Lemma pix_slot_lookup tbl p x : tbl !! p = Some x -> pix_slot tbl p = x.
Proof. intros H. unfold pix_slot. by rewrite nth_lookup, H. Qed.

Lemma entry_key_same_value accs tbl tbl' p q :
  pix_slot tbl p = pix_slot tbl' q -> entry_key accs tbl p = entry_key accs tbl' q.
Proof. intros E. unfold entry_key. by rewrite E. Qed.

Lemma wf_has_empty accs tbl :
  pix_wf accs tbl -> (length accs <= MAX_ACCOUNTS)%nat -> has_empty tbl.
Proof.
  intros Hwf Hn. destruct (decide (0 ∈ tbl)) as [Hin|Hnin].
  - apply list_elem_of_lookup in Hin as [p Hp]. exists p. split.
    + apply lookup_lt_Some in Hp. by rewrite (wf_length _ _ Hwf) in Hp.
    + by apply pix_slot_lookup.
  - exfalso.
    assert (Hnz : forall p x, tbl !! p = Some x -> x <> 0).
    { intros p x Hp ->. apply Hnin. apply list_elem_of_lookup. eauto. }
    assert (Hlt : forall p x, tbl !! p = Some x -> (p < PIX_TABLE_SIZE)%nat).
    { intros p x Hp. apply lookup_lt_Some in Hp. by rewrite (wf_length _ _ Hwf) in Hp. }
    assert (Hnd : NoDup tbl).
    { apply NoDup_alt. intros i j x Hi Hj.
      pose proof (pix_slot_lookup _ _ _ Hi) as Si.
      pose proof (pix_slot_lookup _ _ _ Hj) as Sj.
      destruct (wf_live _ _ Hwf i) as [k Hk]; [by eapply Hlt|rewrite Si; by eapply Hnz|].
      apply (wf_distinct _ _ Hwf i j k); [by eapply Hlt|by eapply Hlt|done|].
      rewrite <- Hk. apply entry_key_same_value. congruence. }
    assert (Hsub : forall x, x ∈ tbl ->
              x ∈ map (fun i => Z.of_nat i + 1) (seq 0 (length accs))).
    { intros x Hx. apply list_elem_of_lookup in Hx as [p Hp].
      pose proof (pix_slot_lookup _ _ _ Hp) as Sp.
      destruct (wf_live _ _ Hwf p) as [k Hk]; [by eapply Hlt|rewrite Sp; by eapply Hnz|].
      unfold entry_key in Hk. rewrite Sp in Hk.
      destruct (x =? 0); [done|]. apply pix_live_range in Hk.
      apply list_elem_of_In, in_map_iff. exists (Z.to_nat (x - 1)). split; [lia|].
      apply in_seq. lia. }
    pose proof (submseteq_length _ _ (NoDup_submseteq _ _ Hnd Hsub)) as Hle.
    rewrite length_map, length_seq, (wf_length _ _ Hwf) in Hle.
    unfold MAX_ACCOUNTS, PIX_TABLE_SIZE in *. lia.
Qed.

(** ** Inserting a key that is not indexed *)

Lemma pix_insert_fresh accs tbl key ai e :
  key <> "" -> length tbl = PIX_TABLE_SIZE ->
  (forall p, (p < PIX_TABLE_SIZE)%nat -> entry_key accs tbl p <> Some key) ->
  (e < PIX_TABLE_SIZE)%nat -> pix_slot tbl e = 0 ->
  exists d0 de,
    (d0 <= de < PIX_TABLE_SIZE)%nat /\
    e = cyc PIX_TABLE_SIZE (pix_home key) de /\
    pix_insert accs tbl key ai =
      Some (<[cyc PIX_TABLE_SIZE (pix_home key) d0 := ai + 1]> tbl) /\
    pix_slot tbl (cyc PIX_TABLE_SIZE (pix_home key) d0) = 0 /\
    forall d', (d' < d0)%nat ->
      pix_slot tbl (cyc PIX_TABLE_SIZE (pix_home key) d') <> 0.
Proof.
  intros Hne Hlen Hno He Hz. pose proof PIX_TABLE_SIZE_pos as Hpos.
  destruct (cyc_dist _ Hpos (pix_home key) e (pix_home_lt key) He) as (de & Hde & ->).
  destruct (probe_stops_exists accs tbl key (pix_home key) de) as (d0 & Hd0 & Hst);
    [by left|].
  exists d0, de. split; [lia|]. split; [done|].
  unfold pix_insert. destruct (String.eqb_spec key ""); [done|].
  rewrite (pix_insert_loop_stops _ _ _ _ d0); [|done|apply pix_home_lt|lia|done].
  split; [done|]. destruct Hst as [Hb [Hz0|Hk]].
  - split; [done|]. intros d' Hd'. by apply Hb.
  - exfalso. eapply Hno; [|exact Hk]. by apply cyc_lt.
Qed.

Lemma first_empty_offset tbl start d :
  pix_slot tbl (cyc PIX_TABLE_SIZE start d) = 0 ->
  exists k, (k <= d)%nat /\ pix_slot tbl (cyc PIX_TABLE_SIZE start k) = 0 /\
    forall m, (m < k)%nat -> pix_slot tbl (cyc PIX_TABLE_SIZE start m) <> 0.
Proof.
  intros Hz.
  assert (Hscan : forall n,
    (exists k, (k < n)%nat /\ pix_slot tbl (cyc PIX_TABLE_SIZE start k) = 0 /\
       forall m, (m < k)%nat -> pix_slot tbl (cyc PIX_TABLE_SIZE start m) <> 0) \/
    (forall m, (m < n)%nat -> pix_slot tbl (cyc PIX_TABLE_SIZE start m) <> 0)).
  { induction n as [|n [(k & Hk & Hzk & Hb)|Hall]].
    - right. intros m Hm. lia.
    - left. exists k. split; [lia|done].
    - destruct (Z.eq_dec (pix_slot tbl (cyc PIX_TABLE_SIZE start n)) 0) as [Hzn|Hnz].
      + left. exists n. split; [lia|done].
      + right. intros m Hm. destruct (decide (m = n)) as [->|Hne]; [done|].
        apply Hall. lia. }
  destruct (Hscan d) as [(k & Hk & Hzk & Hb)|Hall].
  - exists k. split; [lia|done].
  - exists d. split; [lia|done].
Qed.

Lemma pix_insert_wf accs tbl key ai :
  pix_wf accs tbl -> has_empty tbl -> pix_live accs ai = Some key ->
  (forall p, (p < PIX_TABLE_SIZE)%nat -> entry_key accs tbl p <> Some key) ->
  exists q, (q < PIX_TABLE_SIZE)%nat /\ pix_slot tbl q = 0 /\
    pix_insert accs tbl key ai = Some (<[q := ai + 1]> tbl) /\
    pix_wf accs (<[q := ai + 1]> tbl).
Proof.
  intros Hwf (e & He & Hez) Hlive Hno. pose proof PIX_TABLE_SIZE_pos as Hpos.
  pose proof (wf_length _ _ Hwf) as Hlen.
  pose proof (pix_live_range _ _ _ Hlive) as Hai.
  destruct (pix_insert_fresh accs tbl key ai e)
    as (d0 & de & Hd & Ee & Hins & Hq0 & Hbefore); try done.
  { by eapply pix_live_nonempty. }
  set (q := cyc PIX_TABLE_SIZE (pix_home key) d0) in *.
  assert (Hq : (q < PIX_TABLE_SIZE)%nat) by (by apply cyc_lt).
  exists q. split; [done|]. split; [done|]. split; [done|].
  assert (S2 : forall p, pix_slot (<[q := ai + 1]> tbl) p =
                 if decide (p = q) then ai + 1 else pix_slot tbl p).
  { intros p. apply pix_slot_insert. lia. }
  assert (K2 : forall p key', entry_key accs (<[q := ai + 1]> tbl) p = Some key' ->
            (p = q /\ key' = key) \/ (p <> q /\ entry_key accs tbl p = Some key')).
  { intros p key'. unfold entry_key at 1. rewrite S2. destruct (decide (p = q)).
    - destruct (Z.eqb_spec (ai + 1) 0); [done|].
      replace (ai + 1 - 1) with ai by lia. rewrite Hlive. intros [= <-]. by left.
    - intros H. by right. }
  constructor.
  - by rewrite length_insert.
  - intros p Hp Hnz. unfold entry_key. rewrite S2 in *. destruct (decide (p = q)).
    + destruct (Z.eqb_spec (ai + 1) 0); [done|].
      replace (ai + 1 - 1) with ai by lia. rewrite Hlive. eauto.
    + by apply (wf_live _ _ Hwf p Hp).
  - intros p p' key' Hp Hp' Kp Kp'. apply K2 in Kp. apply K2 in Kp'.
    destruct Kp as [[-> ->]|(Hpq & Kp)]; destruct Kp' as [[-> E']|(Hpq' & Kp')].
    + done.
    + exfalso. by apply (Hno p').
    + exfalso. subst key'. by apply (Hno p).
    + by apply (wf_distinct _ _ Hwf p p' key').
  - intros p key' Hp Kp. apply K2 in Kp. destruct Kp as [[-> ->]|(Hpq & Kp)].
    + exists d0. split; [lia|]. split; [done|]. intros d' Hd'. rewrite S2.
      destruct (decide _); [lia|]. by apply Hbefore.
    + destruct (wf_reach _ _ Hwf p key' Hp Kp) as (d & Hdlt & Epd & Hocc).
      exists d. split; [done|]. split; [done|]. intros d' Hd'. rewrite S2.
      destruct (decide _); [lia|]. by apply Hocc.
Qed.

(** The index reads the accounts only through [pix_live]. *)
Lemma pix_wf_accs accs accs' tbl :
  (forall p, (p < PIX_TABLE_SIZE)%nat -> pix_slot tbl p <> 0 ->
     pix_live accs' (pix_slot tbl p - 1) = pix_live accs (pix_slot tbl p - 1)) ->
  pix_wf accs tbl -> pix_wf accs' tbl.
Proof.
  intros Hext Hwf.
  assert (E : forall p, (p < PIX_TABLE_SIZE)%nat ->
            entry_key accs' tbl p = entry_key accs tbl p).
  { intros p Hp. unfold entry_key. destruct (Z.eqb_spec (pix_slot tbl p) 0); [done|].
    by apply Hext. }
  constructor.
  - apply (wf_length _ _ Hwf).
  - intros p Hp Hnz. rewrite E by done. by apply (wf_live _ _ Hwf).
  - intros p q k Hp Hq. rewrite !E by done. by apply (wf_distinct _ _ Hwf).
  - intros p k Hp. rewrite E by done. by apply (wf_reach _ _ Hwf).
Qed.

(** ** The rehash loop of [pix_remove] *)

Section Rehash.
Variable accs : list Account.
Variable orig : list Z.
Variables idx kstar : nat.
Hypothesis Horig : pix_wf accs orig.
Hypothesis Hidx : (idx < PIX_TABLE_SIZE)%nat.
Hypothesis Hkstar : (1 <= kstar < PIX_TABLE_SIZE)%nat.
Hypothesis Hend : pix_slot orig (cyc PIX_TABLE_SIZE idx kstar) = 0.
Hypothesis Hrun : forall m, (m < kstar)%nat ->
  pix_slot orig (cyc PIX_TABLE_SIZE idx m) <> 0.

(** An entry whose probe path runs through offset [k] of the run lies
    itself in the run, further on. *)
Lemma run_offset tbl h d dj k :
  (k < kstar)%nat -> (dj < d)%nat ->
  cyc PIX_TABLE_SIZE idx k = cyc PIX_TABLE_SIZE h dj ->
  pix_slot tbl (cyc PIX_TABLE_SIZE idx kstar) = 0 ->
  (forall d', (dj < d' <= d)%nat -> pix_slot tbl (cyc PIX_TABLE_SIZE h d') <> 0) ->
  exists m, (S k <= m < kstar)%nat /\
            cyc PIX_TABLE_SIZE h d = cyc PIX_TABLE_SIZE idx m.
Proof.
  intros Hk Hdj Ej Hz Hocc.
  assert (Eoff : forall t, cyc PIX_TABLE_SIZE h (dj + t) = cyc PIX_TABLE_SIZE idx (k + t)).
  { intros t. by rewrite <- !cyc_cyc, Ej. }
  exists (k + (d - dj))%nat. split.
  - split; [lia|]. destruct (Nat.lt_ge_cases (k + (d - dj)) kstar) as [|Hge]; [done|].
    exfalso. apply (Hocc (dj + (kstar - k))%nat); [lia|].
    rewrite Eoff. by replace (k + (kstar - k))%nat with kstar by lia.
  - rewrite <- Eoff. f_equal. lia.
Qed.

Lemma cyc_idx_ne m :
  (1 <= m < PIX_TABLE_SIZE)%nat -> cyc PIX_TABLE_SIZE idx m <> idx.
Proof.
  intros Hm E. pose proof PIX_TABLE_SIZE_pos as Hpos.
  assert (E' : cyc PIX_TABLE_SIZE idx m = cyc PIX_TABLE_SIZE idx 0)
    by (by rewrite cyc_0).
  apply cyc_inj in E'; lia.
Qed.

Lemma rehash_inv_init :
  rehash_inv accs orig idx kstar (<[idx := 0]> orig) 1.
Proof.
  pose proof PIX_TABLE_SIZE_pos as Hpos.
  pose proof (wf_length _ _ Horig) as Hlen.
  assert (S0 : forall p, pix_slot (<[idx := 0]> orig) p =
                 if decide (p = idx) then 0 else pix_slot orig p).
  { intros p. apply pix_slot_insert. lia. }
  assert (K0 : forall p key, entry_key accs (<[idx := 0]> orig) p = Some key ->
                 p <> idx /\ entry_key accs orig p = Some key).
  { intros p key. unfold entry_key. rewrite S0.
    destruct (decide (p = idx)); [done|]. done. }
  constructor.
  - by rewrite length_insert.
  - intros m Hm. rewrite S0. destruct (decide _) as [E|]; [|done].
    by apply cyc_idx_ne in E.
  - intros p Hp Hnz. rewrite S0 in Hnz. unfold entry_key. rewrite S0.
    destruct (decide (p = idx)); [done|].
    by apply (wf_live _ _ Horig).
  - intros p q key Hp Hq Kp Kq. apply K0 in Kp as [_ Kp]. apply K0 in Kq as [_ Kq].
    by apply (wf_distinct _ _ Horig p q key).
  - intros v Hv. split.
    + intros (p & Hp & Sp). rewrite S0 in Sp.
      destruct (decide (p = idx)); [congruence|]. eauto.
    + intros (p & Hp & Hne & Sp). exists p. split; [done|]. rewrite S0.
      by destruct (decide (p = idx)).
  - intros p key Hp Kp. apply K0 in Kp as [Hne Kp].
    destruct (wf_reach _ _ Horig p key Hp Kp) as (d & Hd & Hpd & Hocc).
    destruct (cyc_dist _ Hpos (pix_home key) idx (pix_home_lt key) Hidx)
      as (di & Hdi & Ei).
    destruct (Nat.lt_ge_cases di d) as [Hlt|Hge].
    + right. destruct (run_offset orig (pix_home key) d di 0) as (m & Hm & Em).
      * lia.
      * done.
      * by rewrite cyc_0.
      * done.
      * intros d' Hd'. destruct (decide (d' = d)) as [->|].
        -- rewrite <- Hpd. by eapply entry_key_occupied.
        -- apply Hocc. lia.
      * exists m. split; [lia|]. by rewrite Hpd.
    + left. exists d. split; [done|]. split; [done|].
      intros d' Hd'. rewrite S0. destruct (decide _) as [E|]; [|by apply Hocc].
      rewrite Ei in E. apply cyc_inj in E; lia.
Qed.

Lemma rehash_inv_step tbl k :
  (1 <= k < kstar)%nat -> rehash_inv accs orig idx kstar tbl k ->
  exists key tbl2,
    pix_live accs (pix_slot tbl (cyc PIX_TABLE_SIZE idx k) - 1) = Some key /\
    pix_insert accs (<[cyc PIX_TABLE_SIZE idx k := 0]> tbl) key
               (pix_slot tbl (cyc PIX_TABLE_SIZE idx k) - 1) = Some tbl2 /\
    rehash_inv accs orig idx kstar tbl2 (S k).
Proof.
  intros Hk J. pose proof PIX_TABLE_SIZE_pos as Hpos.
  pose proof (ri_length _ _ _ _ _ _ J) as Hlen.
  set (j := cyc PIX_TABLE_SIZE idx k).
  assert (Hj : (j < PIX_TABLE_SIZE)%nat) by (by apply cyc_lt).
  set (v := pix_slot tbl j).
  assert (Hv : v = pix_slot orig j) by (apply (ri_rest _ _ _ _ _ _ J); lia).
  assert (Hvnz : v <> 0) by (rewrite Hv; apply Hrun; lia).
  destruct (ri_live _ _ _ _ _ _ J j Hj Hvnz) as [key Kj].
  assert (Lj : pix_live accs (v - 1) = Some key).
  { unfold entry_key in Kj. fold v in Kj. by destruct (Z.eqb_spec v 0). }
  set (tbl1 := <[j := 0]> tbl).
  assert (Hlen1 : length tbl1 = PIX_TABLE_SIZE) by (unfold tbl1; by rewrite length_insert).
  assert (S1 : forall p, pix_slot tbl1 p = if decide (p = j) then 0 else pix_slot tbl p).
  { intros p. apply pix_slot_insert. lia. }
  assert (K1 : forall p key', entry_key accs tbl1 p = Some key' ->
                 p <> j /\ entry_key accs tbl p = Some key').
  { intros p key'. unfold entry_key. rewrite S1. by destruct (decide (p = j)). }
  assert (Hno : forall p, (p < PIX_TABLE_SIZE)%nat -> entry_key accs tbl1 p <> Some key).
  { intros p Hp Kp. apply K1 in Kp as [Hne Kp]. apply Hne.
    by apply (ri_distinct _ _ _ _ _ _ J p j key). }
  destruct (pix_insert_fresh accs tbl1 key (v - 1) j)
    as (d0 & de & Hd & Ej & Hins & Hq0 & Hbefore).
  { by eapply pix_live_nonempty. }
  { done. }
  { done. }
  { done. }
  { rewrite S1. by destruct (decide (j = j)). }
  set (q := cyc PIX_TABLE_SIZE (pix_home key) d0) in *.
  replace (v - 1 + 1) with v in Hins by lia.
  set (tbl2 := <[q := v]> tbl1) in *.
  assert (Hq : (q < PIX_TABLE_SIZE)%nat) by (by apply cyc_lt).
  assert (S2 : forall p, pix_slot tbl2 p = if decide (p = q) then v else pix_slot tbl1 p).
  { intros p. apply pix_slot_insert. lia. }
  assert (Hqm : exists mq, (mq <= k)%nat /\ q = cyc PIX_TABLE_SIZE idx mq).
  { destruct (decide (d0 = de)) as [E|Hne].
    - exists k. split; [lia|]. unfold q. by rewrite E, <- Ej.
    - assert (Hqj : q <> j).
      { intros E. unfold q in E. rewrite Ej in E. apply cyc_inj in E; lia. }
      assert (Hq0' : pix_slot tbl q = 0).
      { rewrite S1 in Hq0. by destruct (decide (q = j)). }
      assert (Koj : entry_key accs orig j = Some key).
      { rewrite <- Kj. apply entry_key_same_value. by rewrite <- Hv. }
      destruct (wf_reach _ _ Horig j key Hj Koj) as (d & Hdlt & Ejd & Hocc).
      assert (d = de) as ->.
      { rewrite Ej in Ejd. apply cyc_inj in Ejd; lia. }
      assert (Hoq : pix_slot orig q <> 0) by (apply Hocc; lia).
      destruct (cyc_dist _ Hpos idx q Hidx Hq) as (mq & Hmq & Emq).
      exists mq. split; [|done].
      destruct (Nat.lt_ge_cases mq k) as [|Hge]; [lia|]. exfalso.
      apply Hoq. rewrite <- Hq0', Emq. symmetry.
      apply (ri_rest _ _ _ _ _ _ J). lia. }
  destruct Hqm as (mq & Hmq & Emq).
  exists key, tbl2. split; [done|]. split; [done|].
  assert (K2 : forall p key', entry_key accs tbl2 p = Some key' ->
            (p = q /\ key' = key) \/
            (p <> q /\ p <> j /\ entry_key accs tbl p = Some key')).
  { intros p key'. unfold entry_key at 1. rewrite S2. destruct (decide (p = q)).
    - destruct (Z.eqb_spec v 0); [done|]. rewrite Lj. intros [= <-]. by left.
    - rewrite S1. destruct (decide (p = j)); [done|]. intros H. by right. }
  constructor.
  - unfold tbl2. by rewrite length_insert.
  - intros m Hm. rewrite S2. destruct (decide _) as [E|_].
    { exfalso. rewrite Emq in E. apply cyc_inj in E; lia. }
    rewrite S1. destruct (decide _) as [E|_].
    { exfalso. unfold j in E. apply cyc_inj in E; lia. }
    apply (ri_rest _ _ _ _ _ _ J). lia.
  - intros p Hp Hnz. unfold entry_key. rewrite S2 in *. destruct (decide (p = q)).
    + destruct (Z.eqb_spec v 0); [done|]. rewrite Lj. eauto.
    + rewrite S1 in *. destruct (decide (p = j)); [done|].
      by apply (ri_live _ _ _ _ _ _ J p Hp).
  - intros p p' key' Hp Hp' Kp Kp'. apply K2 in Kp. apply K2 in Kp'.
    destruct Kp as [[-> ->]|(Hpq & Hpj & Kp)];
      destruct Kp' as [[-> E']|(Hpq' & Hpj' & Kp')].
    + done.
    + exfalso. apply Hpj'. by apply (ri_distinct _ _ _ _ _ _ J p' j key).
    + exfalso. subst key'. apply Hpj. by apply (ri_distinct _ _ _ _ _ _ J p j key).
    + by apply (ri_distinct _ _ _ _ _ _ J p p' key').
  - intros w Hw. rewrite <- (ri_values _ _ _ _ _ _ J w Hw). split.
    + intros (p & Hp & Sp). rewrite S2 in Sp. destruct (decide (p = q)).
      * exists j. split; [done|]. by fold v.
      * rewrite S1 in Sp. destruct (decide (p = j)); [congruence|]. eauto.
    + intros (p & Hp & Sp). destruct (decide (p = j)) as [->|Hpj].
      * exists q. split; [done|]. rewrite S2. by destruct (decide (q = q)).
      * exists p. split; [done|]. rewrite S2. destruct (decide (p = q)) as [->|].
        -- exfalso. rewrite S1 in Hq0. destruct (decide (q = j)); congruence.
        -- rewrite S1. by destruct (decide (p = j)).
  - intros p key' Hp Kp. apply K2 in Kp.
    destruct Kp as [[-> ->]|(Hpq & Hpj & Kp)].
    + left. exists d0. split; [lia|]. split; [done|]. intros d' Hd'.
      rewrite S2. destruct (decide _); [done|]. by apply Hbefore.
    + destruct (ri_reach _ _ _ _ _ _ J p key' Hp Kp)
        as [(d & Hdlt & Epd & Hocc)|(m & Hm & Em)].
      * destruct (cyc_dist _ Hpos (pix_home key') j (pix_home_lt key') Hj)
          as (dj & Hdj & Ejj).
        assert (Hkeep : q = j \/ (d <= dj)%nat -> probe_reaches tbl2 key' p).
        { intros Hcase. exists d. split; [done|]. split; [done|]. intros d' Hd'.
          rewrite S2. destruct (decide _) as [|Hnq]; [done|].
          rewrite S1. destruct (decide _) as [E|]; [|by apply Hocc].
          exfalso. destruct Hcase as [Eqj|Hle]; [congruence|].
          rewrite Ejj in E. apply cyc_inj in E; lia. }
        destruct (decide (q = j)) as [Eqj|Nqj]; [left; apply Hkeep; by left|].
        destruct (Nat.lt_ge_cases dj d) as [Hlt|Hge]; [|left; apply Hkeep; by right].
        right. destruct (run_offset tbl (pix_home key') d dj k) as (m & Hm & Em).
        -- lia.
        -- done.
        -- done.
        -- rewrite (ri_rest _ _ _ _ _ _ J) by lia. done.
        -- intros d' Hd'. destruct (decide (d' = d)) as [->|].
           ++ rewrite <- Epd. by eapply entry_key_occupied.
           ++ apply Hocc. lia.
        -- exists m. split; [lia|]. by rewrite Epd.
      * right. exists m. split; [|done].
        assert (m <> k) by (intros ->; by apply Hpj). lia.
Qed.
End Rehash.

Lemma rehash_loop_run accs orig idx kstar :
  pix_wf accs orig -> (idx < PIX_TABLE_SIZE)%nat ->
  (1 <= kstar < PIX_TABLE_SIZE)%nat ->
  pix_slot orig (cyc PIX_TABLE_SIZE idx kstar) = 0 ->
  (forall m, (m < kstar)%nat -> pix_slot orig (cyc PIX_TABLE_SIZE idx m) <> 0) ->
  forall n k tbl fuel,
    (kstar - k)%nat = n -> (1 <= k <= kstar)%nat -> (n < fuel)%nat ->
    rehash_inv accs orig idx kstar tbl k ->
    exists tbl',
      pix_rehash_loop fuel accs tbl (cyc PIX_TABLE_SIZE idx k) = Some tbl' /\
      fold_left (reinsert_entry accs) (map (cyc PIX_TABLE_SIZE idx) (seq k n))
                (Some tbl) = Some tbl' /\
      rehash_inv accs orig idx kstar tbl' kstar.
Proof.
  intros Horig Hidx Hkstar Hend Hrun. pose proof PIX_TABLE_SIZE_pos as Hpos.
  induction n as [|n IH]; intros k tbl fuel Hn Hk Hfuel J;
    (destruct fuel as [|fuel]; [lia|]); cbn [pix_rehash_loop].
  - assert (k = kstar) as -> by lia.
    rewrite (ri_rest _ _ _ _ _ _ J) by lia. rewrite Hend. simpl. eauto.
  - assert (Hnz : pix_slot tbl (cyc PIX_TABLE_SIZE idx k) <> 0).
    { rewrite (ri_rest _ _ _ _ _ _ J) by lia. apply Hrun. lia. }
    destruct (Z.eqb_spec (pix_slot tbl (cyc PIX_TABLE_SIZE idx k)) 0); [done|].
    destruct (rehash_inv_step accs orig idx kstar Horig Hidx Hkstar Hend Hrun tbl k)
      as (key & tbl2 & Hlive & Hins & J2); [lia|done|].
    rewrite Hlive, Hins, pix_next_cyc, cyc_cyc.
    replace (k + 1)%nat with (S k) by lia.
    cbn [seq map fold_left reinsert_entry]. rewrite Hlive, Hins.
    apply IH; [lia|lia|lia|done].
Qed.

Lemma rehash_inv_wf accs orig idx kstar tbl :
  rehash_inv accs orig idx kstar tbl kstar -> pix_wf accs tbl.
Proof.
  intros J. constructor.
  - apply (ri_length _ _ _ _ _ _ J).
  - apply (ri_live _ _ _ _ _ _ J).
  - apply (ri_distinct _ _ _ _ _ _ J).
  - intros p key Hp Kp.
    destruct (ri_reach _ _ _ _ _ _ J p key Hp Kp) as [|(m & Hm & _)]; [done|lia].
Qed.

(** Removing a key that is indexed: the loops run as the description of
    the algorithm says, the result is again well formed and holds the
    other entries, each with the account it had. *)
Lemma pix_remove_present accs tbl p key :
  pix_wf accs tbl -> has_empty tbl -> (p < PIX_TABLE_SIZE)%nat ->
  entry_key accs tbl p = Some key ->
  exists tbl' len,
    pix_remove accs tbl key = Some tbl' /\
    (forall m, (1 <= m <= len)%nat -> pix_slot tbl (cyc PIX_TABLE_SIZE p m) <> 0) /\
    pix_slot tbl (cyc PIX_TABLE_SIZE p (S len)) = 0 /\
    remove_by_run accs tbl p len = Some tbl' /\
    pix_wf accs tbl' /\ has_empty tbl' /\
    forall v, v <> 0 ->
      (exists q, (q < PIX_TABLE_SIZE)%nat /\ pix_slot tbl' q = v) <->
      (exists q, (q < PIX_TABLE_SIZE)%nat /\ q <> p /\ pix_slot tbl q = v).
Proof.
  intros Hwf (e & He & Hez) Hp Kp. pose proof PIX_TABLE_SIZE_pos as Hpos.
  pose proof (entry_key_occupied _ _ _ _ Kp) as Hocc.
  destruct (wf_probe_stops _ _ _ _ Hwf Hp Kp) as (d & Hd & Epd & Hst).
  unfold pix_remove.
  destruct (String.eqb_spec key ""); [by apply entry_key_nonempty in Kp|].
  rewrite (pix_remove_loop_stops _ _ _ d); [|apply pix_home_lt|done|done].
  cbv zeta. rewrite <- Epd.
  destruct (Z.eqb_spec (pix_slot tbl p) 0); [done|].
  destruct (cyc_dist _ Hpos p e Hp He) as (de & Hde & Ee).
  rewrite Ee in Hez.
  destruct (first_empty_offset tbl p de Hez) as (kstar & Hks & Hend & Hrun).
  assert (Hks1 : (1 <= kstar)%nat).
  { destruct kstar; [|lia]. by rewrite cyc_0 in Hend. }
  destruct (rehash_loop_run accs tbl p kstar Hwf Hp) with
    (n := (kstar - 1)%nat) (k := 1%nat) (tbl := <[p := 0]> tbl)
    (fuel := PIX_TABLE_SIZE) as (tbl' & Hloop & Hfold & J); try done; try lia.
  { apply rehash_inv_init; try done; lia. }
  rewrite pix_next_cyc, Hloop. exists tbl', (kstar - 1)%nat. split; [done|].
  split; [intros m Hm; apply Hrun; lia|].
  split; [by replace (S (kstar - 1)) with kstar by lia|].
  split; [done|]. split.
  { by eapply rehash_inv_wf. }
  split.
  { exists (cyc PIX_TABLE_SIZE p kstar). split; [by apply cyc_lt|].
    rewrite (ri_rest _ _ _ _ _ _ J) by lia. done. }
  apply (ri_values _ _ _ _ _ _ J).
Qed.

(** ** The index invariant of the program *)

Lemma pix_live_spec accs ai key :
  pix_live accs ai = Some key <->
  0 <= ai /\ exists a, accs !! Z.to_nat ai = Some a /\ used a = true /\
                       pix_key a = key /\ key <> "".
Proof.
  unfold pix_live. split.
  - destruct (Z.leb_spec 0 ai); simpl; [|done].
    destruct (Z.ltb_spec ai (Z.of_nat (length accs))); [|done].
    destruct (accs !! Z.to_nat ai) as [a|]; [|done].
    destruct (used a) eqn:Hu; simpl; [|done].
    destruct (String.eqb_spec (pix_key a) ""); simpl; [done|].
    intros [= <-]. split; [done|]. by exists a.
  - intros (H0 & a & Ha & Hu & Hk & Hne).
    pose proof (lookup_lt_Some _ _ _ Ha) as Hlt.
    destruct (Z.leb_spec 0 ai); [|lia]. simpl.
    destruct (Z.ltb_spec ai (Z.of_nat (length accs))); [|lia].
    rewrite Ha, Hu. simpl.
    destruct (String.eqb_spec (pix_key a) ""); simpl; congruence.
Qed.

Lemma pix_live_None accs ai :
  pix_live accs ai = None <->
  ~ (0 <= ai /\ exists a, accs !! Z.to_nat ai = Some a /\ used a = true /\
                          pix_key a <> "").
Proof.
  split.
  - intros HN (H0 & a & Ha & Hu & Hne).
    assert (pix_live accs ai = Some (pix_key a)) as E; [|congruence].
    apply pix_live_spec. split; [done|]. by exists a.
  - intros Hn. destruct (pix_live accs ai) as [k|] eqn:E; [|done].
    exfalso. apply Hn. apply pix_live_spec in E as (H0 & a & Ha & Hu & Hk & Hne).
    split; [done|]. exists a. by rewrite Hk.
Qed.

Lemma pix_live_ext accs accs' ai :
  (forall a, accs !! Z.to_nat ai = Some a ->
     exists a', accs' !! Z.to_nat ai = Some a' /\ pix_key a' = pix_key a /\
                used a' = used a) ->
  (forall a', accs' !! Z.to_nat ai = Some a' ->
     exists a, accs !! Z.to_nat ai = Some a /\ pix_key a' = pix_key a /\
               used a' = used a) ->
  pix_live accs' ai = pix_live accs ai.
Proof.
  intros H1 H2. destruct (pix_live accs ai) as [k|] eqn:E.
  - apply pix_live_spec in E as (H0 & a & Ha & Hu & Hk & Hne).
    apply pix_live_spec. split; [done|].
    destruct (H1 a Ha) as (a' & Ha' & Ek & Eu). exists a'.
    repeat split; congruence.
  - apply pix_live_None. intros (H0 & a' & Ha' & Hu & Hne).
    apply pix_live_None in E. apply E. split; [done|].
    destruct (H2 a' Ha') as (a & Ha & Ek & Eu). exists a.
    repeat split; congruence.
Qed.

Lemma same_keys_refl accs : same_keys accs accs.
Proof. split; [done|]. intros i a Ha. by exists a. Qed.

Lemma same_keys_trans a1 a2 a3 :
  same_keys a1 a2 -> same_keys a2 a3 -> same_keys a1 a3.
Proof.
  intros [L1 H1] [L2 H2]. split; [congruence|]. intros i a Ha.
  destruct (H1 i a Ha) as (a' & Ha' & Ek & Eu).
  destruct (H2 i a' Ha') as (a'' & Ha'' & Ek' & Eu').
  exists a''. repeat split; congruence.
Qed.

Lemma same_keys_insert accs i a a' :
  accs !! i = Some a -> pix_key a' = pix_key a -> used a' = used a ->
  same_keys accs (<[i := a']> accs).
Proof.
  intros Ha Ek Eu. split; [by rewrite length_insert|]. intros j b Hb.
  destruct (decide (j = i)) as [->|Hne].
  - exists a'. rewrite list_lookup_insert_eq by (by eapply lookup_lt_Some).
    split; [done|]. split; congruence.
  - exists b. by rewrite list_lookup_insert_ne.
Qed.

Lemma same_keys_alter accs i (f : Account -> Account) :
  (forall a, pix_key (f a) = pix_key a /\ used (f a) = used a) ->
  same_keys accs (alter f i accs).
Proof.
  intros Hf. split; [by rewrite length_alter|]. intros j b Hb.
  destruct (decide (j = i)) as [->|Hne].
  - exists (f b). rewrite list_lookup_alter_eq, Hb. split; [done|]. apply Hf.
  - exists b. by rewrite list_lookup_alter_ne.
Qed.

Lemma same_keys_live accs accs' ai :
  same_keys accs accs' -> pix_live accs' ai = pix_live accs ai.
Proof.
  intros [Hl Hk]. apply pix_live_ext.
  - intros a Ha. by apply Hk.
  - intros a' Ha'.
    assert (is_Some (accs !! Z.to_nat ai)) as [a Ha].
    { apply lookup_lt_is_Some. rewrite <- Hl. by eapply lookup_lt_Some. }
    exists a. split; [done|]. destruct (Hk _ _ Ha) as (a'' & Ha'' & Ek & Eu).
    split; congruence.
Qed.

Lemma index_inv_same_keys st accs' :
  index_inv st -> same_keys (accounts st) accs' ->
  index_inv (mk_state accs' (pix_table st)).
Proof.
  intros [Hc Hwf Hu Hi] Hs. pose proof Hs as [Hl Hk].
  constructor; cbn [accounts pix_table].
  - unfold account_count in *. cbn [accounts]. lia.
  - eapply pix_wf_accs; [|exact Hwf]. intros p Hp Hnz. by apply same_keys_live.
  - intros i a' Ha'.
    assert (is_Some (accounts st !! i)) as [a Ha].
    { apply lookup_lt_is_Some. rewrite <- Hl. by eapply lookup_lt_Some. }
    destruct (Hk _ _ Ha) as (a'' & Ha'' & Ek & Eu).
    assert (a'' = a') as -> by congruence. rewrite Eu. by eapply Hu.
  - intros i a' Ha' Hne.
    assert (is_Some (accounts st !! i)) as [a Ha].
    { apply lookup_lt_is_Some. rewrite <- Hl. by eapply lookup_lt_Some. }
    destruct (Hk _ _ Ha) as (a'' & Ha'' & Ek & Eu).
    assert (a'' = a') as -> by congruence. apply (Hi i a Ha). congruence.
Qed.

Lemma wf_slot_live accs tbl p :
  pix_wf accs tbl -> (p < PIX_TABLE_SIZE)%nat -> pix_slot tbl p <> 0 ->
  exists k, pix_live accs (pix_slot tbl p - 1) = Some k /\
            entry_key accs tbl p = Some k.
Proof.
  intros Hwf Hp Hnz. destruct (wf_live _ _ Hwf p Hp Hnz) as [k Hk].
  exists k. split; [|done]. unfold entry_key in Hk.
  by destruct (Z.eqb_spec (pix_slot tbl p) 0).
Qed.

Lemma entry_key_of_account accs tbl p i a :
  pix_slot tbl p = Z.of_nat i + 1 -> accs !! i = Some a -> used a = true ->
  pix_key a <> "" -> entry_key accs tbl p = Some (pix_key a).
Proof.
  intros Sp Ha Hu Hne. unfold entry_key. rewrite Sp.
  destruct (Z.eqb_spec (Z.of_nat i + 1) 0); [lia|].
  apply pix_live_spec. split; [lia|]. exists a.
  replace (Z.to_nat (Z.of_nat i + 1 - 1)) with i by lia. done.
Qed.

Lemma entry_key_account accs tbl p k :
  entry_key accs tbl p = Some k ->
  exists i a, pix_slot tbl p = Z.of_nat i + 1 /\ accs !! i = Some a /\
              pix_key a = k /\ k <> "".
Proof.
  unfold entry_key. destruct (Z.eqb_spec (pix_slot tbl p) 0); [done|].
  intros (H0 & a & Ha & Hu & Hk & Hne)%pix_live_spec.
  exists (Z.to_nat (pix_slot tbl p - 1)), a. split; [lia|done].
Qed.

Lemma index_inv_unkeyed st my a :
  index_inv st -> accounts st !! my = Some a -> pix_key a = "" ->
  index_inv_but my (accounts st) (pix_table st).
Proof.
  intros [Hc Hwf Hu Hi] Ha Hk. constructor; try done.
  - intros i b _. apply Hi.
  - intros p Hp Sp.
    destruct (wf_slot_live _ _ _ Hwf Hp) as (k & _ & Kp); [lia|].
    apply entry_key_account in Kp as (i & b & Sp' & Hb & Ek & Hne).
    assert (i = my) as -> by lia. congruence.
Qed.

Lemma index_inv_remove st my a :
  index_inv st -> accounts st !! my = Some a -> pix_key a <> "" ->
  exists p tbl1,
    (p < PIX_TABLE_SIZE)%nat /\ pix_slot (pix_table st) p = Z.of_nat my + 1 /\
    pix_remove (accounts st) (pix_table st) (pix_key a) = Some tbl1 /\
    index_inv_but my (accounts st) tbl1 /\
    forall v, v <> 0 ->
      (exists q, (q < PIX_TABLE_SIZE)%nat /\ pix_slot tbl1 q = v) <->
      (exists q, (q < PIX_TABLE_SIZE)%nat /\ q <> p /\ pix_slot (pix_table st) q = v).
Proof.
  intros [Hc Hwf Hu Hi] Ha Hk.
  destruct (Hi my a Ha Hk) as (p & Hp & Sp).
  pose proof (entry_key_of_account _ _ _ _ _ Sp Ha (Hu _ _ Ha) Hk) as Kp.
  destruct (pix_remove_present _ _ p (pix_key a) Hwf)
    as (tbl1 & len & Hrm & _ & _ & _ & Hwf1 & _ & Hval);
    [by eapply wf_has_empty|done|done|].
  exists p, tbl1. split; [done|]. split; [done|]. split; [done|]. split; [|done].
  constructor; try done.
  - intros i b Hne Hb Hkb. destruct (Hi i b Hb Hkb) as (q & Hq & Sq).
    apply Hval; [lia|]. exists q. split; [done|]. split; [|done].
    intros ->. lia.
  - intros q Hq Sq.
    assert (exists q', (q' < PIX_TABLE_SIZE)%nat /\ q' <> p /\
              pix_slot (pix_table st) q' = Z.of_nat my + 1) as (q' & Hq' & Hne & Sq').
    { apply Hval; [lia|]. eauto. }
    apply Hne. apply (wf_distinct _ _ Hwf q' p (pix_key a)); [done|done| |done].
    rewrite <- Kp. apply entry_key_same_value. congruence.
Qed.

Lemma index_inv_but_set my accs tbl a' :
  index_inv_but my accs tbl -> used a' = true ->
  index_inv_but my (<[my := a']> accs) tbl.
Proof.
  intros [Hc Hwf Hu Hi Hab] Hu'. constructor.
  - by rewrite length_insert.
  - eapply pix_wf_accs; [|exact Hwf]. intros p Hp Hnz.
    destruct (wf_slot_live _ _ _ Hwf Hp Hnz) as (k & Hl & _).
    apply pix_live_range in Hl. specialize (Hab p Hp).
    apply pix_live_ext; intros b; rewrite list_lookup_insert_ne by lia; eauto.
  - intros i b. destruct (decide (i = my)) as [->|Hne].
    + intros Hb. apply list_lookup_insert_Some in Hb as [(_ & <- & _)|(? & _)]; done.
    + rewrite list_lookup_insert_ne by done. apply Hu.
  - intros i b Hne. rewrite list_lookup_insert_ne by done. by apply Hi.
  - done.
Qed.

Lemma index_inv_bind my accs tbl a :
  index_inv_but my accs tbl -> accs !! my = Some a -> pix_key a <> "" ->
  (forall i b, i <> my -> accs !! i = Some b -> pix_key b <> pix_key a) ->
  exists q,
    (q < PIX_TABLE_SIZE)%nat /\ pix_slot tbl q = 0 /\
    pix_insert accs tbl (pix_key a) (Z.of_nat my)
      = Some (<[q := Z.of_nat my + 1]> tbl) /\
    index_inv (mk_state accs (<[q := Z.of_nat my + 1]> tbl)).
Proof.
  intros [Hc Hwf Hu Hi Hab] Ha Hk Hfresh.
  assert (Hlive : pix_live accs (Z.of_nat my) = Some (pix_key a)).
  { apply pix_live_spec. split; [lia|]. exists a. rewrite Nat2Z.id.
    repeat split; try done. by eapply Hu. }
  destruct (pix_insert_wf accs tbl (pix_key a) (Z.of_nat my) Hwf)
    as (q & Hq & Sq & Hins & Hwf').
  { by eapply wf_has_empty. }
  { done. }
  { intros p Hp Kp. apply entry_key_account in Kp as (i & b & Sp & Hb & Ek & _).
    destruct (decide (i = my)) as [->|Hne].
    - by apply (Hab p Hp).
    - by apply (Hfresh i b). }
  exists q. split; [done|]. split; [done|]. split; [done|].
  pose proof (wf_length _ _ Hwf) as Hlen.
  constructor; cbn [accounts pix_table]; try done.
  intros i b Hb Hkb. destruct (decide (i = my)) as [->|Hne].
  - exists q. split; [done|]. rewrite pix_slot_insert by lia.
    by destruct (decide (q = q)).
  - destruct (Hi i b Hne Hb Hkb) as (p & Hp & Sp). exists p. split; [done|].
    rewrite pix_slot_insert by lia. destruct (decide (p = q)) as [->|]; [lia|done].
Qed.

Lemma index_inv_but_app st a :
  index_inv st -> used a = true -> (account_count st < MAX_ACCOUNTS)%nat ->
  index_inv_but (account_count st) (accounts st ++ [a])%list (pix_table st).
Proof.
  intros [Hc Hwf Hu Hi] Hua Hlt. unfold account_count in *. constructor.
  - rewrite length_app. simpl. lia.
  - eapply pix_wf_accs; [|exact Hwf]. intros p Hp Hnz.
    destruct (wf_slot_live _ _ _ Hwf Hp Hnz) as (k & Hl & _).
    apply pix_live_range in Hl.
    apply pix_live_ext; intros b; rewrite lookup_app_l by lia; eauto.
  - intros i b Hb. apply lookup_app_Some in Hb as [Hb|[_ Hb]].
    + by eapply Hu.
    + apply list_lookup_singleton_Some in Hb as [_ <-]. done.
  - intros i b Hne Hb Hkb. apply lookup_app_Some in Hb as [Hb|[Hge Hb]].
    + by eapply Hi.
    + apply list_lookup_singleton_Some in Hb as [E _]. lia.
  - intros p Hp Sp.
    destruct (wf_slot_live _ _ _ Hwf Hp) as (k & Hl & _); [lia|].
    apply pix_live_range in Hl. lia.
Qed.

Lemma index_inv_but_unkeyed my accs tbl a :
  index_inv_but my accs tbl -> accs !! my = Some a -> pix_key a = "" ->
  index_inv (mk_state accs tbl).
Proof.
  intros [Hc Hwf Hu Hi Hab] Ha Hk. constructor; try done.
  cbn [accounts pix_table]. intros i b Hb Hkb.
  destruct (decide (i = my)) as [->|Hne]; [congruence|]. by eapply Hi.
Qed.

Lemma substring_all s : forall n, (String.length s <= n)%nat -> substring 0 n s = s.
Proof.
  induction s as [|c s IH]; intros [|n] H; simpl in *; try done; try lia.
  f_equal. apply IH. lia.
Qed.

Lemma safe_strcpy_fits s cap :
  (String.length s < cap)%nat -> safe_strcpy s cap = s.
Proof. intros H. unfold safe_strcpy. apply substring_all. lia. Qed.

(** Every probe of a well-formed index with an empty slot returns. *)
Lemma wf_find_total accs tbl key :
  pix_wf accs tbl -> has_empty tbl ->
  (pix_find accs tbl key = Some (-1) /\
   forall p, (p < PIX_TABLE_SIZE)%nat -> entry_key accs tbl p <> Some key) \/
  (exists p, (p < PIX_TABLE_SIZE)%nat /\ entry_key accs tbl p = Some key /\
             pix_find accs tbl key = Some (pix_slot tbl p - 1)).
Proof.
  intros Hwf (e & He & Hez). pose proof PIX_TABLE_SIZE_pos as Hpos.
  destruct (cyc_dist _ Hpos (pix_home key) e (pix_home_lt key) He) as (d & Hd & ->).
  destruct (probe_stops_exists accs tbl key (pix_home key) d) as (d0 & Hd0 & Hst);
    [by left|].
  destruct (proj2 Hst) as [Hz|Hk].
  - left. assert (Hno : forall p, (p < PIX_TABLE_SIZE)%nat ->
                          entry_key accs tbl p <> Some key).
    { intros p Hp Kp.
      destruct (wf_probe_stops _ _ _ _ Hwf Hp Kp) as (dp & Hdp & Ep & Hstp).
      destruct (Nat.lt_trichotomy d0 dp) as [Hlt|[->|Hgt]].
      - destruct Hstp as [Hb _]. destruct (Hb d0 Hlt) as [_ Hnz]. done.
      - rewrite <- Ep in Hz. by apply entry_key_occupied in Kp.
      - destruct Hst as [Hb _]. destruct (Hb dp Hgt) as [Hnk _].
        by rewrite <- Ep in Hnk. }
    split; [|done]. apply find_absent; [|done]. exists (cyc PIX_TABLE_SIZE (pix_home key) d).
    split; [by apply cyc_lt|done].
  - right. exists (cyc PIX_TABLE_SIZE (pix_home key) d0).
    split; [by apply cyc_lt|]. split; [done|]. apply wf_find_present; [done| |done].
    by apply cyc_lt.
Qed.

Lemma index_has_empty st : index_inv st -> has_empty (pix_table st).
Proof. intros [Hc Hwf _ _]. by eapply wf_has_empty. Qed.

Lemma index_keys_unique st i j a b :
  index_inv st -> accounts st !! i = Some a -> accounts st !! j = Some b ->
  pix_key a <> "" -> pix_key a = pix_key b -> i = j.
Proof.
  intros Hinv Ha Hb Hk E. pose proof Hinv as [Hc Hwf Hu Hi].
  destruct (Hi i a Ha Hk) as (p & Hp & Sp).
  destruct (Hi j b Hb) as (q & Hq & Sq); [congruence|].
  pose proof (entry_key_of_account _ _ _ _ _ Sp Ha (Hu _ _ Ha) Hk) as Kp.
  assert (Kq : entry_key (accounts st) (pix_table st) q = Some (pix_key a)).
  { rewrite E. apply (entry_key_of_account _ _ _ j); [done|done|by eapply Hu|congruence]. }
  assert (p = q) as -> by (by apply (wf_distinct _ _ Hwf p q (pix_key a))).
  lia.
Qed.

(** In a state that satisfies the invariant, [pix_find] is a function of
    the accounts alone: it returns the account that holds the key, and -1
    when no account does. *)
Lemma index_find_account st i a :
  index_inv st -> accounts st !! i = Some a -> pix_key a <> "" ->
  pix_find (accounts st) (pix_table st) (pix_key a) = Some (Z.of_nat i).
Proof.
  intros Hinv Ha Hk. pose proof Hinv as [Hc Hwf Hu Hi].
  destruct (Hi i a Ha Hk) as (p & Hp & Sp).
  pose proof (entry_key_of_account _ _ _ _ _ Sp Ha (Hu _ _ Ha) Hk) as Kp.
  rewrite (wf_find_present _ _ p (pix_key a) Hwf Hp Kp). f_equal. lia.
Qed.

Lemma index_find_cases st key :
  index_inv st ->
  (pix_find (accounts st) (pix_table st) key = Some (-1) /\
   forall i a, accounts st !! i = Some a -> key <> "" -> pix_key a <> key) \/
  (exists i a, accounts st !! i = Some a /\ pix_key a = key /\ key <> "" /\
     pix_find (accounts st) (pix_table st) key = Some (Z.of_nat i)).
Proof.
  intros Hinv. pose proof Hinv as [Hc Hwf Hu Hi].
  destruct (wf_find_total (accounts st) (pix_table st) key Hwf (index_has_empty _ Hinv))
    as [[Hf Hno]|(p & Hp & Kp & Hf)].
  - left. split; [done|]. intros i a Ha Hne E.
    destruct (Hi i a Ha) as (p & Hp & Sp); [congruence|].
    apply (Hno p Hp). rewrite <- E.
    apply (entry_key_of_account _ _ _ i); [done|done|by eapply Hu|congruence].
  - right. apply entry_key_account in Kp as (i & a & Sp & Ha & Ek & Hne).
    exists i, a. split; [done|]. split; [done|]. split; [done|].
    rewrite Hf, Sp. f_equal. lia.
Qed.

Lemma index_find_same_keys st st' key :
  index_inv st -> index_inv st' -> same_keys (accounts st) (accounts st') ->
  pix_find (accounts st') (pix_table st') key =
  pix_find (accounts st) (pix_table st) key.
Proof.
  intros Hinv Hinv' [Hl Hs].
  destruct (index_find_cases st key Hinv) as [[Hf Hno]|(i & a & Ha & Ek & Hne & Hf)].
  - rewrite Hf.
    destruct (index_find_cases st' key Hinv') as [[Hf' _]|(i & a' & Ha' & Ek & Hne & _)];
      [done|].
    exfalso. assert (is_Some (accounts st !! i)) as [a Ha].
    { apply lookup_lt_is_Some. rewrite <- Hl. by eapply lookup_lt_Some. }
    destruct (Hs _ _ Ha) as (a'' & Ha'' & Ek' & _).
    apply (Hno i a Ha Hne). congruence.
  - rewrite Hf. destruct (Hs _ _ Ha) as (a' & Ha' & Ek' & _).
    rewrite <- Ek, <- Ek'. apply index_find_account; [done|done|congruence].
Qed.

Lemma set_pix_commit st my a pix :
  index_inv st -> accounts st !! my = Some a -> pix <> "" ->
  (forall j b, j <> my -> accounts st !! j = Some b -> pix_key b <> pix) ->
  exists tbl1 tbl2,
    (if (pix_key a =? "")%string then Some (pix_table st)
     else pix_remove (accounts st) (pix_table st) (pix_key a)) = Some tbl1 /\
    pix_insert (<[my := set_pix_key a pix]> (accounts st)) tbl1 pix (Z.of_nat my)
      = Some tbl2 /\
    index_inv (mk_state (<[my := set_pix_key a pix]> (accounts st)) tbl2).
Proof.
  intros Hinv Ha Hne Hfresh.
  assert (Hua : used a = true) by (by eapply (ii_used _ Hinv)).
  assert (exists tbl1,
    (if (pix_key a =? "")%string then Some (pix_table st)
     else pix_remove (accounts st) (pix_table st) (pix_key a)) = Some tbl1 /\
    index_inv_but my (accounts st) tbl1) as (tbl1 & Hrm & Hbut).
  { destruct (String.eqb_spec (pix_key a) "") as [Ek|Nk].
    - exists (pix_table st). split; [done|]. by eapply index_inv_unkeyed.
    - destruct (index_inv_remove st my a Hinv Ha Nk) as (p & tbl1 & _ & _ & Hrm & Hb & _).
      by exists tbl1. }
  exists tbl1.
  pose proof (index_inv_but_set my _ _ (set_pix_key a pix) Hbut Hua) as Hbut'.
  assert (Hmy : <[my := set_pix_key a pix]> (accounts st) !! my
                = Some (set_pix_key a pix)).
  { apply list_lookup_insert_eq. by eapply lookup_lt_Some. }
  destruct (index_inv_bind my _ _ _ Hbut' Hmy) as (q & Hq & Sq & Hins & Hinv').
  { done. }
  { intros j b Hj. rewrite list_lookup_insert_ne by done. cbn [pix_key set_pix_key].
    by apply Hfresh. }
  cbn [pix_key set_pix_key] in Hins. eauto.
Qed.

(** The three outcomes of "Set/Update PIX Key". *)
Lemma menu_set_pix_spec st my a pix :
  index_inv st -> accounts st !! my = Some a ->
  (String.length pix < MAX_PIX_LEN)%nat ->
  (pix = "" /\ menu_set_pix st my pix = Some (st, Pix_empty)) \/
  (exists j b, j <> my /\ accounts st !! j = Some b /\ pix_key b = pix /\
     pix <> "" /\ menu_set_pix st my pix = Some (st, Pix_taken)) \/
  (pix <> "" /\
   (forall j b, j <> my -> accounts st !! j = Some b -> pix_key b <> pix) /\
   exists tbl',
     menu_set_pix st my pix =
       Some (mk_state
               (<[my := log_account_tx (set_pix_key a pix) TX_MISC 0
                          "PIX key set/updated"]> (accounts st)) tbl', Done) /\
     index_inv
       (mk_state
          (<[my := log_account_tx (set_pix_key a pix) TX_MISC 0
                     "PIX key set/updated"]> (accounts st)) tbl')).
Proof.
  intros Hinv Ha Hlen. unfold menu_set_pix. rewrite Ha.
  destruct (String.eqb_spec pix "") as [->|Hne]; [by left|]. right.
  rewrite (safe_strcpy_fits pix) by done.
  assert (Hcommit : forall existing,
    pix_find (accounts st) (pix_table st) pix = Some existing ->
    (existing >=? 0) && negb (existing =? Z.of_nat my) = false ->
    (forall j b, j <> my -> accounts st !! j = Some b -> pix_key b <> pix) ->
    exists tbl',
      match pix_find (accounts st) (pix_table st) pix with
      | Some existing =>
          if (existing >=? 0) && negb (existing =? Z.of_nat my)
          then Some (st, Pix_taken)
          else
            match (if (pix_key a =? "")%string then Some (pix_table st)
                   else pix_remove (accounts st) (pix_table st) (pix_key a)) with
            | Some tbl =>
                match pix_insert (<[my := set_pix_key a pix]> (accounts st)) tbl
                        (pix_key (set_pix_key a pix)) (Z.of_nat my) with
                | Some tbl0 =>
                    Some (mk_state
                       (<[my := log_account_tx (set_pix_key a pix) TX_MISC 0
                                  "PIX key set/updated"]>
                          (<[my := set_pix_key a pix]> (accounts st))) tbl0, Done)
                | None => None
                end
            | None => None
            end
      | None => None
      end =
      Some (mk_state
              (<[my := log_account_tx (set_pix_key a pix) TX_MISC 0
                         "PIX key set/updated"]> (accounts st)) tbl', Done) /\
      index_inv
        (mk_state
           (<[my := log_account_tx (set_pix_key a pix) TX_MISC 0
                      "PIX key set/updated"]> (accounts st)) tbl')).
  { intros existing Hf Hcond Hfresh. rewrite Hf, Hcond.
    destruct (set_pix_commit st my a pix Hinv Ha Hne Hfresh)
      as (tbl1 & tbl2 & Hrm & Hins & Hinv').
    rewrite Hrm. cbn [pix_key set_pix_key]. rewrite Hins.
    rewrite list_insert_insert_eq. exists tbl2. split; [done|].
    rewrite <- (list_insert_insert_eq (accounts st) my _ (set_pix_key a pix)).
    apply (index_inv_same_keys _ _ Hinv'). cbn [accounts].
    apply (same_keys_insert _ my (set_pix_key a pix)); [|done|done].
    apply list_lookup_insert_eq. by eapply lookup_lt_Some. }
  destruct (index_find_cases st pix Hinv) as [[Hf Hno]|(i & b & Hb & Ek & _ & Hf)].
  - right. split; [done|]. split; [intros j b _ Hb; by eapply Hno|].
    apply (Hcommit (-1)); [done|done|]. intros j b _ Hb. by eapply Hno.
  - destruct (decide (i = my)) as [->|Hne'].
    + right. split; [done|].
      assert (Hfresh : forall j b', j <> my -> accounts st !! j = Some b' ->
                pix_key b' <> pix).
      { intros j b' Hj Hb' E. apply Hj. symmetry.
        apply (index_keys_unique st my j b b' Hinv); congruence. }
      split; [done|]. apply (Hcommit (Z.of_nat my)); [done| |done].
      rewrite Z.eqb_refl. by rewrite andb_false_r.
    + left. exists i, b. split; [done|]. split; [done|]. split; [done|].
      split; [done|]. rewrite Hf.
      destruct (Z.geb_spec (Z.of_nat i) 0); [|lia].
      destruct (Z.eqb_spec (Z.of_nat i) (Z.of_nat my)); [lia|]. done.
Qed.

(** *** The invariant holds in every reachable state *)

Lemma zero_state_index_inv : index_inv zero_state.
Proof.
  assert (Hz : forall p, pix_slot (replicate PIX_TABLE_SIZE 0) p = 0).
  { intros p. unfold pix_slot. rewrite nth_lookup.
    destruct (replicate PIX_TABLE_SIZE 0 !! p) as [x|] eqn:E; [|done].
    by apply lookup_replicate in E as [-> _]. }
  assert (Hk : forall accs p, entry_key accs (replicate PIX_TABLE_SIZE 0) p = None).
  { intros accs p. unfold entry_key. by rewrite Hz. }
  constructor; cbn [zero_state accounts pix_table].
  - unfold account_count, MAX_ACCOUNTS. simpl. lia.
  - constructor.
    + by rewrite length_replicate.
    + intros p _ Hnz. by rewrite Hz in Hnz.
    + intros p q k _ _ Kp. by rewrite Hk in Kp.
    + intros p k _ Kp. by rewrite Hk in Kp.
  - intros i a Ha. done.
  - intros i a Ha. done.
Qed.

(** Appending an account that has a fresh key and indexing it. *)
Lemma index_inv_add st a :
  index_inv st -> used a = true -> pix_key a <> "" ->
  (account_count st < MAX_ACCOUNTS)%nat ->
  (forall j b, accounts st !! j = Some b -> pix_key b <> pix_key a) ->
  exists tbl,
    pix_insert (accounts st ++ [a])%list (pix_table st) (pix_key a)
               (Z.of_nat (account_count st)) = Some tbl /\
    index_inv (mk_state (accounts st ++ [a])%list tbl).
Proof.
  intros Hinv Hu Hk Hlt Hfresh.
  pose proof (index_inv_but_app st a Hinv Hu Hlt) as Hbut.
  destruct (index_inv_bind _ _ _ a Hbut) as (q & _ & _ & Hins & Hinv').
  - unfold account_count. by rewrite lookup_app_r, Nat.sub_diag.
  - done.
  - intros j b Hj Hb. apply lookup_app_Some in Hb as [Hb|[Hge Hb]].
    + by eapply Hfresh.
    + apply list_lookup_singleton_Some in Hb as [E _]. unfold account_count in Hj. lia.
  - eauto.
Qed.

Lemma boot_state_index_inv st : boot_state = Some st -> index_inv st.
Proof.
  unfold boot_state, init_sample_accounts.
  change (MAX_ACCOUNTS <? account_count zero_state + 2)%nat with false. cbv iota.
  destruct (index_inv_add zero_state (sample_account "user1" "user1pix"))
    as (tbl1 & Hins1 & Hinv1).
  { apply zero_state_index_inv. }
  { done. }
  { done. }
  { unfold account_count, MAX_ACCOUNTS. simpl. lia. }
  { intros j b Hb. done. }
  rewrite Hins1.
  set (st1 := mk_state (accounts zero_state ++ [sample_account "user1" "user1pix"])%list tbl1) in *.
  destruct (index_inv_add st1 (sample_account "user2" "user2pix"))
    as (tbl2 & Hins2 & Hinv2).
  { done. }
  { done. }
  { done. }
  { unfold account_count, MAX_ACCOUNTS. simpl. lia. }
  { intros j b Hb. destruct j as [|j]; [|done]. injection Hb as <-. done. }
  cbn [accounts pix_table st1] in Hins2, Hinv2. unfold account_count in Hins2.
  cbn [accounts st1] in Hins2.
  rewrite Hins2. intros [= <-]. exact Hinv2.
Qed.

Ltac account_fields :=
  cbn [fst snd username password agency balance credit_limit credit_used
       pix_key txlog used log_account_tx set_txlog set_balance
       set_credit_used set_credit_limit set_password set_pix_key].

Lemma deposit_keys a amount :
  pix_key (deposit a amount).1 = pix_key a /\ used (deposit a amount).1 = used a.
Proof. unfold deposit. by destruct (amount <=? 0); account_fields. Qed.

Lemma withdraw_keys a amount :
  pix_key (withdraw_ a amount).1 = pix_key a /\
  used (withdraw_ a amount).1 = used a.
Proof.
  unfold withdraw_. destruct (amount <=? 0); [done|].
  by destruct (amount <=? balance a); account_fields.
Qed.

Lemma credit_advance_keys a amount :
  pix_key (credit_advance a amount).1 = pix_key a /\
  used (credit_advance a amount).1 = used a.
Proof.
  unfold credit_advance.
  by destruct (amount <=? wrap64 (credit_limit a - credit_used a)); account_fields.
Qed.

Lemma change_credit_limit_keys a nl :
  pix_key (change_credit_limit a nl).1 = pix_key a /\
  used (change_credit_limit a nl).1 = used a.
Proof.
  unfold change_credit_limit. by destruct (nl >=? credit_used a); account_fields.
Qed.

Lemma change_password_keys a oldp newp :
  pix_key (change_password a oldp newp).1 = pix_key a /\
  used (change_password a oldp newp).1 = used a.
Proof.
  unfold change_password. destruct (negb _); [done|].
  by destruct (newp =? "")%string; account_fields.
Qed.

Lemma on_account_keys st i f st' o :
  (forall a, pix_key (f a).1 = pix_key a /\ used (f a).1 = used a) ->
  on_account st i f = Some (st', o) ->
  same_keys (accounts st) (accounts st') /\ pix_table st' = pix_table st.
Proof.
  intros Hf. unfold on_account. destruct (accounts st !! i) as [a|] eqn:Ha; [|done].
  specialize (Hf a). destruct (f a) as [a' o']. intros [= <- <-].
  cbn [accounts pix_table]. split; [|done].
  eapply same_keys_insert; [done|apply Hf|apply Hf].
Qed.

Lemma transfer_keys st i amount pix st' o :
  transfer_ st i amount pix = Some (st', o) ->
  same_keys (accounts st) (accounts st') /\ pix_table st' = pix_table st.
Proof.
  unfold transfer_. destruct (accounts st !! i) as [a|] eqn:Ha; [|done].
  destruct (pix_key a =? "")%string.
  { intros [= <- <-]. split; [apply same_keys_refl|done]. }
  destruct (amount <=? 0).
  { intros [= <- <-]. split; [apply same_keys_refl|done]. }
  destruct (pix =? pix_key a)%string.
  { pose proof (credit_advance_keys a amount) as Hk.
    destruct (credit_advance a amount) as [a' o']. intros [= <- <-].
    cbn [accounts pix_table]. split; [|done].
    eapply same_keys_insert; [done|apply Hk|apply Hk]. }
  destruct (pix_find (accounts st) (pix_table st) pix) as [tidx|]; [|done].
  destruct (tidx <? 0).
  { intros [= <- <-]. split; [apply same_keys_refl|done]. }
  destruct (amount <=? balance a).
  - intros [= <- <-]. cbn [accounts pix_table]. split; [|done].
    repeat (eapply same_keys_trans; [|apply same_keys_alter; by intros b]).
    apply same_keys_refl.
  - intros [= <- <-]. split; [apply same_keys_refl|done].
Qed.

Lemma run_index_inv st o st' out :
  index_inv st -> valid_op st o -> run st o = Some (st', out) -> index_inv st'.
Proof.
  intros Hinv Hv. destruct o as [name pass ag|i amt|i amt|i amt pix|i pix|i nl|i oldp newp];
    cbn [run valid_op] in *.
  - unfold sign_up. destruct (name =? "")%string; [by intros [= <- <-]|].
    destruct (find_account_by_name st name >=? 0); [by intros [= <- <-]|].
    destruct (ag =? "")%string; [by intros [= <- <-]|].
    destruct (Nat.leb_spec MAX_ACCOUNTS (account_count st)); [by intros [= <- <-]|].
    intros [= <- <-].
    eapply (index_inv_but_unkeyed (account_count st)).
    + by apply index_inv_but_app.
    + unfold account_count. by rewrite lookup_app_r, Nat.sub_diag.
    + done.
  - intros Hr. apply on_account_keys in Hr as [Hs Ht]; [|intros; apply deposit_keys].
    destruct st' as [accs' tbl']. cbn [accounts pix_table] in *. subst tbl'.
    by apply index_inv_same_keys.
  - intros Hr. apply on_account_keys in Hr as [Hs Ht]; [|intros; apply withdraw_keys].
    destruct st' as [accs' tbl']. cbn [accounts pix_table] in *. subst tbl'.
    by apply index_inv_same_keys.
  - intros Hr. apply transfer_keys in Hr as [Hs Ht].
    destruct st' as [accs' tbl']. cbn [accounts pix_table] in *. subst tbl'.
    by apply index_inv_same_keys.
  - destruct Hv as [Hi Hlen].
    destruct (lookup_lt_is_Some_2 (accounts st) i Hi) as [a Ha].
    destruct (menu_set_pix_spec st i a pix Hinv Ha Hlen)
      as [[_ Hr]|[(j & b & _ & _ & _ & _ & Hr)|(_ & _ & tbl' & Hr & Hinv')]];
      rewrite Hr; intros [= <- <-]; done.
  - intros Hr. apply on_account_keys in Hr as [Hs Ht];
      [|intros; apply change_credit_limit_keys].
    destruct st' as [accs' tbl']. cbn [accounts pix_table] in *. subst tbl'.
    by apply index_inv_same_keys.
  - intros Hr. apply on_account_keys in Hr as [Hs Ht];
      [|intros; apply change_password_keys].
    destruct st' as [accs' tbl']. cbn [accounts pix_table] in *. subst tbl'.
    by apply index_inv_same_keys.
Qed.

Lemma step_run st o st' :
  step st o = Some st' <-> exists out, run st o = Some (st', out).
Proof.
  unfold step. destruct (run st o) as [[s out]|]; simpl; split.
  - intros [= <-]. by exists out.
  - by intros (out' & [= <- <-]).
  - done.
  - by intros (out' & ?).
Qed.

Theorem reachable_index_inv st : reachable st -> index_inv st.
Proof.
  induction 1 as [st Hb|st o st' _ IH Hv Hs].
  - by apply boot_state_index_inv.
  - apply step_run in Hs as (out & Hr). by eapply run_index_inv.
Qed.

(** Every operation the menus can start returns. *)
Lemma run_total st o :
  index_inv st -> valid_op st o -> exists st' out, run st o = Some (st', out).
Proof.
  intros Hinv Hv. destruct o as [name pass ag|i amt|i amt|i amt pix|i pix|i nl|i oldp newp];
    cbn [run valid_op] in *.
  - destruct (sign_up st name pass ag) as [s out]. eauto.
  - destruct Hv as [Hi _]. destruct (lookup_lt_is_Some_2 (accounts st) i Hi) as [a Ha].
    unfold on_account. rewrite Ha. destruct (deposit a amt). eauto.
  - destruct Hv as [Hi _]. destruct (lookup_lt_is_Some_2 (accounts st) i Hi) as [a Ha].
    unfold on_account. rewrite Ha. destruct (withdraw_ a amt). eauto.
  - destruct Hv as [Hi _]. destruct (lookup_lt_is_Some_2 (accounts st) i Hi) as [a Ha].
    unfold transfer_. rewrite Ha.
    destruct (pix_key a =? "")%string; [eauto|].
    destruct (amt <=? 0); [eauto|].
    destruct (pix =? pix_key a)%string; [destruct (credit_advance a amt); eauto|].
    destruct (index_find_cases st pix Hinv) as [[Hf _]|(j & b & _ & _ & _ & Hf)];
      rewrite Hf.
    + simpl. eauto.
    + destruct (Z.of_nat j <? 0); [eauto|]. destruct (amt <=? balance a); eauto.
  - destruct Hv as [Hi Hlen].
    destruct (lookup_lt_is_Some_2 (accounts st) i Hi) as [a Ha].
    destruct (menu_set_pix_spec st i a pix Hinv Ha Hlen)
      as [[_ Hr]|[(j & b & _ & _ & _ & _ & Hr)|(_ & _ & tbl' & Hr & _)]]; eauto.
  - destruct Hv as [Hi _]. destruct (lookup_lt_is_Some_2 (accounts st) i Hi) as [a Ha].
    unfold on_account. rewrite Ha. destruct (change_credit_limit a nl). eauto.
  - destruct Hv as [Hi _]. destruct (lookup_lt_is_Some_2 (accounts st) i Hi) as [a Ha].
    unfold on_account. rewrite Ha. destruct (change_password a oldp newp). eauto.
Qed.

(** ** Scenarios are reachable *)

Lemma in_int64b_true z : in_int64b z = true -> in_int64 z.
Proof. unfold in_int64b, in_int64. lia. Qed.

Lemma valid_opb_true st o : valid_opb st o = true -> valid_op st o.
Proof.
  destruct o; cbn [valid_opb valid_op]; intros H;
    repeat (apply andb_prop in H as [H ?]);
    repeat match goal with
      | K : (_ <? _)%nat = true |- _ => apply Nat.ltb_lt in K
      | K : in_int64b _ = true |- _ => apply in_int64b_true in K
      end; done.
Qed.

Lemma exec_reachable ops : forall st st',
  reachable st -> exec st ops = Some st' -> reachable st'.
Proof.
  induction ops as [|o ops IH]; intros st st' Hr; cbn [exec].
  - by intros [= <-].
  - destruct (valid_opb st o) eqn:Hv; [|done].
    destruct (step st o) as [st1|] eqn:Hs; [|done].
    apply IH. eapply reachable_step; [done|by apply valid_opb_true|done].
Qed.

Lemma exec_from_boot_reachable ops st :
  exec_from_boot ops = Some st -> reachable st.
Proof.
  unfold exec_from_boot. destruct boot_state as [st0|] eqn:Hb; [|done].
  apply exec_reachable. by apply reachable_boot.
Qed.

Lemma cluster_state_reachable : reachable cluster_state.
Proof. apply (exec_from_boot_reachable cluster_ops). by vm_compute. Qed.

(** ** Removal from the index *)

(** C1. In every reachable state, removing an indexed alias [a] returns,
    and afterwards [pix_find a] is -1 while every other alias that was
    found before is still found, with the same account, also when its
    probe path ran through the removed slot.  The table that [pix_remove]
    returns is the one obtained by clearing the matched slot and then
    clearing and reinserting, in order, each entry of the occupied run that
    follows it up to the first empty slot. *)
Theorem pix_remove_keeps_others st a ai :
  reachable st -> 0 <= ai ->
  pix_find (accounts st) (pix_table st) a = Some ai ->
  exists tbl' idx len,
    pix_remove (accounts st) (pix_table st) a = Some tbl' /\
    pix_find (accounts st) tbl' a = Some (-1) /\
    (forall b bi, b <> a -> 0 <= bi ->
       pix_find (accounts st) (pix_table st) b = Some bi ->
       pix_find (accounts st) tbl' b = Some bi) /\
    pix_slot (pix_table st) idx = ai + 1 /\
    (forall m, (1 <= m <= len)%nat ->
       pix_slot (pix_table st) (cyc PIX_TABLE_SIZE idx m) <> 0) /\
    pix_slot (pix_table st) (cyc PIX_TABLE_SIZE idx (S len)) = 0 /\
    remove_by_run (accounts st) (pix_table st) idx len = Some tbl'.
Proof.
  intros Hreach Hai Hfind. pose proof (reachable_index_inv st Hreach) as Hinv.
  pose proof (ii_wf _ Hinv) as Hwf. pose proof (index_has_empty _ Hinv) as Hemp.
  set (accs := accounts st) in *. set (tbl := pix_table st) in *.
  destruct (pix_find_sound accs tbl a ai Hfind Hai) as (p & Hp & Sp & Kp).
  destruct (pix_remove_present accs tbl p a Hwf Hemp Hp Kp)
    as (tbl' & len & Hrm & Hrun & Hend & Hspec & Hwf' & Hemp' & Hval).
  exists tbl', p, len. split; [done|]. split; [|split; [|done]].
  - apply find_absent; [done|]. intros q Hq Kq.
    pose proof (entry_key_occupied _ _ _ _ Kq) as Hnz.
    assert (exists q', (q' < PIX_TABLE_SIZE)%nat /\ q' <> p /\
              pix_slot tbl q' = pix_slot tbl' q) as (q' & Hq' & Hne & Sq').
    { apply Hval; [done|]. eauto. }
    apply Hne. apply (wf_distinct _ _ Hwf q' p a); [done|done| |done].
    rewrite <- Kq. by apply entry_key_same_value.
  - intros b bi Hba Hbi Hfb.
    destruct (pix_find_sound accs tbl b bi Hfb Hbi) as (pb & Hpb & Spb & Kpb).
    assert (exists q, (q < PIX_TABLE_SIZE)%nat /\ pix_slot tbl' q = bi + 1)
      as (q & Hq & Sq).
    { apply Hval; [lia|]. exists pb. split; [done|]. split; [|done].
      intros ->. congruence. }
    assert (Kq : entry_key accs tbl' q = Some b).
    { rewrite <- Kpb. apply entry_key_same_value. congruence. }
    rewrite (wf_find_present accs tbl' q b Hwf' Hq Kq), Sq. f_equal. lia.
Qed.

(** The cluster A, B, C of [cluster_state]: B is removed. *)
Lemma pix_remove_keeps_others_witness :
  exists tbl' idx len,
    pix_remove (accounts cluster_state) (pix_table cluster_state) "k171"
      = Some tbl' /\
    pix_find (accounts cluster_state) tbl' "k171" = Some (-1) /\
    (forall b bi, b <> "k171" -> 0 <= bi ->
       pix_find (accounts cluster_state) (pix_table cluster_state) b = Some bi ->
       pix_find (accounts cluster_state) tbl' b = Some bi) /\
    pix_slot (pix_table cluster_state) idx = 1 + 1 /\
    (forall m, (1 <= m <= len)%nat ->
       pix_slot (pix_table cluster_state) (cyc PIX_TABLE_SIZE idx m) <> 0) /\
    pix_slot (pix_table cluster_state) (cyc PIX_TABLE_SIZE idx (S len)) = 0 /\
    remove_by_run (accounts cluster_state) (pix_table cluster_state) idx len
      = Some tbl'.
Proof.
  apply (pix_remove_keeps_others cluster_state "k171" 1).
  - exact cluster_state_reachable.
  - lia.
  - vm_compute. reflexivity.
Defined.

(** The same scenario evaluated: the three keys share the home slot, and
    after the removal of B both A and C are found. *)
Example cluster_scenario :
  let accs := accounts cluster_state in
  let tbl := pix_table cluster_state in
  (pix_home "k96", pix_home "k171", pix_home "k218")
    = (2047%nat, 2047%nat, 2047%nat) /\
  (pix_find accs tbl "k96", pix_find accs tbl "k171", pix_find accs tbl "k218")
    = (Some 0, Some 1, Some 2) /\
  (pix_slot tbl 2047, pix_slot tbl 0, pix_slot tbl 1, pix_slot tbl 2)
    = (1, 2, 3, 0) /\
  pix_remove accs tbl "k171" = Some cluster_after /\
  (pix_slot cluster_after 2047, pix_slot cluster_after 0,
   pix_slot cluster_after 1) = (1, 3, 0) /\
  (pix_find accs cluster_after "k96", pix_find accs cluster_after "k171",
   pix_find accs cluster_after "k218") = (Some 0, Some (-1), Some 2).
Proof. vm_compute. repeat split. Qed.

(** ** Setting the PIX key *)

(** C8. In every reachable state, for the account [my] and a line [pix]
    read by the menu: if [pix] is indexed to a different account, the
    operation answers "already registered" and the state (the alias field
    and the index) is unchanged; if [pix] is the alias the account already
    holds, the operation succeeds and afterwards [pix_find] returns on
    every key what it returned before, although the entry was removed and
    reinserted, and every account has the alias it had. *)
Theorem set_pix_conflict_and_same st my pix :
  reachable st -> valid_op st (Op_set_pix my pix) ->
  (forall other, 0 <= other -> other <> Z.of_nat my ->
     pix_find (accounts st) (pix_table st) pix = Some other ->
     menu_set_pix st my pix = Some (st, Pix_taken)) /\
  (pix <> "" -> pix_key <$> accounts st !! my = Some pix ->
   exists st',
     menu_set_pix st my pix = Some (st', Done) /\
     (forall key, pix_find (accounts st') (pix_table st') key =
                  pix_find (accounts st) (pix_table st) key) /\
     (forall j b, accounts st !! j = Some b ->
        exists b', accounts st' !! j = Some b' /\ pix_key b' = pix_key b)).
Proof.
  intros Hreach [Hmy Hlen]. pose proof (reachable_index_inv st Hreach) as Hinv.
  destruct (lookup_lt_is_Some_2 (accounts st) my Hmy) as [a Ha]. split.
  - intros other H0 Hne Hf. unfold menu_set_pix. rewrite Ha.
    destruct (String.eqb_spec pix "") as [->|_].
    { unfold pix_find in Hf. simpl in Hf. injection Hf as <-. lia. }
    rewrite Hf. destruct (Z.geb_spec other 0); [|lia].
    destruct (Z.eqb_spec other (Z.of_nat my)); [lia|]. done.
  - intros Hne Hown. rewrite Ha in Hown. injection Hown as Hown.
    destruct (menu_set_pix_spec st my a pix Hinv Ha Hlen)
      as [[-> _]|[(j & b & Hj & Hb & Ek & _ & _)|(_ & _ & tbl' & Hr & Hinv')]].
    + done.
    + exfalso. apply Hj. apply (index_keys_unique st j my b a Hinv); congruence.
    + eexists. split; [exact Hr|].
      assert (Hs : same_keys (accounts st)
                (<[my := log_account_tx (set_pix_key a pix) TX_MISC 0
                            "PIX key set/updated"]> (accounts st))).
      { eapply same_keys_insert; [done|by account_fields|by account_fields]. }
      split.
      * intros key. by apply (index_find_same_keys st _ key Hinv Hinv').
      * intros j b Hb. destruct Hs as [_ Hs].
        destruct (Hs j b Hb) as (b' & Hb' & Ek & _). eauto.
Qed.

(** Account 1 of [cluster_state] sets the key it holds, "k171". *)
Lemma set_pix_conflict_and_same_witness :
  (forall other, 0 <= other -> other <> Z.of_nat 1 ->
     pix_find (accounts cluster_state) (pix_table cluster_state) "k171"
       = Some other ->
     menu_set_pix cluster_state 1 "k171" = Some (cluster_state, Pix_taken)) /\
  ("k171" <> "" -> pix_key <$> accounts cluster_state !! 1%nat = Some "k171" ->
   exists st',
     menu_set_pix cluster_state 1 "k171" = Some (st', Done) /\
     (forall key, pix_find (accounts st') (pix_table st') key =
                  pix_find (accounts cluster_state) (pix_table cluster_state) key) /\
     (forall j b, accounts cluster_state !! j = Some b ->
        exists b', accounts st' !! j = Some b' /\ pix_key b' = pix_key b)).
Proof.
  apply (set_pix_conflict_and_same cluster_state 1 "k171").
  - exact cluster_state_reachable.
  - split; vm_compute; lia.
Defined.

(** Account 0 of [cluster_state] asks for "k171", which account 1 holds;
    and account 1 asks for it again. *)
Example set_pix_scenario :
  (fun r => snd <$> r) (menu_set_pix cluster_state 0 "k171") = Some Pix_taken /\
  (fun r => snd <$> r) (menu_set_pix cluster_state 1 "k171") = Some Done /\
  (fun r => (fun s => pix_find (accounts s) (pix_table s) "k171") <$> (fst <$> r))
    (menu_set_pix cluster_state 1 "k171") = Some (Some 1).
Proof. vm_compute. repeat split. Qed.

(** ** Machine arithmetic *)

Lemma wrap64_id z : in_int64 z -> wrap64 z = z.
Proof.
  unfold in_int64, INT64_MIN, INT64_MAX, wrap64. intros H.
  rewrite Z.mod_small; lia.
Qed.

Lemma wrap64_range z : in_int64 (wrap64 z).
Proof.
  unfold in_int64, INT64_MIN, INT64_MAX, wrap64.
  pose proof (Z.mod_pos_bound (z + 2 ^ 63) (2 ^ 64)). lia.
Qed.

(** ** Single-account operations *)

Lemma deposit_spec a amount :
  (amount <= 0 -> deposit a amount = (a, Invalid_amount)) /\
  (0 < amount ->
   deposit a amount =
     (log_account_tx (set_balance a (wrap64 (balance a + amount)))
        TX_DEPOSIT amount (note_deposit amount), Done)).
Proof.
  unfold deposit. destruct (Z.leb_spec amount 0); split; try lia; done.
Qed.

Lemma withdraw_spec a amount :
  (amount <= 0 -> withdraw_ a amount = (a, Invalid_amount)) /\
  (0 < amount -> amount <= balance a ->
   withdraw_ a amount =
     (log_account_tx (set_balance a (wrap64 (balance a - amount)))
        TX_WITHDRAW amount (note_withdraw amount), Done)) /\
  (0 < amount -> balance a < amount ->
   withdraw_ a amount = (a, Insufficient_funds)).
Proof.
  unfold withdraw_. destruct (Z.leb_spec amount 0);
    destruct (Z.leb_spec amount (balance a)); repeat split; try lia; done.
Qed.

Lemma credit_advance_spec a amount :
  (amount <= wrap64 (credit_limit a - credit_used a) ->
   credit_advance a amount =
     (log_account_tx
        (set_balance (set_credit_used a (wrap64 (credit_used a + amount)))
                     (wrap64 (balance a + amount)))
        TX_CREDIT_ADV amount (note_credit amount), Done)) /\
  (wrap64 (credit_limit a - credit_used a) < amount ->
   credit_advance a amount = (a, Not_enough_credit)).
Proof.
  unfold credit_advance.
  destruct (Z.leb_spec amount (wrap64 (credit_limit a - credit_used a)));
    split; try lia; done.
Qed.

(** ** Transfers *)

Lemma find_names_account st pix t :
  pix_find (accounts st) (pix_table st) pix = Some t -> 0 <= t ->
  exists b, accounts st !! Z.to_nat t = Some b /\ pix_key b = pix /\ pix <> "".
Proof.
  intros Hf Ht. destruct (pix_find_sound _ _ _ _ Hf Ht) as (p & Hp & Sp & Kp).
  apply entry_key_account in Kp as (j & b & Sp' & Hb & Ek & Hne).
  exists b. replace (Z.to_nat t) with j by lia. done.
Qed.

(** The four writes of a successful transfer, seen on the array. *)
Lemma transfer_writes (accs : list Account) i t a b amount :
  accs !! i = Some a -> accs !! t = Some b -> t <> i ->
  let accs1 := alter (fun a => set_balance a (wrap64 (balance a - amount))) i accs in
  let accs2 := alter (fun g => set_balance g (wrap64 (balance g + amount))) t accs1 in
  let note_out := note_transfer_out amount (from_option username "" (accs2 !! t)) in
  let note_in := note_transfer_in amount (from_option username "" (accs2 !! i)) in
  alter (fun g => log_account_tx g TX_TRANSFER_IN amount note_in) t
    (alter (fun a => log_account_tx a TX_TRANSFER_OUT amount note_out) i accs2) =
  <[t := log_account_tx (set_balance b (wrap64 (balance b + amount)))
           TX_TRANSFER_IN amount (note_transfer_in amount (username a))]>
    (<[i := log_account_tx (set_balance a (wrap64 (balance a - amount)))
             TX_TRANSFER_OUT amount (note_transfer_out amount (username b))]> accs).
Proof.
  intros Ha Hb Hne accs1 accs2 note_out note_in.
  assert (H2t : accs2 !! t = Some (set_balance b (wrap64 (balance b + amount)))).
  { unfold accs2, accs1. rewrite list_lookup_alter_eq, list_lookup_alter_ne by done.
    by rewrite Hb. }
  assert (H2i : accs2 !! i = Some (set_balance a (wrap64 (balance a - amount)))).
  { unfold accs2, accs1. rewrite list_lookup_alter_ne, list_lookup_alter_eq by done.
    by rewrite Ha. }
  unfold note_out, note_in. rewrite H2t, H2i. cbn [from_option username set_balance].
  apply list_eq. intros j.
  destruct (decide (j = t)) as [->|Hjt].
  - rewrite list_lookup_alter_eq, list_lookup_alter_ne, H2t by done.
    rewrite list_lookup_insert_eq; [done|].
    rewrite length_insert. by eapply lookup_lt_Some.
  - rewrite list_lookup_alter_ne, list_lookup_insert_ne by done.
    destruct (decide (j = i)) as [->|Hji].
    + rewrite list_lookup_alter_eq, H2i.
      rewrite list_lookup_insert_eq; [done|]. by eapply lookup_lt_Some.
    + rewrite list_lookup_alter_ne, list_lookup_insert_ne by done.
      unfold accs2, accs1. by rewrite !list_lookup_alter_ne.
Qed.

(** What a call of [transfer_] does, in a state that satisfies the index
    invariant. *)
Lemma transfer_cases st i a amount pix :
  index_inv st -> accounts st !! i = Some a ->
  (pix_key a = "" /\ transfer_ st i amount pix = Some (st, Own_pix_unset)) \/
  (pix_key a <> "" /\ amount <= 0 /\
   transfer_ st i amount pix = Some (st, Invalid_amount)) \/
  (pix_key a <> "" /\ 0 < amount /\ pix = pix_key a /\
   transfer_ st i amount pix =
     Some (mk_state (<[i := (credit_advance a amount).1]> (accounts st))
                    (pix_table st), (credit_advance a amount).2)) \/
  (pix_key a <> "" /\ 0 < amount /\ pix <> pix_key a /\
   pix_find (accounts st) (pix_table st) pix = Some (-1) /\
   transfer_ st i amount pix = Some (st, Target_not_found)) \/
  (pix_key a <> "" /\ 0 < amount /\ pix <> pix_key a /\
   exists t b, pix_find (accounts st) (pix_table st) pix = Some (Z.of_nat t) /\
     accounts st !! t = Some b /\ t <> i /\ pix_key b = pix /\
     ((balance a < amount /\
       transfer_ st i amount pix = Some (st, Insufficient_funds)) \/
      (amount <= balance a /\
       transfer_ st i amount pix =
         Some (mk_state
           (<[t := log_account_tx (set_balance b (wrap64 (balance b + amount)))
                     TX_TRANSFER_IN amount (note_transfer_in amount (username a))]>
              (<[i := log_account_tx (set_balance a (wrap64 (balance a - amount)))
                        TX_TRANSFER_OUT amount
                        (note_transfer_out amount (username b))]> (accounts st)))
           (pix_table st), Done)))).
Proof.
  intros Hinv Ha. unfold transfer_. rewrite Ha.
  destruct (String.eqb_spec (pix_key a) "") as [Ek|Nk]; [by left|]. right.
  destruct (Z.leb_spec amount 0) as [Hle|Hpos]; [by left|]. right.
  destruct (String.eqb_spec pix (pix_key a)) as [Ep|Np].
  { left. by destruct (credit_advance a amount). }
  right.
  destruct (index_find_cases st pix Hinv) as [[Hf _]|(t & b & Hb & Ek & Hne & Hf)];
    rewrite Hf.
  { left. done. }
  right. split; [done|]. split; [done|]. split; [done|].
  destruct (Z.ltb_spec (Z.of_nat t) 0); [lia|].
  assert (Hti : t <> i) by (intros ->; congruence).
  exists t, b. split; [done|]. split; [done|]. split; [done|]. split; [done|].
  rewrite Nat2Z.id.
  destruct (Z.leb_spec amount (balance a)); [right|left; by split].
  split; [done|]. cbv zeta.
  by rewrite <- (transfer_writes (accounts st) i t a b amount Ha Hb Hti).
Qed.

(** ** Every field stays a [cents_t], the credit used stays below the limit *)

Lemma account_ok_log a ty amt note :
  account_ok a -> account_ok (log_account_tx a ty amt note).
Proof. done. Qed.

Lemma account_ok_balance a z :
  account_ok a -> account_ok (set_balance a (wrap64 z)).
Proof.
  intros (_ & H). split; [|done]. account_fields. apply wrap64_range.
Qed.

Lemma account_ok_deposit a amount : account_ok a -> account_ok (deposit a amount).1.
Proof.
  intros H. unfold deposit. destruct (amount <=? 0); [done|]. cbn [fst].
  by apply account_ok_log, account_ok_balance.
Qed.

Lemma account_ok_withdraw a amount :
  account_ok a -> account_ok (withdraw_ a amount).1.
Proof.
  intros H. unfold withdraw_. destruct (amount <=? 0); [done|].
  destruct (amount <=? balance a); [|done]. cbn [fst].
  by apply account_ok_log, account_ok_balance.
Qed.

Lemma credit_available a : account_ok a ->
  wrap64 (credit_limit a - credit_used a) = credit_limit a - credit_used a.
Proof.
  intros (_ & H0 & H1 & H2). apply wrap64_id.
  unfold in_int64, INT64_MIN, INT64_MAX in *. lia.
Qed.

Lemma credit_advance_used a amount :
  account_ok a -> 0 < amount -> amount <= credit_limit a - credit_used a ->
  wrap64 (credit_used a + amount) = credit_used a + amount.
Proof.
  intros (_ & H0 & H1 & H2) Hpos Hle. apply wrap64_id.
  unfold in_int64, INT64_MIN, INT64_MAX in *. lia.
Qed.

Lemma account_ok_credit_advance a amount :
  account_ok a -> 0 < amount -> account_ok (credit_advance a amount).1.
Proof.
  intros H Hpos. pose proof H as (Hb & H0 & H1 & H2).
  destruct (credit_advance_spec a amount) as [Hs Hf].
  destruct (Z.le_gt_cases amount (wrap64 (credit_limit a - credit_used a)))
    as [Hle|Hgt].
  - rewrite Hs by done. cbn [fst]. apply account_ok_log.
    rewrite credit_available in Hle by done.
    rewrite credit_advance_used by done.
    split; [apply wrap64_range|]. account_fields. lia.
  - by rewrite Hf.
Qed.

Lemma account_ok_change_credit_limit a nl :
  account_ok a -> in_int64 nl -> account_ok (change_credit_limit a nl).1.
Proof.
  intros (Hb & H0 & H1 & H2) [_ Hnl]. unfold change_credit_limit.
  destruct (Z.geb_spec nl (credit_used a)); [|done]. cbn [fst].
  apply account_ok_log. split; [done|]. account_fields. lia.
Qed.

Lemma account_ok_change_password a oldp newp :
  account_ok a -> account_ok (change_password a oldp newp).1.
Proof.
  intros H. unfold change_password. destruct (negb _); [done|].
  by destruct (newp =? "")%string.
Qed.

Lemma account_ok_new name pass ag : account_ok (new_account name pass ag).
Proof.
  unfold account_ok, in_int64, INT64_MIN, INT64_MAX, new_account.
  account_fields. lia.
Qed.

Lemma account_ok_sample name key : account_ok (sample_account name key).
Proof.
  unfold account_ok, in_int64, INT64_MIN, INT64_MAX, sample_account.
  account_fields. lia.
Qed.

Lemma on_account_cases st i f st' out :
  on_account st i f = Some (st', out) ->
  exists a, accounts st !! i = Some a /\
    st' = mk_state (<[i := (f a).1]> (accounts st)) (pix_table st) /\
    out = (f a).2.
Proof.
  unfold on_account. destruct (accounts st !! i) as [a|] eqn:Ha; [|done].
  destruct (f a) as [a' o] eqn:Ef. intros [= <- <-]. exists a. by rewrite Ef.
Qed.

Lemma sign_up_cases st name pass ag :
  (sign_up st name pass ag).1 = st \/
  ((account_count st < MAX_ACCOUNTS)%nat /\
   sign_up st name pass ag =
     (mk_state (accounts st ++ [new_account name pass ag])%list (pix_table st),
      Done)).
Proof.
  unfold sign_up. destruct (name =? "")%string; [by left|].
  destruct (find_account_by_name st name >=? 0); [by left|].
  destruct (ag =? "")%string; [by left|].
  destruct (Nat.leb_spec MAX_ACCOUNTS (account_count st)); [by left|by right].
Qed.

Lemma boot_state_accounts st :
  boot_state = Some st ->
  accounts st = [sample_account "user1" "user1pix"; sample_account "user2" "user2pix"].
Proof.
  unfold boot_state, init_sample_accounts.
  change (MAX_ACCOUNTS <? account_count zero_state + 2)%nat with false. cbv iota.
  destruct (pix_insert _ _ _ _) as [tbl1|]; [|done].
  destruct (pix_insert _ _ _ _) as [tbl2|]; [|done].
  by intros [= <-].
Qed.

Lemma run_accounts_ok st o st' out :
  index_inv st -> Forall account_ok (accounts st) -> valid_op st o ->
  run st o = Some (st', out) -> Forall account_ok (accounts st').
Proof.
  intros Hinv Hok Hv.
  destruct o as [name pass ag|i amt|i amt|i amt pix|i pix|i nl|i oldp newp];
    cbn [run valid_op] in *.
  - intros [= Hr]. destruct (sign_up_cases st name pass ag) as [E|[_ E]].
    + rewrite Hr in E. cbn [fst] in E. by subst.
    + rewrite Hr in E. injection E as -> ->. cbn [accounts].
      apply Forall_app_2; [done|]. apply Forall_singleton, account_ok_new.
  - intros (a & Ha & -> & _)%on_account_cases. cbn [accounts].
    apply Forall_insert; [done|]. apply account_ok_deposit.
    by eapply Forall_lookup_1.
  - intros (a & Ha & -> & _)%on_account_cases. cbn [accounts].
    apply Forall_insert; [done|]. apply account_ok_withdraw.
    by eapply Forall_lookup_1.
  - destruct Hv as [Hi _]. destruct (lookup_lt_is_Some_2 (accounts st) i Hi) as [a Ha].
    pose proof (Forall_lookup_1 _ _ _ _ Hok Ha) as Hoka.
    destruct (transfer_cases st i a amt pix Hinv Ha)
      as [[_ E]|[(_ & _ & E)|[(_ & Hpos & _ & E)|[(_ & _ & _ & _ & E)|
          (_ & _ & _ & t & b & _ & Hb & _ & _ & [[_ E]|[_ E]])]]]];
      rewrite E; intros [= <- <-]; try done; cbn [accounts].
    + apply Forall_insert; [done|]. by apply account_ok_credit_advance.
    + pose proof (Forall_lookup_1 _ _ _ _ Hok Hb) as Hokb.
      apply Forall_insert; [apply Forall_insert; [done|]|];
        by apply account_ok_log, account_ok_balance.
  - destruct Hv as [Hi Hlen].
    destruct (lookup_lt_is_Some_2 (accounts st) i Hi) as [a Ha].
    pose proof (Forall_lookup_1 _ _ _ _ Hok Ha) as Hoka.
    destruct (menu_set_pix_spec st i a pix Hinv Ha Hlen)
      as [[_ Hr]|[(j & b & _ & _ & _ & _ & Hr)|(_ & _ & tbl' & Hr & _)]];
      rewrite Hr; intros [= <- <-]; try done; cbn [accounts].
    apply Forall_insert; [done|]. done.
  - destruct Hv as [_ Hnl]. intros (a & Ha & -> & _)%on_account_cases.
    cbn [accounts]. apply Forall_insert; [done|].
    apply account_ok_change_credit_limit; [|done]. by eapply Forall_lookup_1.
  - intros (a & Ha & -> & _)%on_account_cases. cbn [accounts].
    apply Forall_insert; [done|]. apply account_ok_change_password.
    by eapply Forall_lookup_1.
Qed.

Theorem reachable_accounts_ok st : reachable st -> Forall account_ok (accounts st).
Proof.
  induction 1 as [st Hb|st o st' Hr IH Hv Hs].
  - rewrite (boot_state_accounts st Hb).
    repeat constructor; apply account_ok_sample.
  - apply step_run in Hs as (out & Hrun).
    eapply run_accounts_ok; [by apply reachable_index_inv|done|done|done].
Qed.

(** ** Withdrawals *)

(** C5 (amended).  For every account, whose balance is a [cents_t], and
    every amount > 0: a withdrawal succeeds exactly when the amount is at
    most the balance; it then lowers the balance by the amount and logs one
    WITHDRAW record; otherwise it reports insufficient funds and leaves the
    account as it is.  A deposit followed by a withdrawal of the same
    amount gives back the balance, provided the balance is not negative and
    the deposit does not take it above 2^63 - 1. *)
Theorem withdraw_checks_balance a amount :
  in_int64 (balance a) -> 0 < amount ->
  ((withdraw_ a amount).2 = Done <-> amount <= balance a) /\
  (amount <= balance a ->
     withdraw_ a amount =
       (log_account_tx (set_balance a (balance a - amount))
          TX_WITHDRAW amount (note_withdraw amount), Done)) /\
  (balance a < amount -> withdraw_ a amount = (a, Insufficient_funds)) /\
  (0 <= balance a -> balance a + amount <= INT64_MAX ->
     (deposit a amount).2 = Done /\
     (withdraw_ (deposit a amount).1 amount).2 = Done /\
     balance (withdraw_ (deposit a amount).1 amount).1 = balance a).
Proof.
  intros Hb Hpos. destruct (withdraw_spec a amount) as (_ & Hok & Hfail).
  assert (Hok' : amount <= balance a ->
     withdraw_ a amount =
       (log_account_tx (set_balance a (balance a - amount))
          TX_WITHDRAW amount (note_withdraw amount), Done)).
  { intros Hle. rewrite Hok by done. rewrite wrap64_id; [done|].
    unfold in_int64, INT64_MIN, INT64_MAX in *. lia. }
  split; [|split; [done|split; [by apply Hfail|]]].
  - split.
    + intros Hd. destruct (Z.le_gt_cases amount (balance a)) as [|Hgt]; [done|].
      rewrite Hfail in Hd by lia. done.
    + intros Hle. by rewrite Hok'.
  - intros H0 Hmax. destruct (deposit_spec a amount) as [_ Hdep].
    rewrite Hdep by done. cbn [fst snd]. split; [done|].
    destruct (withdraw_spec
      (log_account_tx (set_balance a (wrap64 (balance a + amount)))
         TX_DEPOSIT amount (note_deposit amount)) amount) as (_ & Hw & _).
    rewrite wrap64_id in * by (unfold in_int64, INT64_MIN, INT64_MAX in *; lia).
    rewrite Hw; account_fields; [|done|lia]. split; [done|].
    rewrite wrap64_id by (unfold in_int64, INT64_MIN, INT64_MAX in *; lia). lia.
Qed.

Lemma withdraw_checks_balance_witness :
  let a := sample_account "user1" "user1pix" in
  ((withdraw_ a 500).2 = Done <-> 500 <= balance a) /\
  (500 <= balance a ->
     withdraw_ a 500 =
       (log_account_tx (set_balance a (balance a - 500))
          TX_WITHDRAW 500 (note_withdraw 500), Done)) /\
  (balance a < 500 -> withdraw_ a 500 = (a, Insufficient_funds)) /\
  (0 <= balance a -> balance a + 500 <= INT64_MAX ->
     (deposit a 500).2 = Done /\
     (withdraw_ (deposit a 500).1 500).2 = Done /\
     balance (withdraw_ (deposit a 500).1 500).1 = balance a).
Proof.
  apply (withdraw_checks_balance (sample_account "user1" "user1pix") 500).
  - vm_compute. split; discriminate.
  - lia.
Defined.

Lemma full_state_reachable : reachable full_state.
Proof. apply (exec_from_boot_reachable full_ops). by vm_compute. Qed.

(** The amounts of [full_ops] are amounts the menu can read. *)
Example largest_amount_parses :
  parse_money_to_cents "92233720368547758.07" = Some INT64_MAX.
Proof. vm_compute. reflexivity. Qed.

(** The claim as stated fails when the deposit wraps: user 2 of
    [full_state] holds 2^63 - 1 cents; a deposit of one cent succeeds and
    leaves -2^63, and the withdrawal of one cent is refused. *)
Lemma deposit_withdraw_wraps :
  reachable full_state /\
  exists a, accounts full_state !! 1%nat = Some a /\
    balance a = INT64_MAX /\ 0 < 1 /\
    (deposit a 1).2 = Done /\
    (withdraw_ (deposit a 1).1 1).2 = Insufficient_funds /\
    balance (withdraw_ (deposit a 1).1 1).1 = INT64_MIN /\
    balance (withdraw_ (deposit a 1).1 1).1 <> balance a.
Proof.
  split; [exact full_state_reachable|]. eexists. split; [vm_compute; reflexivity|].
  vm_compute. repeat split; discriminate.
Qed.

(** ** Balances *)

Lemma reachable_in_range_reachable st : reachable_in_range st -> reachable st.
Proof.
  induction 1 as [st Hb|st o st' _ IH Hv _ Hs].
  - by apply reachable_boot.
  - by eapply reachable_step.
Qed.

Lemma run_balances_nonneg st o st' out :
  index_inv st -> Forall account_ok (accounts st) -> balances_nonneg st ->
  valid_op st o -> no_overflow st o ->
  run st o = Some (st', out) -> balances_nonneg st'.
Proof.
  unfold balances_nonneg. intros Hinv Hok Hnn Hv Hno.
  destruct o as [name pass ag|i amt|i amt|i amt pix|i pix|i nl|i oldp newp];
    cbn [run valid_op no_overflow] in *.
  - intros [= Hr]. destruct (sign_up_cases st name pass ag) as [E|[_ E]].
    + rewrite Hr in E. cbn [fst] in E. by subst.
    + rewrite Hr in E. injection E as -> ->. cbn [accounts].
      apply Forall_app_2; [done|]. by apply Forall_singleton.
  - intros (a & Ha & -> & _)%on_account_cases. cbn [accounts].
    apply Forall_insert; [done|].
    pose proof (Forall_lookup_1 _ _ _ _ Hnn Ha) as H0. cbv beta in H0.
    destruct (deposit_spec a amt) as [Hd1 Hd2].
    destruct (Z.le_gt_cases amt 0); [by rewrite Hd1|].
    rewrite Hd2 by lia. account_fields. specialize (Hno a Ha ltac:(lia)).
    rewrite wrap64_id; [lia|]. unfold in_int64, INT64_MIN, INT64_MAX in *. lia.
  - intros (a & Ha & -> & _)%on_account_cases. cbn [accounts].
    apply Forall_insert; [done|].
    pose proof (Forall_lookup_1 _ _ _ _ Hnn Ha) as H0. cbv beta in H0.
    pose proof (Forall_lookup_1 _ _ _ _ Hok Ha) as (Hb & _).
    destruct (withdraw_spec a amt) as (Hw1 & Hw2 & Hw3).
    destruct (Z.le_gt_cases amt 0); [by rewrite Hw1|].
    destruct (Z.le_gt_cases amt (balance a)); [|by rewrite Hw3].
    rewrite Hw2 by lia. account_fields.
    rewrite wrap64_id; [lia|]. unfold in_int64, INT64_MIN, INT64_MAX in *. lia.
  - destruct Hv as [Hi _]. destruct (lookup_lt_is_Some_2 (accounts st) i Hi) as [a Ha].
    pose proof (Forall_lookup_1 _ _ _ _ Hnn Ha) as H0. cbv beta in H0.
    pose proof (Forall_lookup_1 _ _ _ _ Hok Ha) as Hoka.
    specialize (Hno a Ha).
    destruct (transfer_cases st i a amt pix Hinv Ha)
      as [[_ E]|[(_ & _ & E)|[(Nk & Hpos & Ep & E)|[(_ & _ & _ & _ & E)|
          (Nk & Hpos & Np & t & b & Hf & Hb & _ & _ & [[_ E]|[Hle E]])]]]];
      rewrite E; intros [= <- <-]; try done; cbn [accounts].
    + apply Forall_insert; [done|]. specialize (Hno Nk Hpos).
      destruct (String.eqb_spec pix (pix_key a)); [|done].
      destruct (credit_advance_spec a amt) as [Hs Hf].
      destruct (Z.le_gt_cases amt (wrap64 (credit_limit a - credit_used a)));
        [|by rewrite Hf].
      rewrite Hs by done. account_fields. specialize (Hno ltac:(done)).
      rewrite wrap64_id; [lia|]. unfold in_int64, INT64_MIN, INT64_MAX in *. lia.
    + specialize (Hno Nk Hpos).
      destruct (String.eqb_spec pix (pix_key a)); [done|].
      specialize (Hno (Z.of_nat t) b Hf ltac:(lia)). rewrite Nat2Z.id in Hno.
      specialize (Hno Hb Hle).
      pose proof (Forall_lookup_1 _ _ _ _ Hnn Hb) as H0b. cbv beta in H0b.
      destruct Hoka as (Hba & _).
      apply Forall_insert; [apply Forall_insert; [done|]|]; account_fields;
        (rewrite wrap64_id; [lia|]); unfold in_int64, INT64_MIN, INT64_MAX in *; lia.
  - destruct Hv as [Hi Hlen].
    destruct (lookup_lt_is_Some_2 (accounts st) i Hi) as [a Ha].
    pose proof (Forall_lookup_1 _ _ _ _ Hnn Ha) as H0. cbv beta in H0.
    destruct (menu_set_pix_spec st i a pix Hinv Ha Hlen)
      as [[_ Hr]|[(j & b & _ & _ & _ & _ & Hr)|(_ & _ & tbl' & Hr & _)]];
      rewrite Hr; intros [= <- <-]; try done; cbn [accounts].
    apply Forall_insert; [done|]. done.
  - intros (a & Ha & -> & _)%on_account_cases. cbn [accounts].
    apply Forall_insert; [done|].
    pose proof (Forall_lookup_1 _ _ _ _ Hnn Ha) as H0. cbv beta in H0.
    unfold change_credit_limit. by destruct (nl >=? credit_used a).
  - intros (a & Ha & -> & _)%on_account_cases. cbn [accounts].
    apply Forall_insert; [done|].
    pose proof (Forall_lookup_1 _ _ _ _ Hnn Ha) as H0. cbv beta in H0.
    unfold change_password. destruct (negb _); [done|].
    by destruct (newp =? "")%string.
Qed.

(** C6 (amended).  In every state reached by operations none of which
    takes a balance above 2^63 - 1, every account has a balance >= 0:
    accounts start at 0, a withdrawal and the sender side of a transfer
    first check [amount <= balance], and a deposit, a credit advance and
    the receiver side of a transfer add an amount > 0. *)
Theorem balance_never_negative st :
  reachable_in_range st -> balances_nonneg st.
Proof.
  induction 1 as [st Hb|st o st' Hr IH Hv Hno Hs].
  - unfold balances_nonneg. rewrite (boot_state_accounts st Hb).
    by repeat constructor.
  - apply step_run in Hs as (out & Hrun).
    pose proof (reachable_in_range_reachable _ Hr) as Hreach.
    eapply run_balances_nonneg; [by apply reachable_index_inv|
      by apply reachable_accounts_ok|done|done|done|done].
Qed.

Lemma no_overflowb_true st o : no_overflowb st o = true -> no_overflow st o.
Proof.
  destruct o as [name pass ag|i amt|i amt|i amt pix|i pix|i nl|i oldp newp];
    cbn [no_overflowb no_overflow]; try done.
  - intros H a Ha _. rewrite Ha in H. lia.
  - intros H a Ha _ _. rewrite Ha in H.
    destruct (pix =? pix_key a)%string; [lia|].
    intros t b Hf _ Hb _. rewrite Hf, Hb in H. lia.
Qed.

Lemma exec_in_range_sound ops : forall st st',
  reachable_in_range st -> exec_in_range st ops = Some st' ->
  reachable_in_range st'.
Proof.
  induction ops as [|o ops IH]; intros st st' Hr; cbn [exec_in_range].
  - by intros [= <-].
  - destruct (valid_opb st o && no_overflowb st o) eqn:Hv; [|done].
    apply andb_prop in Hv as [Hv Hno].
    destruct (step st o) as [st1|] eqn:Hs; [|done].
    apply IH. eapply in_range_step;
      [done|by apply valid_opb_true|by apply no_overflowb_true|done].
Qed.

Lemma paid_state_in_range : reachable_in_range paid_state.
Proof.
  assert (Hb : boot_state = Some boot) by (by vm_compute).
  apply (exec_in_range_sound paid_ops boot); [by apply in_range_boot|].
  by vm_compute.
Qed.

(** User 1 deposits 10.00 and transfers 3.00 to user 2. *)
Lemma balance_never_negative_witness : balances_nonneg paid_state.
Proof.
  apply (balance_never_negative paid_state).
  exact paid_state_in_range.
Defined.

Lemma wrapped_state_reachable : reachable wrapped_state.
Proof. apply (exec_from_boot_reachable wrapped_ops). by vm_compute. Qed.

(** The claim as stated fails: after a deposit of 2^63 - 1 cents and one
    of a single cent, the balance of user 2 is -2^63. *)
Lemma balance_wraps_negative :
  reachable wrapped_state /\ balance_of wrapped_state 1 = INT64_MIN /\
  ~ balances_nonneg wrapped_state.
Proof.
  split; [exact wrapped_state_reachable|]. split; [by vm_compute|].
  unfold balances_nonneg. intros H.
  assert (Hl : exists a, accounts wrapped_state !! 1%nat = Some a /\ balance a < 0).
  { eexists. split; [vm_compute; reflexivity|]. by vm_compute. }
  destruct Hl as (a & Ha & Hneg).
  pose proof (Forall_lookup_1 _ _ _ _ H Ha) as H0. cbv beta in H0. lia.
Qed.

(** ** The credit line *)

(** C7.  In every reachable state every account has
    [0 <= credit_used <= credit_limit]: a credit advance succeeds only
    when the amount is at most [credit_limit - credit_used], and
    [change_credit_limit] rejects every new limit below the credit used, in
    particular every negative one. *)
Theorem credit_used_within_limit st :
  reachable st ->
  Forall (fun a => 0 <= credit_used a <= credit_limit a) (accounts st) /\
  (forall a nl, nl < credit_used a ->
     change_credit_limit a nl = (a, Limit_below_used)) /\
  (forall a nl, a ∈ accounts st -> nl < 0 ->
     change_credit_limit a nl = (a, Limit_below_used)) /\
  (forall a amount, a ∈ accounts st -> (credit_advance a amount).2 = Done ->
     amount <= credit_limit a - credit_used a).
Proof.
  intros Hreach. pose proof (reachable_accounts_ok st Hreach) as Hok.
  assert (Hrej : forall a nl, nl < credit_used a ->
            change_credit_limit a nl = (a, Limit_below_used)).
  { intros a nl Hlt. unfold change_credit_limit.
    destruct (Z.geb_spec nl (credit_used a)); [lia|done]. }
  split; [|split; [done|split]].
  - eapply Forall_impl; [exact Hok|]. intros a (_ & H0 & H1 & _). lia.
  - intros a nl Hin Hneg. apply Hrej.
    apply (proj1 (Forall_forall _ _) Hok) in Hin as (_ & H0 & _). lia.
  - intros a amount Hin Hd.
    apply (proj1 (Forall_forall _ _) Hok) in Hin as Hoka.
    destruct (credit_advance_spec a amount) as [_ Hf].
    destruct (Z.le_gt_cases amount (wrap64 (credit_limit a - credit_used a)))
      as [Hle|Hgt].
    + by rewrite credit_available in Hle.
    + rewrite Hf in Hd by done. done.
Qed.

Lemma credit_used_within_limit_witness :
  Forall (fun a => 0 <= credit_used a <= credit_limit a) (accounts cluster_state) /\
  (forall a nl, nl < credit_used a ->
     change_credit_limit a nl = (a, Limit_below_used)) /\
  (forall a nl, a ∈ accounts cluster_state -> nl < 0 ->
     change_credit_limit a nl = (a, Limit_below_used)) /\
  (forall a amount, a ∈ accounts cluster_state ->
     (credit_advance a amount).2 = Done ->
     amount <= credit_limit a - credit_used a).
Proof.
  apply (credit_used_within_limit cluster_state).
  exact cluster_state_reachable.
Defined.

Lemma credit_change_refl o i a : credit_change o i a a.
Proof. by left. Qed.

Lemma run_credit_change st o st' out :
  index_inv st -> Forall account_ok (accounts st) -> valid_op st o ->
  run st o = Some (st', out) ->
  forall i a, accounts st !! i = Some a ->
    exists a', accounts st' !! i = Some a' /\ credit_change o i a a'.
Proof.
  intros Hinv Hok Hv.
  assert (Hins : forall (accs : list Account) j x i a,
    accs !! i = Some a ->
    (i = j -> credit_change o i a x) ->
    exists a', <[j := x]> accs !! i = Some a' /\ credit_change o i a a').
  { intros accs j x i a Ha Hx. destruct (decide (i = j)) as [->|Hne].
    - exists x. rewrite list_lookup_insert_eq by (by eapply lookup_lt_Some). auto.
    - exists a. rewrite list_lookup_insert_ne by done. split; [done|by left]. }
  destruct o as [name pass ag|j amt|j amt|j amt pix|j pix|j nl|j oldp newp];
    cbn [run valid_op] in *.
  - intros [= Hr] i a Ha. destruct (sign_up_cases st name pass ag) as [E|[_ E]].
    + rewrite Hr in E. cbn [fst] in E. subst. exists a. split; [done|by left].
    + rewrite Hr in E. injection E as -> ->. cbn [accounts]. exists a.
      split; [|by left]. rewrite lookup_app_l; [done|by eapply lookup_lt_Some].
  - intros (b & Hb & -> & _)%on_account_cases i a Ha. cbn [accounts].
    apply Hins; [done|]. intros ->. assert (a = b) as -> by congruence.
    left. unfold deposit.
    by destruct (amt <=? 0).
  - intros (b & Hb & -> & _)%on_account_cases i a Ha. cbn [accounts].
    apply Hins; [done|]. intros ->. assert (a = b) as -> by congruence.
    left. unfold withdraw_.
    destruct (amt <=? 0); [done|]. by destruct (amt <=? balance b).
  - destruct Hv as [Hj _]. destruct (lookup_lt_is_Some_2 (accounts st) j Hj) as [b Hb].
    pose proof (Forall_lookup_1 _ _ _ _ Hok Hb) as Hokb.
    destruct (transfer_cases st j b amt pix Hinv Hb)
      as [[_ E]|[(_ & _ & E)|[(_ & Hpos & Ep & E)|[(_ & _ & _ & _ & E)|
          (_ & Hpos & Np & t & c & Hf & Hc & _ & _ & [[_ E]|[Hle E]])]]]];
      rewrite E; intros [= <- <-] i a Ha; cbn [accounts];
      try (exists a; split; [done|by left]).
    + apply Hins; [done|]. intros ->. assert (a = b) as -> by congruence.
      destruct (credit_advance_spec b amt) as [Hs Hfail].
      destruct (Z.le_gt_cases amt (wrap64 (credit_limit b - credit_used b)))
        as [Hok'|Hgt]; [|rewrite Hfail by done; by left].
      rewrite Hs by done. right. exists amt. split; [by rewrite Ep|].
      split; [done|]. account_fields. rewrite credit_available in Hok' by done.
      by apply credit_advance_used.
    + destruct (decide (i = t)) as [->|Hit].
      * eexists. rewrite list_lookup_insert_eq
          by (rewrite length_insert; by eapply lookup_lt_Some).
        split; [done|]. left. assert (a = c) as -> by congruence. done.
      * rewrite list_lookup_insert_ne by done. apply Hins; [done|].
        intros ->. left. assert (a = b) as -> by congruence. done.
  - destruct Hv as [Hj Hlen].
    destruct (lookup_lt_is_Some_2 (accounts st) j Hj) as [b Hb].
    destruct (menu_set_pix_spec st j b pix Hinv Hb Hlen)
      as [[_ Hr]|[(k & c & _ & _ & _ & _ & Hr)|(_ & _ & tbl' & Hr & _)]];
      rewrite Hr; intros [= <- <-] i a Ha; cbn [accounts];
      try (exists a; split; [done|by left]).
    apply Hins; [done|]. intros ->. assert (a = b) as -> by congruence.
    left. done.
  - intros (b & Hb & -> & _)%on_account_cases i a Ha. cbn [accounts].
    apply Hins; [done|]. intros ->. assert (a = b) as -> by congruence.
    left. unfold change_credit_limit.
    by destruct (nl >=? credit_used b).
  - intros (b & Hb & -> & _)%on_account_cases i a Ha. cbn [accounts].
    apply Hins; [done|]. intros ->. assert (a = b) as -> by congruence.
    left. unfold change_password.
    destruct (negb _); [done|]. by destruct (newp =? "")%string.
Qed.

(** C10.  No operation lowers the credit used: along every step from a
    reachable state each account is still there and its [credit_used] has
    not decreased; it is left as it was, except by a credit advance, which
    adds its positive amount.  No operation repays credit. *)
Theorem credit_used_never_decreases st o st' :
  reachable st -> valid_op st o -> step st o = Some st' ->
  forall i a, accounts st !! i = Some a ->
    exists a', accounts st' !! i = Some a' /\
      credit_used a <= credit_used a' /\ credit_change o i a a'.
Proof.
  intros Hreach Hv Hs i a Ha. apply step_run in Hs as (out & Hrun).
  destruct (run_credit_change st o st' out (reachable_index_inv _ Hreach)
              (reachable_accounts_ok _ Hreach) Hv Hrun i a Ha) as (a' & Ha' & Hc).
  exists a'. split; [done|]. split; [|done].
  destruct Hc as [->|(amount & _ & Hpos & ->)]; lia.
Qed.

(** User 1 draws 50.00 of credit in the state after boot. *)
Lemma credit_used_never_decreases_witness :
  exists a', accounts advanced_state !! 0%nat = Some a' /\
    credit_used (user1_of boot) <= credit_used a' /\
    credit_change (Op_transfer 0 5000 "user1pix") 0 (user1_of boot) a'.
Proof.
  apply (credit_used_never_decreases boot (Op_transfer 0 5000 "user1pix")
           advanced_state).
  - apply reachable_boot. by vm_compute.
  - split; [vm_compute; lia|]. split; [vm_compute; split; discriminate|].
    vm_compute. lia.
  - by vm_compute.
  - by vm_compute.
Defined.

(** ** Transfers to another alias *)

(** C3 (amended).  For the account [a] at slot [i] of a reachable state and
    a target alias different from its own: the transfer fails, leaving the
    state as it is, if the sender's alias is unset, or the target alias is
    not found, or the amount exceeds the sender's balance.  Otherwise
    (alias set, target found, 0 < amount <= balance) it succeeds: the
    receiver is another account, the sender's balance decreases by the
    amount, the receiver's balance becomes [wrap64 (balance + amount)],
    which is the balance increased by the amount whenever that does not
    exceed 2^63 - 1, a TRANSFER_OUT record is pushed on the sender's log
    and a TRANSFER_IN record on the receiver's, and nothing else
    changes. *)
Theorem transfer_to_other_alias st i a amount pix :
  reachable st -> accounts st !! i = Some a ->
  valid_op st (Op_transfer i amount pix) -> pix <> pix_key a ->
  (pix_key a = "" \/
   pix_find (accounts st) (pix_table st) pix = Some (-1) \/
   balance a < amount ->
   exists out, transfer_ st i amount pix = Some (st, out) /\ out <> Done) /\
  (pix_key a <> "" -> 0 < amount <= balance a ->
   forall t, 0 <= t -> pix_find (accounts st) (pix_table st) pix = Some t ->
   exists b, accounts st !! Z.to_nat t = Some b /\ Z.to_nat t <> i /\
     transfer_ st i amount pix =
       Some (mk_state
         (<[Z.to_nat t :=
              log_account_tx (set_balance b (wrap64 (balance b + amount)))
                TX_TRANSFER_IN amount (note_transfer_in amount (username a))]>
            (<[i := log_account_tx (set_balance a (balance a - amount))
                      TX_TRANSFER_OUT amount
                      (note_transfer_out amount (username b))]> (accounts st)))
         (pix_table st), Done) /\
     (balance b + amount <= INT64_MAX ->
      wrap64 (balance b + amount) = balance b + amount)).
Proof.
  intros Hreach Ha Hv Hne.
  pose proof (reachable_index_inv st Hreach) as Hinv.
  pose proof (reachable_accounts_ok st Hreach) as Hok.
  pose proof (Forall_lookup_1 _ _ _ _ Hok Ha) as (Hba & _).
  destruct (transfer_cases st i a amount pix Hinv Ha)
    as [[Ek E]|[(Nk & Hle & E)|[(_ & _ & Ep & _)|[(Nk & Hpos & _ & Hf & E)|
        (Nk & Hpos & _ & t & b & Hf & Hb & Hti & _ & [[Hlt E]|[Hle E]])]]]];
    try done.
  - split; [intros _; by exists Own_pix_unset|]. done.
  - split; [intros _; by exists Invalid_amount|]. intros _ Hamt. lia.
  - split; [intros _; by exists Target_not_found|].
    intros _ _ t Ht Hf'. rewrite Hf in Hf'. injection Hf' as <-. lia.
  - split; [intros _; by exists Insufficient_funds|]. intros _ Hamt. lia.
  - split.
    + intros [Ek|[Hf'|Hlt]]; [done| |lia]. rewrite Hf in Hf'. injection Hf' as Hf'. lia.
    + intros _ _ t' Ht' Hf'. rewrite Hf in Hf'. injection Hf' as <-.
      rewrite Nat2Z.id. exists b. split; [done|]. split; [done|].
      pose proof (Forall_lookup_1 _ _ _ _ Hok Hb) as (Hbb & _).
      split.
      * rewrite E. rewrite (wrap64_id (balance a - amount)); [done|].
        unfold in_int64, INT64_MIN, INT64_MAX in *. lia.
      * intros Hmax. apply wrap64_id.
        unfold in_int64, INT64_MIN, INT64_MAX in *. lia.
Qed.

(** User 1, with 10.00, transfers 3.00 to "user2pix". *)
Lemma transfer_to_other_alias_witness :
  let st := funded_state in
  let a := user1_of funded_state in
  (pix_key a = "" \/
   pix_find (accounts st) (pix_table st) "user2pix" = Some (-1) \/
   balance a < 300 ->
   exists out, transfer_ st 0 300 "user2pix" = Some (st, out) /\ out <> Done) /\
  (pix_key a <> "" -> 0 < 300 <= balance a ->
   forall t, 0 <= t ->
   pix_find (accounts st) (pix_table st) "user2pix" = Some t ->
   exists b, accounts st !! Z.to_nat t = Some b /\ Z.to_nat t <> 0%nat /\
     transfer_ st 0 300 "user2pix" =
       Some (mk_state
         (<[Z.to_nat t :=
              log_account_tx (set_balance b (wrap64 (balance b + 300)))
                TX_TRANSFER_IN 300 (note_transfer_in 300 (username a))]>
            (<[0%nat := log_account_tx (set_balance a (balance a - 300))
                      TX_TRANSFER_OUT 300
                      (note_transfer_out 300 (username b))]> (accounts st)))
         (pix_table st), Done) /\
     (balance b + 300 <= INT64_MAX ->
      wrap64 (balance b + 300) = balance b + 300)).
Proof.
  apply (transfer_to_other_alias funded_state 0 (user1_of funded_state) 300
           "user2pix").
  - apply (reachable_step boot (Op_deposit 0 1000)).
    + apply reachable_boot. by vm_compute.
    + split; [vm_compute; lia|]. vm_compute. split; discriminate.
    + by vm_compute.
  - by vm_compute.
  - split; [vm_compute; lia|]. split; [vm_compute; split; discriminate|].
    vm_compute. lia.
  - vm_compute. discriminate.
Defined.

(** The transfer of the specification's scenario, evaluated: the sender
    keeps 7.00, the receiver gets 3.00, and each log gains one record. *)
Example transfer_scenario :
  (fun r => (fun s => (balance_of s 0, balance_of s 1, history_of s 0, history_of s 1))
              <$> (fst <$> r))
    (transfer_ funded_state 0 300 "user2pix") =
  Some (700, 300,
        [mk_tx TX_DEPOSIT 1000 "Deposited 10.00";
         mk_tx TX_TRANSFER_OUT 300 "Transferred 3.00 to user2"],
        [mk_tx TX_TRANSFER_IN 300 "Received 3.00 from user1"]).
Proof. vm_compute. reflexivity. Qed.

(** The claim as stated fails when the credit of the receiver wraps: in
    [full_state] user 1 holds one cent and user 2 holds 2^63 - 1 cents;
    the transfer of the cent succeeds and leaves user 2 with -2^63. *)
Lemma transfer_wraps_receiver :
  reachable full_state /\
  pix_key (user1_of full_state) = "user1pix" /\
  balance_of full_state 0 = 1 /\ balance_of full_state 1 = INT64_MAX /\
  pix_find (accounts full_state) (pix_table full_state) "user2pix" = Some 1 /\
  exists st',
    transfer_ full_state 0 1 "user2pix" = Some (st', Done) /\
    balance_of st' 0 = 0 /\ balance_of st' 1 = INT64_MIN /\
    balance_of st' 1 <> balance_of full_state 1 + 1.
Proof.
  split; [exact full_state_reachable|].
  split; [by vm_compute|]. split; [by vm_compute|]. split; [by vm_compute|].
  split; [by vm_compute|]. eexists. split; [vm_compute; reflexivity|].
  by vm_compute.
Qed.

(** ** Credit advances *)

(** C4 (amended).  For the account [a] at slot [i] of a reachable state,
    whose alias is set, a transfer to its own alias is a credit advance.
    It succeeds exactly when [0 < amount <= credit_limit - credit_used];
    then [credit_used] increases by the amount, the balance becomes
    [wrap64 (balance + amount)], which is the balance increased by the
    amount whenever that does not exceed 2^63 - 1, one CREDIT_ADV record is
    pushed on the log of that account, and no other account changes.
    Otherwise it fails and the state is unchanged. *)
Theorem credit_advance_on_own_alias st i a amount :
  reachable st -> accounts st !! i = Some a ->
  valid_op st (Op_transfer i amount (pix_key a)) -> pix_key a <> "" ->
  (0 < amount <= credit_limit a - credit_used a ->
   transfer_ st i amount (pix_key a) =
     Some (mk_state
       (<[i := log_account_tx
                 (set_balance (set_credit_used a (credit_used a + amount))
                              (wrap64 (balance a + amount)))
                 TX_CREDIT_ADV amount (note_credit amount)]> (accounts st))
       (pix_table st), Done) /\
   (balance a + amount <= INT64_MAX ->
    wrap64 (balance a + amount) = balance a + amount)) /\
  (~ 0 < amount <= credit_limit a - credit_used a ->
   exists out, transfer_ st i amount (pix_key a) = Some (st, out) /\ out <> Done) /\
  (0 < amount -> credit_limit a - credit_used a < amount ->
   transfer_ st i amount (pix_key a) = Some (st, Not_enough_credit)).
Proof.
  intros Hreach Ha Hv Hk.
  pose proof (reachable_index_inv st Hreach) as Hinv.
  pose proof (reachable_accounts_ok st Hreach) as Hok.
  pose proof (Forall_lookup_1 _ _ _ _ Hok Ha) as Hoka.
  pose proof Hoka as (Hba & _).
  destruct (credit_advance_spec a amount) as [Hs Hf].
  rewrite credit_available in Hs, Hf by done.
  assert (Hfail : 0 < amount -> credit_limit a - credit_used a < amount ->
            transfer_ st i amount (pix_key a) = Some (st, Not_enough_credit)).
  { intros Hpos Hgt.
    destruct (transfer_cases st i a amount (pix_key a) Hinv Ha)
      as [[Ek _]|[(_ & Hle & _)|[(_ & _ & _ & E)|[(_ & _ & Np & _)|
          (_ & _ & Np & _)]]]]; try done; try lia.
    rewrite E, Hf by done. cbn [fst snd]. rewrite list_insert_id by done.
    by destruct st. }
  split; [|split; [|done]].
  - intros [Hpos Hle]. split.
    + destruct (transfer_cases st i a amount (pix_key a) Hinv Ha)
        as [[Ek _]|[(_ & Hle' & _)|[(_ & _ & _ & E)|[(_ & _ & Np & _)|
            (_ & _ & Np & _)]]]]; try done; try lia.
      rewrite E, Hs by done. cbn [fst snd].
      by rewrite credit_advance_used.
    + intros Hmax. apply wrap64_id.
      unfold in_int64, INT64_MIN, INT64_MAX in *. lia.
  - intros Hnot. destruct (Z.le_gt_cases amount 0) as [Hle|Hpos].
    + destruct (transfer_cases st i a amount (pix_key a) Hinv Ha)
        as [[Ek _]|[(_ & _ & E)|[(_ & Hpos & _)|[(_ & Hpos & _)|
            (_ & Hpos & _)]]]]; try done; try lia.
      by exists Invalid_amount.
    + exists Not_enough_credit. split; [|done]. apply Hfail; lia.
Qed.

(** User 1, whose limit is 100.00, draws 50.00 right after boot. *)
Lemma credit_advance_on_own_alias_witness :
  let st := boot in
  let a := user1_of boot in
  (0 < 5000 <= credit_limit a - credit_used a ->
   transfer_ st 0 5000 (pix_key a) =
     Some (mk_state
       (<[0%nat := log_account_tx
                 (set_balance (set_credit_used a (credit_used a + 5000))
                              (wrap64 (balance a + 5000)))
                 TX_CREDIT_ADV 5000 (note_credit 5000)]> (accounts st))
       (pix_table st), Done) /\
   (balance a + 5000 <= INT64_MAX ->
    wrap64 (balance a + 5000) = balance a + 5000)) /\
  (~ 0 < 5000 <= credit_limit a - credit_used a ->
   exists out, transfer_ st 0 5000 (pix_key a) = Some (st, out) /\ out <> Done) /\
  (0 < 5000 -> credit_limit a - credit_used a < 5000 ->
   transfer_ st 0 5000 (pix_key a) = Some (st, Not_enough_credit)).
Proof.
  apply (credit_advance_on_own_alias boot 0 (user1_of boot) 5000).
  - apply reachable_boot. by vm_compute.
  - by vm_compute.
  - split; [vm_compute; lia|]. split; [vm_compute; split; discriminate|].
    vm_compute. lia.
  - vm_compute. discriminate.
Defined.

(** The scenario of the specification: with a limit of 100.00 and no
    credit used, an advance of 50.00 succeeds and a second one of 60.00
    is refused, leaving the state as it was. *)
Example credit_scenario :
  (credit_limit (user1_of boot), credit_used (user1_of boot),
   balance (user1_of boot)) = (10000, 0, 0) /\
  (fun r => snd <$> r) (transfer_ boot 0 5000 "user1pix") = Some Done /\
  (credit_used_of advanced_state 0, balance_of advanced_state 0,
   history_of advanced_state 0) =
    (5000, 5000, [mk_tx TX_CREDIT_ADV 5000 "Credit advance 50.00"]) /\
  transfer_ advanced_state 0 6000 "user1pix" =
    Some (advanced_state, Not_enough_credit).
Proof. vm_compute. repeat split. Qed.

(** The claim as stated fails when the balance wraps: user 2 of
    [full_state] holds 2^63 - 1 cents and has 100.00 of credit; the
    advance of one cent succeeds and leaves the balance at -2^63. *)
Lemma credit_advance_wraps_balance :
  reachable full_state /\
  balance_of full_state 1 = INT64_MAX /\
  exists st',
    transfer_ full_state 1 1 "user2pix" = Some (st', Done) /\
    credit_used_of st' 1 = credit_used_of full_state 1 + 1 /\
    balance_of st' 1 = INT64_MIN /\
    balance_of st' 1 <> balance_of full_state 1 + 1.
Proof.
  split; [exact full_state_reachable|]. split; [by vm_compute|].
  eexists. split; [vm_compute; reflexivity|]. by vm_compute.
Qed.

(** ** The money codec *)

Lemma app_nil_s (s : string) : "" ++ s = s.
Proof. reflexivity. Qed.

Lemma app_cons_s c (s r : string) : String c s ++ r = String c (s ++ r).
Proof. reflexivity. Qed.


Ltac str_norm := repeat (rewrite app_cons_s || rewrite app_nil_s).
Ltac str_norm_all := repeat (rewrite app_cons_s in * || rewrite app_nil_s in *).

Lemma digit_char c :
  is_digit c = true ->
  Ascii.eqb c "+" = false /\ Ascii.eqb c "-" = false /\
  Ascii.eqb c "." = false /\ isspace c = false /\ 0 <= digit_val c <= 9.
Proof.
  destruct c as [[] [] [] [] [] [] [] []]; vm_compute; intros H;
    try discriminate H; repeat split; discriminate.
Qed.

Lemma space_char c :
  isspace c = true ->
  Ascii.eqb c "+" = false /\ Ascii.eqb c "-" = false /\
  Ascii.eqb c "." = false /\ is_digit c = false.
Proof.
  destruct c as [[] [] [] [] [] [] [] []]; vm_compute; intros H;
    try discriminate H; repeat split; discriminate.
Qed.


Lemma digits_value_mono ds : forall acc,
  all_digits ds = true -> 0 <= acc -> acc <= digits_value ds acc.
Proof.
  induction ds as [|c ds IH]; intros acc Hd H0; cbn [digits_value]; [lia|].
  cbn [all_digits] in Hd. apply andb_prop in Hd as [Hc Hd].
  destruct (digit_char c Hc) as (_ & _ & _ & _ & Hv).
  etransitivity; [|apply IH; [done|lia]]. lia.
Qed.

Lemma parse_whole_ok ds rest : forall acc,
  all_digits ds = true -> no_digit_head rest -> 0 <= acc ->
  digits_value ds acc <= 2 ^ 60 ->
  parse_whole (ds ++ rest) acc = Some (digits_value ds acc, rest).
Proof.
  induction ds as [|c ds IH]; intros acc Hd Hr H0 Hmax.
  - str_norm. cbn [digits_value]. destruct rest as [|c r]; [done|].
    cbn [parse_whole]. cbn [no_digit_head] in Hr. by rewrite Hr.
  - cbn [all_digits] in Hd. apply andb_prop in Hd as [Hc Hd].
    destruct (digit_char c Hc) as (_ & _ & _ & _ & Hv).
    str_norm_all. cbn [parse_whole digits_value] in *. rewrite Hc.
    pose proof (digits_value_mono ds (acc * 10 + digit_val c) Hd) as Hm.
    assert (E : wrap64 (wrap64 (acc * 10) + digit_val c) = acc * 10 + digit_val c).
    { rewrite (wrap64_id (acc * 10)), wrap64_id;
        unfold in_int64, INT64_MIN, INT64_MAX; lia. }
    rewrite E. destruct (Z.gtb_spec (acc * 10 + digit_val c) (2 ^ 60)); [lia|].
    apply IH; [done|done|lia|done].
Qed.





Lemma skip_digits_app fs rest :
  all_digits fs = true -> no_digit_head rest -> skip_digits (fs ++ rest) = rest.
Proof.
  induction fs as [|c fs IH]; intros Hd Hr.
  - str_norm. destruct rest as [|c r]; [done|]. cbn [skip_digits].
    cbn [no_digit_head] in Hr. by rewrite Hr.
  - cbn [all_digits] in Hd. apply andb_prop in Hd as [Hc Hd].
    str_norm. cbn [skip_digits]. rewrite Hc. by apply IH.
Qed.

Lemma skip_space_all ws : all_space ws = true -> skip_space ws = "".
Proof.
  induction ws as [|c ws IH]; [done|]. cbn [all_space skip_space].
  intros [Hc Hd]%andb_prop. rewrite Hc. by apply IH.
Qed.


Lemma space_no_digit ws : all_space ws = true -> no_digit_head ws.
Proof.
  destruct ws as [|c ws]; [done|]. cbn [all_space no_digit_head].
  intros [Hc _]%andb_prop. by destruct (space_char c Hc) as (_ & _ & _ & ?).
Qed.

(** The two loops over the fractional part keep the first two digits. *)
Lemma parse_frac_cents fs rest :
  all_digits fs = true -> no_digit_head rest ->
  let '(frac, fdigits, p2) := parse_frac (fs ++ rest) 0 0 in
  (if (fdigits =? 1)%nat then frac * 10 else frac) = frac_cents fs /\
  skip_digits p2 = rest.
Proof.
  intros Hd Hr.
  assert (Hstop : forall f n, parse_frac rest f n = (f, n, rest)).
  { intros f n. destruct rest as [|c r]; [done|]. cbn [parse_frac].
    cbn [no_digit_head] in Hr. by rewrite Hr. }
  assert (Hskip : skip_digits rest = rest).
  { destruct rest as [|c r]; [done|]. cbn [skip_digits].
    cbn [no_digit_head] in Hr. by rewrite Hr. }
  destruct fs as [|d1 [|d2 fs]].
  - str_norm. rewrite Hstop. by cbn.
  - cbn [all_digits] in Hd. apply andb_prop in Hd as [H1 _].
    str_norm. cbn [parse_frac]. rewrite H1. cbn [andb Nat.ltb Nat.leb].
    rewrite Hstop. cbn [Nat.eqb frac_cents]. split; [lia|done].
  - cbn [all_digits] in Hd. apply andb_prop in Hd as [H1 Hd].
    apply andb_prop in Hd as [H2 Hd].
    str_norm. cbn [parse_frac]. rewrite H1, H2. cbn [andb Nat.ltb Nat.leb].
    assert (E : parse_frac (fs ++ rest) ((0 * 10 + digit_val d1) * 10 + digit_val d2) 2
                = ((0 * 10 + digit_val d1) * 10 + digit_val d2, 2%nat, fs ++ rest)).
    { destruct (fs ++ rest) as [|c r]; [done|]. cbn [parse_frac].
      by rewrite andb_false_r. }
    rewrite E. cbn [Nat.eqb frac_cents]. split; [lia|].
    by apply skip_digits_app.
Qed.


(** After the sign: the digits, the fractional part and the spaces. *)
Lemma parse_body_ok ds dot fs ws :
  all_digits ds = true -> all_digits fs = true -> (dot = false -> fs = "") ->
  all_space ws = true -> digits_value ds 0 <= 2 ^ 60 ->
  match parse_whole (ds ++ (if dot then "." ++ fs else "") ++ ws) 0 with
  | None => None
  | Some (whole, p) =>
      let '(frac, p) :=
        match p with
        | String c p1 =>
            if Ascii.eqb c "." then
              let '(frac, fdigits, p2) := parse_frac p1 0 0 in
              let frac := if (fdigits =? 1)%nat then frac * 10 else frac in
              (frac, skip_digits p2)
            else (0, p)
        | EmptyString => (0, p)
        end in
      match skip_space p with
      | EmptyString => Some (whole, frac)
      | _ => None
      end
  end = Some (digits_value ds 0, frac_cents fs).
Proof.
  intros Hd Hf Hdot Hw Hmax. pose proof (space_no_digit ws Hw) as Hnd.
  rewrite parse_whole_ok; [|done| |lia|done].
  - destruct dot.
    + str_norm. cbn [Ascii.eqb Bool.eqb].
      pose proof (parse_frac_cents fs ws Hf Hnd) as Hpf.
      destruct (parse_frac (fs ++ ws) 0 0) as [[frac fdigits] p2].
      cbv beta iota zeta. destruct Hpf as [-> ->]. by rewrite skip_space_all.
    + rewrite app_nil_s, (Hdot eq_refl). destruct ws as [|c ws]; [done|].
      pose proof Hw as Hw'. cbn [all_space] in Hw'.
      apply andb_prop in Hw' as [Hc _].
      destruct (space_char c Hc) as (_ & _ & -> & _).
      by rewrite skip_space_all.
  - destruct dot; by str_norm.
Qed.

Lemma parse_money_unfold s :
  parse_money_to_cents s =
  match s with
  | EmptyString => None
  | String c0 s' =>
      let '(sign, p) :=
        if Ascii.eqb c0 "+" then (1, s')
        else if Ascii.eqb c0 "-" then (-1, s')
        else (1, s) in
      match
        match parse_whole p 0 with
        | None => None
        | Some (whole, p) =>
            let '(frac, p) :=
              match p with
              | String c p1 =>
                  if Ascii.eqb c "." then
                    let '(frac, fdigits, p2) := parse_frac p1 0 0 in
                    let frac := if (fdigits =? 1)%nat then frac * 10 else frac in
                    (frac, skip_digits p2)
                  else (0, p)
              | EmptyString => (0, p)
              end in
            match skip_space p with
            | EmptyString => Some (whole, frac)
            | _ => None
            end
        end
      with
      | Some (whole, frac) =>
          Some (wrap64 (sign * wrap64 (wrap64 (whole * 100) + frac)))
      | None => None
      end
  end.
Proof.
  unfold parse_money_to_cents. destruct s as [|c0 s']; [done|].
  destruct (if Ascii.eqb c0 "+" then (1, s')
            else if Ascii.eqb c0 "-" then (-1, s') else (1, String c0 s'))
    as [sign p].
  destruct (parse_whole p 0) as [[whole p1]|]; [|done].
  destruct p1 as [|c p1].
  - by cbn.
  - destruct (Ascii.eqb c ".").
    + destruct (parse_frac p1 0 0) as [[frac fdigits] p2].
      by destruct (skip_space (skip_digits p2)).
    + by destruct (skip_space (String c p1)).
Qed.

(** The sign is read off the first character. *)
Lemma parse_sign_split m :
  money_text_ok m -> money_string m <> "" ->
  exists c0 s',
    money_string m = String c0 s' /\
    (if Ascii.eqb c0 "+" then (1, s')
     else if Ascii.eqb c0 "-" then (-1, s') else (1, String c0 s'))
    = (money_sign m,
       mt_whole m ++ (if mt_dot m then "." ++ mt_frac m else "") ++ mt_space m).
Proof.
  intros (Hs & Hd & Hf & Hdot & Hw) Hne. unfold money_string, money_sign in *.
  destruct Hs as [Es|[Es|Es]]; rewrite Es in *.
  - rewrite app_nil_s in *. cbn [String.eqb].
    destruct (mt_whole m ++ (if mt_dot m then "." ++ mt_frac m else "") ++ mt_space m)
      as [|c0 s'] eqn:E; [done|].
    exists c0, s'. split; [done|].
    assert (Hc : Ascii.eqb c0 "+" = false /\ Ascii.eqb c0 "-" = false).
    { destruct (mt_whole m) as [|c ds].
      - rewrite app_nil_s in E. destruct (mt_dot m).
        + rewrite app_cons_s in E. by injection E as <- _.
        + rewrite app_nil_s in E. rewrite E in Hw. cbn [all_space] in Hw.
          apply andb_prop in Hw as [Hc _].
          by destruct (space_char c0 Hc) as (? & ? & _).
      - rewrite app_cons_s in E. injection E as -> _. cbn [all_digits] in Hd.
        apply andb_prop in Hd as [Hc _].
        by destruct (digit_char c0 Hc) as (? & ? & _). }
    destruct Hc as [-> ->]. done.
  - rewrite app_cons_s, app_nil_s. eexists _, _. split; [done|]. by cbn.
  - rewrite app_cons_s, app_nil_s. eexists _, _. split; [done|]. by cbn.
Qed.

Lemma parse_accepts m :
  money_text_ok m -> money_string m <> "" ->
  digits_value (mt_whole m) 0 <= 2 ^ 60 ->
  parse_money_to_cents (money_string m) =
  Some (wrap64 (money_sign m *
                wrap64 (wrap64 (digits_value (mt_whole m) 0 * 100)
                        + frac_cents (mt_frac m)))).
Proof.
  intros Hok Hne Hmax. pose proof Hok as (Hs & Hd & Hf & Hdot & Hw).
  destruct (parse_sign_split m Hok Hne) as (c0 & s' & E & Esign).
  rewrite parse_money_unfold, E, Esign.
  by rewrite parse_body_ok.
Qed.



Lemma fmt_02d_two_digits f : 0 <= f < 100 -> fmt_02d f = two_digits f.
Proof.
  intros Hf.
  assert (Hall : forallb (fun n => (fmt_02d (Z.of_nat n) =? two_digits (Z.of_nat n))%string)
                   (seq 0 100) = true) by (by vm_compute).
  rewrite forallb_forall in Hall.
  specialize (Hall (Z.to_nat f)). rewrite Z2Nat.id in Hall by lia.
  apply String.eqb_eq, Hall, in_seq. lia.
Qed.

Lemma cents_to_str_spec c cap :
  INT64_MIN < c <= INT64_MAX ->
  cents_to_str c cap =
  snprintf cap ((if c <? 0 then "-" else "") ++ fmt_d (Z.abs c / 100) ++ "."
                ++ two_digits (Z.abs c mod 100)).
Proof.
  intros Hc. unfold cents_to_str. destruct (Z.ltb_spec c 0) as [Hneg|Hpos].
  - rewrite wrap64_id by (unfold in_int64, INT64_MIN, INT64_MAX in *; lia).
    rewrite Z.quot_div_nonneg, Z.rem_mod_nonneg by lia.
    rewrite fmt_02d_two_digits by (apply Z.mod_pos_bound; lia).
    by rewrite Z.abs_neq by lia.
  - rewrite Z.quot_div_nonneg, Z.rem_mod_nonneg by lia.
    rewrite fmt_02d_two_digits by (apply Z.mod_pos_bound; lia).
    rewrite Z.abs_eq by lia. by rewrite app_nil_s.
Qed.





(** * Further properties of the PIX index *)

Lemma boot_reachable : reachable boot.
Proof. apply (exec_from_boot_reachable []). by vm_compute. Qed.

Lemma boot_accounts :
  accounts boot =
  [sample_account "user1" "user1pix"; sample_account "user2" "user2pix"].
Proof. apply boot_state_accounts. by vm_compute. Qed.

(** ** Slot arithmetic *)

Lemma fnv1a_loop_range s : forall h, 0 <= h < 2 ^ 64 -> 0 <= fnv1a_loop s h < 2 ^ 64.
Proof.
  induction s as [|c s IH]; intros h Hh; cbn [fnv1a_loop]; [done|].
  apply IH. unfold wrapu64. apply Z.mod_pos_bound. lia.
Qed.

(** X1. The hash of every key is a 64-bit value, the slot a probe starts
    at lies inside the table, and the slot it moves on to from slot [idx]
    is [(idx + 1) mod PIX_TABLE_SIZE], the mask of the source being the
    remainder: no access of [pix_find], [pix_insert] or [pix_remove]
    leaves [pix_table], and the slot after the last one is slot 0. *)
Theorem pix_slots_in_bounds key idx :
  0 <= fnv1a_hash key < 2 ^ 64 /\
  (pix_home key < PIX_TABLE_SIZE)%nat /\
  pix_next idx = ((idx + 1) mod PIX_TABLE_SIZE)%nat /\
  (pix_next idx < PIX_TABLE_SIZE)%nat.
Proof.
  split; [apply fnv1a_loop_range; lia|].
  split; [apply pix_home_lt|].
  rewrite pix_next_cyc. split; [done|]. apply cyc_lt, PIX_TABLE_SIZE_pos.
Qed.

(** ** Lookup *)

(** X2. In every reachable state [pix_find] returns, and what it returns
    for a key is the index of the account that holds this key as its
    alias, or -1 when the key is empty or no account holds it. *)
Theorem pix_find_resolves_owner st key :
  reachable st ->
  exists r, pix_find (accounts st) (pix_table st) key = Some r /\
    (r = -1 \/ 0 <= r < Z.of_nat (account_count st)) /\
    (forall i, r = Z.of_nat i <->
       exists a, accounts st !! i = Some a /\ pix_key a = key /\ key <> "").
Proof.
  intros Hr. pose proof (reachable_index_inv _ Hr) as Hinv.
  destruct (index_find_cases st key Hinv) as [[Hf Hno]|(i0 & a0 & Ha0 & Hk & Hne & Hf)].
  - exists (-1). split; [done|]. split; [by left|]. intros i. split; [lia|].
    intros (a & Ha & E & Hne). by destruct (Hno i a Ha Hne).
  - exists (Z.of_nat i0). split; [done|]. split.
    { right. apply lookup_lt_Some in Ha0. unfold account_count. lia. }
    intros i. split.
    + intros E. assert (i = i0) as -> by lia. by exists a0.
    + intros (a & Ha & E & _).
      assert (i = i0) as ->; [|done].
      apply (index_keys_unique st i i0 a a0 Hinv Ha Ha0); congruence.
Qed.

Lemma pix_find_resolves_owner_witness :
  exists r, pix_find (accounts boot) (pix_table boot) "user2pix" = Some r /\
    (r = -1 \/ 0 <= r < Z.of_nat (account_count boot)) /\
    (forall i, r = Z.of_nat i <->
       exists a, accounts boot !! i = Some a /\ pix_key a = "user2pix" /\
                 "user2pix" <> "").
Proof. apply (pix_find_resolves_owner boot "user2pix"), boot_reachable. Defined.

(** X3. In every reachable state two different accounts never hold the
    same alias: the aliases that are set are pairwise distinct. *)
Theorem aliases_are_distinct st i j a b :
  reachable st -> accounts st !! i = Some a -> accounts st !! j = Some b ->
  i <> j -> pix_key a <> "" -> pix_key a <> pix_key b.
Proof.
  intros Hr Ha Hb Hij Hk E. apply Hij.
  by apply (index_keys_unique st i j a b (reachable_index_inv _ Hr)).
Qed.

Lemma aliases_are_distinct_witness :
  pix_key (sample_account "user1" "user1pix")
  <> pix_key (sample_account "user2" "user2pix").
Proof.
  apply (aliases_are_distinct boot 0 1); [apply boot_reachable| | | |].
  - by rewrite boot_accounts.
  - by rewrite boot_accounts.
  - lia.
  - by vm_compute.
Defined.

(** ** Insertion *)

Lemma probe_stops_insert accs tbl key start d v :
  (start < PIX_TABLE_SIZE)%nat -> (d < PIX_TABLE_SIZE)%nat ->
  length tbl = PIX_TABLE_SIZE ->
  probe_stops accs tbl key start d ->
  pix_live accs (v - 1) = Some key -> v <> 0 ->
  probe_stops accs (<[cyc PIX_TABLE_SIZE start d := v]> tbl) key start d.
Proof.
  intros Hs Hd Hlen [Hpre Hend] Hlive Hv.
  pose proof PIX_TABLE_SIZE_pos as Hpos.
  assert (Hq : (cyc PIX_TABLE_SIZE start d < length tbl)%nat)
    by (rewrite Hlen; by apply cyc_lt).
  split.
  - intros d' Hd'. destruct (Hpre d' Hd') as [Hk Hz].
    assert (Hne : cyc PIX_TABLE_SIZE start d' <> cyc PIX_TABLE_SIZE start d).
    { intros E. apply cyc_inj in E; lia. }
    unfold entry_key. rewrite pix_slot_insert by done.
    destruct (decide _) as [E|_]; [done|]. by split.
  - right. unfold entry_key. rewrite pix_slot_insert by done.
    destruct (decide _) as [_|E]; [|done].
    destruct (v =? 0) eqn:Ev; [lia|done].
Qed.

(** X4. Insertion followed by lookup.  In a well-formed table with an
    empty slot, [pix_insert] of the key of account [ai] returns after
    writing [ai + 1] into exactly one slot, the slot that held this key if
    there was one (the entry is overwritten) and otherwise the first empty
    slot on the probe path of the key; [pix_find] of the key then returns
    [ai]. *)
Theorem pix_insert_then_find accs tbl key ai :
  pix_wf accs tbl -> has_empty tbl -> pix_live accs ai = Some key ->
  exists d,
    (d < PIX_TABLE_SIZE)%nat /\
    let q := cyc PIX_TABLE_SIZE (pix_home key) d in
    pix_insert accs tbl key ai = Some (<[q := ai + 1]> tbl) /\
    (forall d', (d' < d)%nat ->
       pix_slot tbl (cyc PIX_TABLE_SIZE (pix_home key) d') <> 0 /\
       entry_key accs tbl (cyc PIX_TABLE_SIZE (pix_home key) d') <> Some key) /\
    (pix_slot tbl q = 0 \/ entry_key accs tbl q = Some key) /\
    pix_find accs (<[q := ai + 1]> tbl) key = Some ai.
Proof.
  intros Hwf (e & He & Se) Hlive.
  pose proof PIX_TABLE_SIZE_pos as Hpos.
  pose proof (pix_home_lt key) as Hh.
  pose proof (pix_live_nonempty _ _ _ Hlive) as Hne.
  pose proof (pix_live_range _ _ _ Hlive) as Hai.
  destruct (cyc_dist PIX_TABLE_SIZE Hpos (pix_home key) e Hh He) as (de & Hde & Ee).
  destruct (probe_stops_exists accs tbl key (pix_home key) de) as (d & Hd & Hst).
  { left. by rewrite <- Ee. }
  exists d. split; [lia|]. cbn zeta.
  assert (Hkey : (key =? "")%string = false) by by apply String.eqb_neq.
  split.
  { unfold pix_insert. rewrite Hkey.
    apply pix_insert_loop_stops; [done|done|lia|done]. }
  split.
  { intros d' Hd'. destruct Hst as [Hpre _]. destruct (Hpre d' Hd'). by split. }
  split; [by destruct Hst|].
  unfold pix_find. rewrite Hkey.
  rewrite (pix_find_loop_stops accs _ key d); [| done | lia |].
  - rewrite pix_slot_insert.
    + destruct (decide _); [f_equal; lia|done].
    + rewrite (wf_length _ _ Hwf). by apply cyc_lt.
  - apply probe_stops_insert; try done; try lia.
    + apply (wf_length _ _ Hwf).
    + by replace (ai + 1 - 1) with ai by lia.
Qed.

Lemma pix_insert_then_find_witness :
  exists d,
    (d < PIX_TABLE_SIZE)%nat /\
    let q := cyc PIX_TABLE_SIZE (pix_home "k171") d in
    pix_insert (accounts cluster_state) (pix_table cluster_state) "k171" 1
      = Some (<[q := 1 + 1]> (pix_table cluster_state)) /\
    (forall d', (d' < d)%nat ->
       pix_slot (pix_table cluster_state)
                (cyc PIX_TABLE_SIZE (pix_home "k171") d') <> 0 /\
       entry_key (accounts cluster_state) (pix_table cluster_state)
                 (cyc PIX_TABLE_SIZE (pix_home "k171") d') <> Some "k171") /\
    (pix_slot (pix_table cluster_state) q = 0 \/
     entry_key (accounts cluster_state) (pix_table cluster_state) q
       = Some "k171") /\
    pix_find (accounts cluster_state) (<[q := 1 + 1]> (pix_table cluster_state))
             "k171" = Some 1.
Proof.
  apply (pix_insert_then_find (accounts cluster_state)
           (pix_table cluster_state) "k171" 1).
  - apply (ii_wf _ (reachable_index_inv _ cluster_state_reachable)).
  - apply index_has_empty, reachable_index_inv, cluster_state_reachable.
  - by vm_compute.
Defined.

(** ** Removal *)

(** X5. Removing a key that is not in the index.  In every reachable
    state, when [pix_find] does not find a key, [pix_remove] of that key
    returns and leaves the table as it is. *)
Theorem pix_remove_unknown_key st key :
  reachable st ->
  pix_find (accounts st) (pix_table st) key = Some (-1) ->
  pix_remove (accounts st) (pix_table st) key = Some (pix_table st).
Proof.
  intros Hr Hf. pose proof (reachable_index_inv _ Hr) as Hinv.
  pose proof PIX_TABLE_SIZE_pos as Hpos.
  unfold pix_remove. destruct (key =? "")%string eqn:Hkey; [done|].
  pose proof Hinv as [Hc Hwf Hu Hi].
  destruct (wf_find_total (accounts st) (pix_table st) key Hwf
              (index_has_empty _ Hinv)) as [[_ Hno]|(p & Hp & Kp & Hf')].
  - destruct (index_has_empty _ Hinv) as (e & He & Se).
    destruct (cyc_dist PIX_TABLE_SIZE Hpos (pix_home key) e (pix_home_lt key) He)
      as (de & Hde & Ee).
    destruct (probe_stops_exists (accounts st) (pix_table st) key (pix_home key) de)
      as (d & Hd & Hst).
    { left. by rewrite <- Ee. }
    rewrite (pix_remove_loop_stops _ _ _ d); [|apply pix_home_lt|lia|done].
    cbn zeta. destruct Hst as [_ [Hz|Hk]].
    + by rewrite Hz.
    + exfalso. eapply Hno; [|exact Hk]. by apply cyc_lt.
  - exfalso. apply entry_key_account in Kp as (i & a & Sp & _).
    rewrite Hf' in Hf. injection Hf as Hf. lia.
Qed.

Lemma pix_remove_unknown_key_witness :
  pix_remove (accounts boot) (pix_table boot) "nobody" = Some (pix_table boot).
Proof.
  apply (pix_remove_unknown_key boot "nobody"); [apply boot_reachable|].
  by vm_compute.
Defined.

(** ** Setting an alias *)

(** X6. Setting a new alias.  In every reachable state, when account [my]
    asks for a non-empty key that no other account holds, the menu case
    returns with success: the account holds the key and has one more
    record in its log, no other account changes, [pix_find] of the new key
    returns [my], the alias the account held before, if it was another
    one, is no longer found, and every other key resolves as before. *)
Theorem set_pix_rebinds_alias st my a pix :
  reachable st -> accounts st !! my = Some a ->
  valid_op st (Op_set_pix my pix) -> pix <> "" ->
  (forall j b, j <> my -> accounts st !! j = Some b -> pix_key b <> pix) ->
  exists st',
    menu_set_pix st my pix = Some (st', Done) /\
    accounts st' =
      <[my := log_account_tx (set_pix_key a pix) TX_MISC 0
                "PIX key set/updated"]> (accounts st) /\
    pix_find (accounts st') (pix_table st') pix = Some (Z.of_nat my) /\
    (pix_key a <> pix ->
     pix_find (accounts st') (pix_table st') (pix_key a) = Some (-1)) /\
    (forall key, key <> pix -> key <> pix_key a ->
       pix_find (accounts st') (pix_table st') key =
       pix_find (accounts st) (pix_table st) key).
Proof.
  intros Hr Ha [Hmy Hlen] Hne Hfree.
  pose proof (reachable_index_inv _ Hr) as Hinv.
  destruct (menu_set_pix_spec st my a pix Hinv Ha Hlen)
    as [[E _]|[(j & b & Hj & Hb & Hk & _)|(_ & _ & tbl' & Hrun & Hinv')]];
    [done|by destruct (Hfree j b Hj Hb)|].
  eexists. split; [exact Hrun|]. split; [done|].
  set (a' := log_account_tx (set_pix_key a pix) TX_MISC 0 "PIX key set/updated") in *.
  set (st' := mk_state (<[my := a']> (accounts st)) tbl') in *.
  assert (Hmy' : accounts st' !! my = Some a').
  { apply list_lookup_insert_eq. by apply lookup_lt_Some in Ha. }
  assert (Hoth : forall j, j <> my -> accounts st' !! j = accounts st !! j).
  { intros j Hj. by apply list_lookup_insert_ne. }
  assert (Hnone : forall key, key <> pix ->
            (forall i b, accounts st !! i = Some b -> i <> my -> pix_key b <> key) ->
            pix_find (accounts st') (pix_table st') key = Some (-1)).
  { intros key Hkp Hno.
    destruct (index_find_cases st' key Hinv')
      as [[Hf _]|(i & b & Hb & Hk & Hkne & _)]; [done|exfalso].
    destruct (decide (i = my)) as [->|Hi].
    - rewrite Hmy' in Hb. injection Hb as <-. by apply Hkp.
    - rewrite Hoth in Hb by done. by apply (Hno i b Hb Hi). }
  split; [|split].
  - by apply (index_find_account st' my a' Hinv' Hmy').
  - intros Hold. destruct (decide (pix_key a = "")) as [E0|Hk0].
    + by rewrite E0.
    + apply Hnone; [done|]. intros i b Hb Hi E. apply Hi. symmetry.
      apply (index_keys_unique st my i a b Hinv Ha Hb Hk0). congruence.
  - intros key Hkp Hko.
    destruct (index_find_cases st key Hinv)
      as [[Hf Hno]|(i & b & Hb & Hk & Hkne & Hf)]; rewrite Hf.
    + destruct (decide (key = "")) as [->|Hke].
      { done. }
      apply Hnone; [done|]. intros i b Hb _. by apply (Hno i b Hb).
    + assert (Hi : i <> my).
      { intros ->. rewrite Ha in Hb. injection Hb as <-. by apply Hko. }
      rewrite <- Hk. apply (index_find_account st' i b Hinv'); [|congruence].
      by rewrite Hoth.
Qed.

Lemma set_pix_rebinds_alias_witness :
  exists st',
    menu_set_pix boot 0 "k96" = Some (st', Done) /\
    accounts st' =
      <[0%nat := log_account_tx (set_pix_key (user1_of boot) "k96") TX_MISC 0
                   "PIX key set/updated"]> (accounts boot) /\
    pix_find (accounts st') (pix_table st') "k96" = Some (Z.of_nat 0) /\
    (pix_key (user1_of boot) <> "k96" ->
     pix_find (accounts st') (pix_table st') (pix_key (user1_of boot))
       = Some (-1)) /\
    (forall key, key <> "k96" -> key <> pix_key (user1_of boot) ->
       pix_find (accounts st') (pix_table st') key =
       pix_find (accounts boot) (pix_table boot) key).
Proof.
  apply (set_pix_rebinds_alias boot 0 (user1_of boot) "k96").
  - apply boot_reachable.
  - by vm_compute.
  - apply valid_opb_true. by vm_compute.
  - done.
  - intros j b Hj Hb. rewrite boot_accounts in Hb.
    destruct j as [|[|j]]; [done| |done]. injection Hb as <-. by vm_compute.
Defined.

(** * Further properties of the operations *)

(** ** Every operation returns *)

(** X7. In every reachable state every operation that a menu can start
    returns: the probes of [pix_find], [pix_insert] and [pix_remove] that
    it runs all stop, because the table always keeps an empty slot.  The
    state it leaves is again a reachable one. *)
Theorem menu_operation_returns st o :
  reachable st -> valid_op st o ->
  exists st' out, run st o = Some (st', out) /\ reachable st'.
Proof.
  intros Hr Hv.
  destruct (run_total st o (reachable_index_inv _ Hr) Hv) as (st' & out & E).
  exists st', out. split; [done|].
  eapply reachable_step; [done|done|]. apply step_run. by exists out.
Qed.

Lemma menu_operation_returns_witness :
  exists st' out,
    run boot (Op_set_pix 0 "k96") = Some (st', out) /\ reachable st'.
Proof.
  apply menu_operation_returns; [apply boot_reachable|].
  apply valid_opb_true. by vm_compute.
Defined.

(** ** An operation that is refused has no effect *)

Lemma state_eta st : mk_state (accounts st) (pix_table st) = st.
Proof. by destruct st. Qed.

Lemma on_account_failed st i f st' out :
  (forall a, (f a).2 <> Done -> (f a).1 = a) ->
  on_account st i f = Some (st', out) -> out <> Done -> st' = st.
Proof.
  intros Hf (a & Ha & -> & ->)%on_account_cases Ho.
  rewrite (Hf a Ho), list_insert_id by done. apply state_eta.
Qed.

Lemma transfer_failed st i amount pix st' out :
  transfer_ st i amount pix = Some (st', out) -> out <> Done -> st' = st.
Proof.
  unfold transfer_. destruct (accounts st !! i) as [a|] eqn:Ha; [|done].
  destruct (pix_key a =? "")%string; [by intros [= <- <-]|].
  destruct (amount <=? 0); [by intros [= <- <-]|].
  destruct (pix =? pix_key a)%string.
  - destruct (credit_advance a amount) as [a' o] eqn:E. intros [= <- <-] Ho.
    assert (a' = a) as ->.
    { unfold credit_advance in E. destruct (_ <=? _); by injection E as <- <-. }
    rewrite list_insert_id by done. apply state_eta.
  - destruct (pix_find _ _ _) as [tidx|]; [|done].
    destruct (tidx <? 0); [by intros [= <- <-]|].
    destruct (amount <=? balance a); by intros [= <- <-].
Qed.

Lemma menu_set_pix_failed st my pix st' out :
  menu_set_pix st my pix = Some (st', out) -> out <> Done -> st' = st.
Proof.
  unfold menu_set_pix. destruct (accounts st !! my) as [a|]; [|done].
  destruct (pix =? "")%string; [by intros [= <- <-]|].
  destruct (pix_find _ _ _) as [existing|]; [|done].
  destruct (_ && _); [by intros [= <- <-]|].
  destruct (if (pix_key a =? "")%string then _ else _) as [tbl|]; [|done].
  destruct (pix_insert _ _ _ _) as [tbl'|]; [|done]. by intros [= <- <-].
Qed.

(** X8. An operation that ends in an error message changes nothing: when
    the outcome of a deposit, withdrawal, transfer, credit advance, alias
    change, limit change, password change or registration is not the
    success message, the accounts and the index are what they were
    before. *)
Theorem refused_operation_changes_nothing st o st' out :
  run st o = Some (st', out) -> out <> Done -> st' = st.
Proof.
  destruct o as [name pass ag|i amt|i amt|i amt pix|i pix|i nl|i oldp newp];
    cbn [run].
  - unfold sign_up. repeat case_match; by intros [= <- <-].
  - apply on_account_failed. intros a. unfold deposit. by case_match.
  - apply on_account_failed. intros a. unfold withdraw_. by repeat case_match.
  - apply transfer_failed.
  - apply menu_set_pix_failed.
  - apply on_account_failed. intros a. unfold change_credit_limit. by case_match.
  - apply on_account_failed. intros a. unfold change_password.
    by repeat case_match.
Qed.

Lemma refused_operation_changes_nothing_witness :
  default boot (step boot (Op_withdraw 0 500)) = boot.
Proof.
  apply (refused_operation_changes_nothing boot (Op_withdraw 0 500) _
           Insufficient_funds); [by vm_compute|done].
Defined.

(** ** What an operation leaves alone *)

Lemma on_account_frame st i f st' out :
  (forall a, username (f a).1 = username a /\ agency (f a).1 = agency a /\
             used (f a).1 = used a) ->
  on_account st i f = Some (st', out) ->
  account_count st' = account_count st /\ pix_table st' = pix_table st /\
  forall j a, accounts st !! j = Some a ->
    exists a', accounts st' !! j = Some a' /\ username a' = username a /\
      agency a' = agency a /\ used a' = used a /\ (j <> i -> a' = a).
Proof.
  intros Hf (a0 & Ha0 & -> & _)%on_account_cases. unfold account_count.
  cbn [accounts pix_table]. rewrite length_insert. split; [done|]. split; [done|].
  intros j a Ha. destruct (decide (j = i)) as [->|Hj].
  - rewrite list_lookup_insert_eq by by eapply lookup_lt_Some.
    assert (a = a0) as -> by congruence.
    eexists. split; [done|]. destruct (Hf a0) as (? & ? & ?). done.
  - rewrite list_lookup_insert_ne by done. by exists a.
Qed.

Lemma transfer_frame st i amount pix st' out :
  transfer_ st i amount pix = Some (st', out) ->
  account_count st' = account_count st /\ pix_table st' = pix_table st /\
  forall j a, accounts st !! j = Some a ->
    exists a', accounts st' !! j = Some a' /\ username a' = username a /\
      agency a' = agency a /\ used a' = used a /\
      (j <> i ->
       pix_find (accounts st) (pix_table st) pix <> Some (Z.of_nat j) -> a' = a).
Proof.
  intros Hrun.
  assert (Hsame : st' = st ->
    account_count st' = account_count st /\ pix_table st' = pix_table st /\
    forall j a, accounts st !! j = Some a ->
      exists a', accounts st' !! j = Some a' /\ username a' = username a /\
        agency a' = agency a /\ used a' = used a /\
        (j <> i ->
         pix_find (accounts st) (pix_table st) pix <> Some (Z.of_nat j) -> a' = a)).
  { intros ->. split; [done|]. split; [done|]. intros j a Ha. by exists a. }
  revert Hrun. unfold transfer_.
  destruct (accounts st !! i) as [a0|] eqn:Ha0; [|done].
  destruct (pix_key a0 =? "")%string; [intros [= <- <-]; by apply Hsame|].
  destruct (amount <=? 0); [intros [= <- <-]; by apply Hsame|].
  destruct (pix =? pix_key a0)%string.
  - destruct (credit_advance a0 amount) as [a' o] eqn:E. intros [= <- <-].
    unfold account_count. cbn [accounts pix_table]. rewrite length_insert.
    split; [done|]. split; [done|]. intros j a Ha.
    destruct (decide (j = i)) as [->|Hj].
    + rewrite list_lookup_insert_eq by by eapply lookup_lt_Some.
      assert (a = a0) as -> by congruence. eexists. split; [done|].
      unfold credit_advance in E. destruct (_ <=? _); by injection E as <- <-.
    + rewrite list_lookup_insert_ne by done. by exists a.
  - destruct (pix_find _ _ _) as [tidx|] eqn:Hf; [|done].
    destruct (Z.ltb_spec tidx 0) as [|Ht]; [intros [= <- <-]; by apply Hsame|].
    destruct (amount <=? balance a0); [|intros [= <- <-]; by apply Hsame].
    cbv zeta. intros [= <- <-]. unfold account_count. cbn [accounts pix_table].
    rewrite !length_alter. split; [done|]. split; [done|]. intros j a Ha.
    rewrite !list_lookup_alter.
    clear Hsame.
    repeat (case_decide; subst; try (assert (a = a0) as -> by congruence);
            rewrite ?Ha0, ?Ha; cbn [fmap option_fmap option_map]);
      (eexists; split; [done|]); account_fields; repeat split; try done;
      intros Hji Hne; try done; exfalso; apply Hne; f_equal; lia.
Qed.

Lemma menu_set_pix_frame st my pix st' out :
  menu_set_pix st my pix = Some (st', out) ->
  account_count st' = account_count st /\
  forall j a, accounts st !! j = Some a ->
    exists a', accounts st' !! j = Some a' /\ username a' = username a /\
      agency a' = agency a /\ used a' = used a /\ (j <> my -> a' = a).
Proof.
  intros Hrun.
  assert (Hsame : st' = st ->
    account_count st' = account_count st /\
    forall j a, accounts st !! j = Some a ->
      exists a', accounts st' !! j = Some a' /\ username a' = username a /\
        agency a' = agency a /\ used a' = used a /\ (j <> my -> a' = a)).
  { intros ->. split; [done|]. intros j a Ha. by exists a. }
  revert Hrun. unfold menu_set_pix.
  destruct (accounts st !! my) as [a0|] eqn:Ha0; [|done].
  destruct (pix =? "")%string; [intros [= <- <-]; by apply Hsame|].
  destruct (pix_find _ _ _) as [existing|]; [|done].
  destruct (_ && _); [intros [= <- <-]; by apply Hsame|].
  destruct (if (pix_key a0 =? "")%string then _ else _) as [tbl|]; [|done].
  destruct (pix_insert _ _ _ _) as [tbl'|]; [|done]. intros [= <- <-].
  unfold account_count. cbn [accounts]. rewrite !length_insert.
  split; [done|]. intros j a Ha. destruct (decide (j = my)) as [->|Hj].
  - rewrite list_lookup_insert_eq
      by (rewrite length_insert; by eapply lookup_lt_Some).
    assert (a = a0) as -> by congruence. by eexists.
  - rewrite !list_lookup_insert_ne by done. by exists a.
Qed.

Lemma run_frame st o st' out :
  run st o = Some (st', out) ->
  (account_count st' = account_count st \/
   exists name pass ag, o = Op_sign_up name pass ag /\
     accounts st' = (accounts st ++ [new_account name pass ag])%list) /\
  (forall j a, accounts st !! j = Some a ->
     exists a', accounts st' !! j = Some a' /\ username a' = username a /\
       agency a' = agency a /\ used a' = used a /\
       (~ acts_on st o j -> a' = a)) /\
  ((forall i pix, o <> Op_set_pix i pix) -> pix_table st' = pix_table st).
Proof.
  destruct o as [name pass ag|i amt|i amt|i amt pix|i pix|i nl|i oldp newp];
    cbn [run acts_on].
  - intros [= Hr]. destruct (sign_up_cases st name pass ag) as [E|[_ E]].
    + rewrite Hr in E. cbn [fst] in E. subst st'. split; [by left|].
      split; [|done]. intros j a Ha. by exists a.
    + rewrite Hr in E. injection E as -> ->. cbn [accounts pix_table].
      split; [right; by exists name, pass, ag|]. split; [|done].
      intros j a Ha. exists a. split; [by apply lookup_app_l_Some|done].
  - intros (Hc & Ht & Hf)%on_account_frame.
    + split; [by left|]. split; [|done]. intros j a Ha.
      destruct (Hf j a Ha) as (a' & ? & ? & ? & ? & Hu). exists a'.
      repeat split; try done; intros Hn; apply Hu; congruence.
    + intros a. unfold deposit. by case_match.
  - intros (Hc & Ht & Hf)%on_account_frame.
    + split; [by left|]. split; [|done]. intros j a Ha.
      destruct (Hf j a Ha) as (a' & ? & ? & ? & ? & Hu). exists a'.
      repeat split; try done; intros Hn; apply Hu; congruence.
    + intros a. unfold withdraw_. by repeat case_match.
  - intros (Hc & Ht & Hf)%transfer_frame.
    split; [by left|]. split; [|done]. intros j a Ha.
    destruct (Hf j a Ha) as (a' & ? & ? & ? & ? & Hu). exists a'.
    repeat split; try done; intros Hn; apply Hu; intros E; apply Hn; (by left) || (by right).
  - intros (Hc & Hf)%menu_set_pix_frame.
    split; [by left|]. split; [|intros H; by destruct (H i pix)]. intros j a Ha.
    destruct (Hf j a Ha) as (a' & ? & ? & ? & ? & Hu). exists a'.
    repeat split; try done; intros Hn; apply Hu; congruence.
  - intros (Hc & Ht & Hf)%on_account_frame.
    + split; [by left|]. split; [|done]. intros j a Ha.
      destruct (Hf j a Ha) as (a' & ? & ? & ? & ? & Hu). exists a'.
      repeat split; try done; intros Hn; apply Hu; congruence.
    + intros a. unfold change_credit_limit. by case_match.
  - intros (Hc & Ht & Hf)%on_account_frame.
    + split; [by left|]. split; [|done]. intros j a Ha.
      destruct (Hf j a Ha) as (a' & ? & ? & ? & ? & Hu). exists a'.
      repeat split; try done; intros Hn; apply Hu; congruence.
    + intros a. unfold change_password. by repeat case_match.
Qed.

(** X9. What an operation leaves alone.  No operation removes an account
    or changes a user name, an agency or the [used] flag; an operation
    changes no account other than the one it was started on and, for a
    transfer, the one the target key resolves to; and only the alias menu
    writes to the index. *)
Theorem operation_frame st o st' out :
  run st o = Some (st', out) ->
  (account_count st <= account_count st')%nat /\
  (forall j a, accounts st !! j = Some a ->
     exists a', accounts st' !! j = Some a' /\ username a' = username a /\
       agency a' = agency a /\ used a' = used a /\
       (~ acts_on st o j -> a' = a)) /\
  ((forall i pix, o <> Op_set_pix i pix) -> pix_table st' = pix_table st).
Proof.
  intros (Hc & Hf & Ht)%run_frame. split; [|done].
  destruct Hc as [->|(name & pass & ag & _ & E)]; [done|].
  unfold account_count. rewrite E, length_app. lia.
Qed.

Lemma operation_frame_witness :
  (account_count funded_state <= account_count paid_state)%nat /\
  (forall j a, accounts funded_state !! j = Some a ->
     exists a', accounts paid_state !! j = Some a' /\ username a' = username a /\
       agency a' = agency a /\ used a' = used a /\
       (~ acts_on funded_state (Op_transfer 0 300 "user2pix") j -> a' = a)) /\
  ((forall i pix, Op_transfer 0 300 "user2pix" <> Op_set_pix i pix) ->
   pix_table paid_state = pix_table funded_state).
Proof.
  apply (operation_frame funded_state (Op_transfer 0 300 "user2pix") paid_state Done).
  by vm_compute.
Defined.

(** * User names and logging in *)

Lemma find_from_spec accs name : forall i,
  (find_account_by_name_from i accs name = -1 /\
   forall k a, accs !! k = Some a -> used a = true -> username a <> name) \/
  (exists k a, find_account_by_name_from i accs name = Z.of_nat (i + k) /\
     accs !! k = Some a /\ used a = true /\ username a = name /\
     forall j b, (j < k)%nat -> accs !! j = Some b ->
       ~ (used b = true /\ username b = name)).
Proof.
  induction accs as [|a accs IH]; intros i; cbn [find_account_by_name_from].
  - left. split; [done|]. intros k a. by rewrite lookup_nil.
  - destruct (used a && (username a =? name)%string) eqn:Hm.
    + apply andb_prop in Hm as [Hu He]. apply String.eqb_eq in He.
      right. exists 0%nat, a. split; [f_equal; lia|].
      repeat split; try done. intros j b Hj. lia.
    + assert (Hna : ~ (used a = true /\ username a = name)).
      { intros [Hu He]. rewrite Hu in Hm. apply String.eqb_eq in He.
        by rewrite He in Hm. }
      destruct (IH (S i)) as [[Hr Hno]|(k & b & Hr & Hb & Hub & Hnb & Hmin)].
      * left. split; [done|]. intros [|k] c; cbn.
        -- intros [= <-] Hu He. by apply Hna.
        -- apply Hno.
      * right. exists (S k), b. split; [rewrite Hr; f_equal; lia|].
        split; [done|]. split; [done|]. split; [done|].
        intros [|j] c Hj; cbn.
        -- by intros [= <-].
        -- apply Hmin. lia.
Qed.

(** X10. [find_account_by_name] returns the index of the first account in
    use that has the name, and -1 exactly when no account in use has
    it. *)
Theorem find_account_by_name_first st name :
  (find_account_by_name st name = -1 /\
   forall k a, accounts st !! k = Some a -> used a = true -> username a <> name) \/
  (exists k a, find_account_by_name st name = Z.of_nat k /\
     accounts st !! k = Some a /\ used a = true /\ username a = name /\
     forall j b, (j < k)%nat -> accounts st !! j = Some b ->
       ~ (used b = true /\ username b = name)).
Proof. apply (find_from_spec (accounts st) name 0). Qed.

(** ** User names are unique *)

Lemma run_usernames st o st' out :
  index_inv st -> valid_op st o -> run st o = Some (st', out) ->
  NoDup (username <$> accounts st) -> NoDup (username <$> accounts st').
Proof.
  intros Hinv Hv Hrun Hnd.
  destruct (run_frame _ _ _ _ Hrun) as (Hc & Hf & _).
  destruct Hc as [Hc|(name & pass & ag & -> & E)].
  - replace (username <$> accounts st') with (username <$> accounts st); [done|].
    apply list_eq. intros j. rewrite !list_lookup_fmap.
    destruct (accounts st !! j) as [a|] eqn:Ha.
    + destruct (Hf j a Ha) as (a' & -> & Hn & _). cbn. by rewrite Hn.
    + apply lookup_ge_None in Ha. unfold account_count in Hc.
      rewrite (proj2 (lookup_ge_None (accounts st') j)); [done|lia].
  - rewrite E, fmap_app. apply NoDup_app. split; [done|].
    split; [|apply NoDup_singleton].
    destruct Hv as (Hn & _ & _).
    cbn [run] in Hrun. injection Hrun as Hrun. unfold sign_up in Hrun.
    assert (Hfind : find_account_by_name st name < 0).
    { destruct (name =? "")%string;
        [injection Hrun as <- _; apply (f_equal length) in E;
         rewrite length_app in E; cbn in E; lia|].
      destruct (Z.geb_spec (find_account_by_name st name) 0); [|done].
      injection Hrun as <- _. apply (f_equal length) in E.
      rewrite length_app in E. cbn in E. lia. }
    intros x Hx. cbn [fmap list_fmap]. rewrite list_elem_of_singleton.
    unfold new_account. cbn [username]. rewrite safe_strcpy_fits by done.
    intros ->. apply list_elem_of_fmap in Hx as (a & Hna & Ha).
    apply list_elem_of_lookup in Ha as (k & Ha).
    destruct (find_from_spec (accounts st) name 0)
      as [[_ Hno]|(k' & _ & Hr & _)].
    + apply (Hno k a Ha); [by eapply (ii_used st)|done].
    + unfold find_account_by_name in Hfind. lia.
Qed.

Lemma reachable_usernames st : reachable st -> NoDup (username <$> accounts st).
Proof.
  induction 1 as [st Hb|st o st' Hr IH Hv Hs].
  - rewrite (boot_state_accounts st Hb). cbn.
    apply NoDup_cons. split; [|apply NoDup_singleton].
    rewrite list_elem_of_singleton. by vm_compute.
  - apply step_run in Hs as (out & Hrun).
    eapply run_usernames; [by apply reachable_index_inv|done|done|done].
Qed.

Lemma reachable_find_name st i a :
  reachable st -> accounts st !! i = Some a ->
  find_account_by_name st (username a) = Z.of_nat i /\
  (forall j b, accounts st !! j = Some b -> username b = username a -> j = i).
Proof.
  intros Hr Ha. pose proof (reachable_usernames _ Hr) as Hnd.
  assert (Huniq : forall j b, accounts st !! j = Some b ->
                    username b = username a -> j = i).
  { intros j b Hb E. apply (NoDup_lookup _ j i (username a) Hnd);
      rewrite list_lookup_fmap; [rewrite Hb; cbn; by rewrite E|by rewrite Ha]. }
  split; [|done].
  destruct (find_from_spec (accounts st) (username a) 0)
    as [[_ Hno]|(k & b & Hf & Hb & _ & Hn & _)].
  - exfalso. apply (Hno i a Ha); [|done].
    by eapply (ii_used st), Ha; apply reachable_index_inv.
  - unfold find_account_by_name. rewrite Hf. f_equal.
    rewrite (Huniq k b Hb Hn). lia.
Qed.

(** X11. In every reachable state the user names are pairwise distinct,
    so that [find_account_by_name] of the name of an account returns that
    very account. *)
Theorem usernames_are_distinct st i a :
  reachable st -> accounts st !! i = Some a ->
  find_account_by_name st (username a) = Z.of_nat i /\
  (forall j b, accounts st !! j = Some b -> username b = username a -> j = i).
Proof. apply reachable_find_name. Qed.

Lemma usernames_are_distinct_witness :
  find_account_by_name boot (username (user1_of boot)) = Z.of_nat 0 /\
  (forall j b, accounts boot !! j = Some b ->
     username b = username (user1_of boot) -> j = 0%nat).
Proof.
  apply (usernames_are_distinct boot 0 (user1_of boot)); [apply boot_reachable|].
  by vm_compute.
Defined.

(** ** Logging in *)

Lemma log_in_account_spec st name pass i :
  reachable st ->
  log_in_account st name pass = Some i <->
  exists a, accounts st !! i = Some a /\ username a = name /\ password a = pass.
Proof.
  intros Hr. unfold log_in_account. split.
  - destruct (find_from_spec (accounts st) name 0)
      as [[Hf _]|(k & b & Hf & Hb & _ & Hn & _)];
      unfold find_account_by_name; rewrite Hf; [done|].
    destruct (Z.geb_spec (Z.of_nat (0 + k)) 0); [|lia].
    replace (Z.to_nat (Z.of_nat (0 + k))) with k by lia. rewrite Hb.
    destruct (String.eqb_spec (password b) pass); [|done].
    intros [= <-]. by exists b.
  - intros (a & Ha & <- & <-).
    destruct (reachable_find_name st i a Hr Ha) as [Hf _].
    rewrite Hf. destruct (Z.geb_spec (Z.of_nat i) 0); [|lia].
    rewrite Nat2Z.id, Ha. by rewrite String.eqb_refl.
Qed.



Lemma find_from_snoc accs x name : forall i,
  find_account_by_name_from i accs name = -1 ->
  find_account_by_name_from i (accs ++ [x])%list name =
  if used x && (username x =? name)%string then Z.of_nat (i + length accs) else -1.
Proof.
  induction accs as [|a accs IH]; intros i; cbn [find_account_by_name_from app length].
  - intros _. destruct (_ && _); [f_equal; lia|done].
  - destruct (used a && _); [lia|]. intros H. rewrite (IH _ H).
    destruct (_ && _); [f_equal; lia|done].
Qed.

(** X13. Registration followed by login.  When [sign_up] succeeds on
    lines that fit their buffers, as the lines [readln] returns do, the
    state has one more account, the last one, with the name, password and
    agency that were typed, balance 0, credit limit 100.00, no credit
    used, no alias and an empty log; the accounts before it and the index
    are unchanged; and [log_in] with that name lets the user into the new
    account with the password typed and with no other. *)
Theorem sign_up_then_log_in st name pass ag st' :
  valid_op st (Op_sign_up name pass ag) ->
  sign_up st name pass ag = (st', Done) ->
  accounts st' =
    (accounts st ++
     [mk_account name pass ag 0 10000 0 "" txlog_empty true])%list /\
  pix_table st' = pix_table st /\
  (account_count st < MAX_ACCOUNTS)%nat /\
  log_in_account st' name pass = Some (account_count st) /\
  (forall p, p <> pass -> log_in_account st' name p = None).
Proof.
  intros (Hn & Hp & Hg). unfold sign_up.
  destruct (name =? "")%string; [done|].
  destruct (Z.geb_spec (find_account_by_name st name) 0) as [|Hf]; [done|].
  destruct (ag =? "")%string; [done|].
  destruct (Nat.leb_spec MAX_ACCOUNTS (account_count st)) as [|Hc]; [done|].
  intros [= <-]. cbn [accounts pix_table]. unfold new_account.
  rewrite !safe_strcpy_fits by done. split; [done|]. split; [done|]. split; [done|].
  assert (Hfind : find_account_by_name
            (mk_state (accounts st ++ [mk_account name pass ag 0 (100 * 100) 0 ""
                                         txlog_empty true])%list (pix_table st))
            name = Z.of_nat (account_count st)).
  { unfold find_account_by_name. cbn [accounts]. rewrite find_from_snoc.
    - cbn [used username andb]. by rewrite String.eqb_refl.
    - destruct (find_from_spec (accounts st) name 0)
        as [[Hr _]|(k & _ & Hr & _)]; [done|].
      unfold find_account_by_name in Hf. lia. }
  unfold log_in_account. rewrite Hfind.
  destruct (Z.geb_spec (Z.of_nat (account_count st)) 0); [|lia].
  rewrite Nat2Z.id. cbn [accounts]. unfold account_count.
  rewrite lookup_app_r, Nat.sub_diag by done. cbn [lookup list_lookup password].
  split; [by rewrite String.eqb_refl|].
  intros p Hne. destruct (String.eqb_spec pass p); [congruence|done].
Qed.

Lemma sign_up_then_log_in_witness :
  let st' := (sign_up boot "user3" "secret" "DF").1 in
  accounts st' =
    (accounts boot ++
     [mk_account "user3" "secret" "DF" 0 10000 0 "" txlog_empty true])%list /\
  pix_table st' = pix_table boot /\
  (account_count boot < MAX_ACCOUNTS)%nat /\
  log_in_account st' "user3" "secret" = Some (account_count boot) /\
  (forall p, p <> "secret" -> log_in_account st' "user3" p = None).
Proof.
  apply (sign_up_then_log_in boot "user3" "secret" "DF").
  - apply (valid_opb_true boot (Op_sign_up "user3" "secret" "DF")). by vm_compute.
  - by vm_compute.
Defined.

(** X14. Password change followed by login.  In every reachable state a
    password change succeeds only when the current password was typed
    correctly and the new one is not empty; afterwards [log_in] lets the
    user into the account with the new password, and no longer with the
    old one when the two differ. *)
Theorem change_password_then_log_in st i a oldp newp st' :
  reachable st -> accounts st !! i = Some a ->
  valid_op st (Op_password i oldp newp) ->
  run st (Op_password i oldp newp) = Some (st', Done) ->
  password a = oldp /\ newp <> "" /\
  log_in_account st' (username a) newp = Some i /\
  (oldp <> newp -> log_in_account st' (username a) oldp = None).
Proof.
  intros Hr Ha Hv Hrun.
  assert (Hr' : reachable st').
  { eapply reachable_step; [done|done|]. apply step_run. by exists Done. }
  destruct Hv as (Hi & Ho & Hnw). cbn [run] in Hrun.
  apply on_account_cases in Hrun as (a0 & Ha0 & -> & Hout).
  assert (a0 = a) as -> by congruence.
  unfold change_password in *.
  destruct (String.eqb_spec (password a) oldp) as [Hold|]; [|done].
  destruct (String.eqb_spec newp "") as [|Hnew]; [done|]. cbn [negb fst] in *.
  rewrite safe_strcpy_fits in * by done.
  set (a' := log_account_tx (set_password a newp) TX_MISC 0 "Password changed") in *.
  assert (Ha' : accounts (mk_state (<[i := a']> (accounts st)) (pix_table st)) !! i
                = Some a').
  { cbn [accounts]. apply list_lookup_insert_eq. by eapply lookup_lt_Some. }
  split; [done|]. split; [done|]. split.
  - apply (log_in_account_spec _ _ _ _ Hr'). by exists a'.
  - intros Hne. destruct (log_in_account _ _ oldp) as [k|] eqn:E; [|done].
    apply (log_in_account_spec _ _ _ _ Hr') in E as (b & Hb & Hn & Hp).
    destruct (reachable_find_name _ i a' Hr' Ha') as [_ Hu].
    rewrite (Hu k b Hb Hn) in Hb. rewrite Ha' in Hb. injection Hb as <-.
    by destruct Hne.
Qed.

Lemma change_password_then_log_in_witness :
  let st' := default boot (step boot (Op_password 0 "pass" "s3cret")) in
  password (user1_of boot) = "pass" /\ "s3cret" <> "" /\
  log_in_account st' (username (user1_of boot)) "s3cret" = Some 0%nat /\
  ("pass" <> "s3cret" ->
   log_in_account st' (username (user1_of boot)) "pass" = None).
Proof.
  apply (change_password_then_log_in boot 0 (user1_of boot) "pass" "s3cret").
  - apply boot_reachable.
  - by vm_compute.
  - apply valid_opb_true. by vm_compute.
  - by vm_compute.
Defined.

(** * Further invariants of the accounts *)

(** ** Strings and rings stay within their arrays *)

Lemma substring_length_le s : forall n m, (String.length (substring n m s) <= m)%nat.
Proof.
  induction s as [|c s IH]; intros [|n] [|m]; cbn; try lia.
  - specialize (IH 0%nat m). lia.
  - apply (IH n 0%nat).
  - apply (IH n (S m)).
Qed.

Lemma safe_strcpy_length s cap :
  (1 <= cap)%nat -> (String.length (safe_strcpy s cap) < cap)%nat.
Proof.
  intros H. unfold safe_strcpy.
  pose proof (substring_length_le s 0 (cap - 1)). lia.
Qed.

Lemma account_fits_log a ty amt note :
  account_fits a -> account_fits (log_account_tx a ty amt note).
Proof.
  intros (Hu & Hp & Hg & Hk & Hwf & Hn). unfold account_fits. account_fields.
  split; [done|]. split; [done|]. split; [done|]. split; [done|].
  split; [by apply txlog_push_wf|].
  assert (Hs : (String.length (tx_note (tx_stored ty amt note)) < TX_NOTE_LEN)%nat).
  { cbn [tx_stored tx_note]. apply safe_strcpy_length. vm_compute. lia. }
  unfold txlog_push. destruct (_ <? _)%nat; cbn [entries]; by apply Forall_insert.
Qed.

Lemma account_fits_balance a z : account_fits a -> account_fits (set_balance a z).
Proof. done. Qed.

Lemma account_fits_credit_used a z :
  account_fits a -> account_fits (set_credit_used a z).
Proof. done. Qed.

Lemma account_fits_credit_limit a z :
  account_fits a -> account_fits (set_credit_limit a z).
Proof. done. Qed.

Lemma account_fits_password a p :
  (String.length p < MAX_PASS_LEN)%nat -> account_fits a ->
  account_fits (set_password a p).
Proof.
  intros Hl (Hu & Hp & Hg & Hk & Hwf & Hn). unfold account_fits.
  account_fields. done.
Qed.

Lemma account_fits_pix_key a k :
  (String.length k < MAX_PIX_LEN)%nat -> account_fits a ->
  account_fits (set_pix_key a k).
Proof.
  intros Hl (Hu & Hp & Hg & Hk & Hwf & Hn). unfold account_fits.
  account_fields. done.
Qed.

Lemma account_fits_fresh name pass ag key :
  account_fits
    (mk_account (safe_strcpy name MAX_NAME_LEN) (safe_strcpy pass MAX_PASS_LEN)
       (safe_strcpy ag MAX_AGENCY_LEN) 0 (100 * 100) 0
       (safe_strcpy key MAX_PIX_LEN) txlog_empty true).
Proof.
  unfold account_fits. account_fields.
  repeat split; try (apply safe_strcpy_length; vm_compute; lia);
    try apply txlog_empty_wf.
  unfold txlog_empty. cbn [entries]. apply Forall_replicate. vm_compute. lia.
Qed.

Lemma run_accounts_fit st o st' out :
  index_inv st -> Forall account_fits (accounts st) -> valid_op st o ->
  run st o = Some (st', out) -> Forall account_fits (accounts st').
Proof.
  intros Hinv Hok Hv.
  destruct o as [name pass ag|i amt|i amt|i amt pix|i pix|i nl|i oldp newp];
    cbn [run valid_op] in *.
  - intros [= Hr]. destruct (sign_up_cases st name pass ag) as [E|[_ E]].
    + rewrite Hr in E. cbn [fst] in E. by subst.
    + rewrite Hr in E. injection E as -> ->. cbn [accounts].
      apply Forall_app_2; [done|]. apply Forall_singleton.
      apply (account_fits_fresh name pass ag "").
  - intros (a & Ha & -> & _)%on_account_cases. cbn [accounts].
    apply Forall_insert; [done|]. pose proof (Forall_lookup_1 _ _ _ _ Hok Ha).
    unfold deposit. case_match; [done|]. by apply account_fits_log.
  - intros (a & Ha & -> & _)%on_account_cases. cbn [accounts].
    apply Forall_insert; [done|]. pose proof (Forall_lookup_1 _ _ _ _ Hok Ha).
    unfold withdraw_. repeat case_match; try done. by apply account_fits_log.
  - destruct Hv as [Hi _]. destruct (lookup_lt_is_Some_2 (accounts st) i Hi) as [a Ha].
    pose proof (Forall_lookup_1 _ _ _ _ Hok Ha) as Hoka.
    destruct (transfer_cases st i a amt pix Hinv Ha)
      as [[_ E]|[(_ & _ & E)|[(_ & Hpos & _ & E)|[(_ & _ & _ & _ & E)|
          (_ & _ & _ & t & b & _ & Hb & _ & _ & [[_ E]|[_ E]])]]]];
      rewrite E; intros [= <- <-]; try done; cbn [accounts].
    + apply Forall_insert; [done|]. unfold credit_advance.
      case_match; [|done]. by apply account_fits_log.
    + pose proof (Forall_lookup_1 _ _ _ _ Hok Hb) as Hokb.
      apply Forall_insert; [apply Forall_insert; [done|]|];
        by apply account_fits_log.
  - destruct Hv as [Hi Hlen].
    destruct (lookup_lt_is_Some_2 (accounts st) i Hi) as [a Ha].
    pose proof (Forall_lookup_1 _ _ _ _ Hok Ha) as Hoka.
    destruct (menu_set_pix_spec st i a pix Hinv Ha Hlen)
      as [[_ Hr]|[(j & b & _ & _ & _ & _ & Hr)|(_ & _ & tbl' & Hr & _)]];
      rewrite Hr; intros [= <- <-]; try done; cbn [accounts].
    apply Forall_insert; [done|]. by apply account_fits_log, account_fits_pix_key.
  - intros (a & Ha & -> & _)%on_account_cases.
    cbn [accounts]. apply Forall_insert; [done|].
    pose proof (Forall_lookup_1 _ _ _ _ Hok Ha).
    unfold change_credit_limit. case_match; [|done]. by apply account_fits_log.
  - intros (a & Ha & -> & _)%on_account_cases. cbn [accounts].
    apply Forall_insert; [done|]. pose proof (Forall_lookup_1 _ _ _ _ Hok Ha).
    unfold change_password. repeat case_match; try done.
    apply account_fits_log, account_fits_password; [|done].
    apply safe_strcpy_length. vm_compute. lia.
Qed.

Lemma reachable_accounts_fit st : reachable st -> Forall account_fits (accounts st).
Proof.
  induction 1 as [st Hb|st o st' Hr IH Hv Hs].
  - rewrite (boot_state_accounts st Hb).
    repeat constructor; apply account_fits_fresh.
  - apply step_run in Hs as (out & Hrun).
    eapply run_accounts_fit; [by apply reachable_index_inv|done|done|done].
Qed.

(** X15. In every reachable state every string an account stores is
    shorter than the array that holds it (user name 32, password 64,
    agency 8, alias 64, the note of every log record 40 bytes), and every
    log is a ring of 256 slots whose [head] is below 256 and whose [count]
    is at most 256. *)
Theorem stored_strings_fit st i a :
  reachable st -> accounts st !! i = Some a ->
  (String.length (username a) < 32)%nat /\
  (String.length (password a) < 64)%nat /\
  (String.length (agency a) < 8)%nat /\
  (String.length (pix_key a) < 64)%nat /\
  Forall (fun t => (String.length (tx_note t) < 40)%nat) (entries (txlog a)) /\
  length (entries (txlog a)) = 256%nat /\
  (head (txlog a) < 256)%nat /\ (count (txlog a) <= 256)%nat.
Proof.
  intros Hr Ha.
  destruct (Forall_lookup_1 _ _ _ _ (reachable_accounts_fit _ Hr) Ha)
    as (Hu & Hp & Hg & Hk & (Hl & Hh & Hc) & Hn).
  by repeat split.
Qed.

Lemma stored_strings_fit_witness :
  let a := sample_account "user2" "user2pix" in
  (String.length (username a) < 32)%nat /\
  (String.length (password a) < 64)%nat /\
  (String.length (agency a) < 8)%nat /\
  (String.length (pix_key a) < 64)%nat /\
  Forall (fun t => (String.length (tx_note t) < 40)%nat) (entries (txlog a)) /\
  length (entries (txlog a)) = 256%nat /\
  (head (txlog a) < 256)%nat /\ (count (txlog a) <= 256)%nat.
Proof.
  apply (stored_strings_fit boot 1); [apply boot_reachable|].
  by rewrite boot_accounts.
Defined.

(** X16. In every reachable state the number of accounts is at least 2,
    the two sample accounts, and at most [MAX_ACCOUNTS]; every slot below
    [account_count] is in use. *)
Theorem account_count_in_bounds st :
  reachable st ->
  (2 <= account_count st <= MAX_ACCOUNTS)%nat /\
  Forall (fun a => used a = true) (accounts st).
Proof.
  intros Hr. pose proof (reachable_index_inv _ Hr) as Hinv.
  split; [split; [|apply (ii_count _ Hinv)]|].
  - induction Hr as [st Hb|st o st' Hr IH Hv Hs].
    + unfold account_count. by rewrite (boot_state_accounts st Hb).
    + apply step_run in Hs as (out & Hrun).
      destruct (run_frame _ _ _ _ Hrun) as ([Hc|(n & p & g & _ & E)] & _).
      * rewrite Hc. by apply IH, reachable_index_inv.
      * specialize (IH (reachable_index_inv _ Hr)). unfold account_count in *.
        rewrite E, length_app. lia.
  - apply Forall_lookup_2. intros i a. apply (ii_used _ Hinv).
Qed.

Lemma account_count_in_bounds_witness :
  (2 <= account_count cluster_state <= MAX_ACCOUNTS)%nat /\
  Forall (fun a => used a = true) (accounts cluster_state).
Proof. apply account_count_in_bounds, cluster_state_reachable. Defined.

(** ** The ledger equation *)

Lemma net_insert accs i a a' :
  accs !! i = Some a ->
  foldr (fun a s => balance a - credit_used a + s) 0 (<[i := a']> accs) =
  foldr (fun a s => balance a - credit_used a + s) 0 accs
  - (balance a - credit_used a) + (balance a' - credit_used a').
Proof.
  revert i. induction accs as [|b accs IH]; intros [|i] H; try done.
  - injection H as ->. change (<[0%nat := a']> (a :: accs)) with (a' :: accs).
    cbn [foldr]. lia.
  - change (<[S i := a']> (b :: accs)) with (b :: <[i := a']> accs).
    change ((b :: accs) !! S i) with (accs !! i) in H.
    cbn [foldr]. rewrite (IH i H). lia.
Qed.

Lemma net_snoc accs a :
  foldr (fun a s => balance a - credit_used a + s) 0 (accs ++ [a])%list =
  foldr (fun a s => balance a - credit_used a + s) 0 accs
  + (balance a - credit_used a).
Proof.
  induction accs as [|b accs IH]; cbn [app foldr]; [lia|]. rewrite IH. lia.
Qed.

Lemma run_net_position st o st' :
  index_inv st -> Forall account_ok (accounts st) -> valid_op st o ->
  no_overflow st o -> run st o = Some (st', Done) ->
  net_position st' = net_position st + cash_flow o.
Proof.
  intros Hinv Hok Hv Hno. unfold net_position.
  destruct o as [name pass ag|i amt|i amt|i amt pix|i pix|i nl|i oldp newp];
    cbn [run valid_op no_overflow cash_flow] in *.
  - intros [= Hr]. destruct (sign_up_cases st name pass ag) as [E|[_ E]].
    + rewrite Hr in E. cbn [fst] in E. subst. lia.
    + rewrite Hr in E. injection E as ->. cbn [accounts].
      rewrite net_snoc. unfold new_account. account_fields. lia.
  - intros (a & Ha & -> & Hout)%on_account_cases. cbn [accounts].
    rewrite (net_insert _ _ _ _ Ha).
    destruct (Z.le_gt_cases amt 0) as [Hle|Hpos].
    { by rewrite (proj1 (deposit_spec a amt) Hle) in Hout. }
    rewrite (proj2 (deposit_spec a amt) Hpos). account_fields.
    destruct (Forall_lookup_1 _ _ _ _ Hok Ha) as (Hb & _).
    rewrite wrap64_id; [lia|]. specialize (Hno a Ha Hpos).
    unfold in_int64, INT64_MIN, INT64_MAX in *. lia.
  - intros (a & Ha & -> & Hout)%on_account_cases. cbn [accounts].
    rewrite (net_insert _ _ _ _ Ha).
    destruct (withdraw_spec a amt) as (H1 & H2 & H3).
    destruct (Z.le_gt_cases amt 0) as [Hle|Hpos].
    { by rewrite (H1 Hle) in Hout. }
    destruct (Z.le_gt_cases amt (balance a)) as [Hfund|Hlow].
    2:{ by rewrite (H3 Hpos Hlow) in Hout. }
    rewrite (H2 Hpos Hfund). account_fields.
    destruct (Forall_lookup_1 _ _ _ _ Hok Ha) as (Hb & _).
    rewrite wrap64_id; [lia|]. unfold in_int64, INT64_MIN, INT64_MAX in *. lia.
  - destruct Hv as [Hi _]. destruct (lookup_lt_is_Some_2 (accounts st) i Hi) as [a Ha].
    pose proof (Forall_lookup_1 _ _ _ _ Hok Ha) as Hoka.
    specialize (Hno a Ha).
    destruct (transfer_cases st i a amt pix Hinv Ha)
      as [[_ E]|[(_ & _ & E)|[(Hk & Hpos & -> & E)|[(_ & _ & _ & _ & E)|
          (Hk & Hpos & Hne & t & b & Hf & Hb & Hti & _ & [[_ E]|[Hfund E]])]]]];
      rewrite E; intros Heq; simplify_eq; cbn [accounts].
    + rename select ((credit_advance _ _).2 = Done) into Hout.
      rewrite (net_insert _ _ _ _ Ha).
      destruct (credit_advance_spec a amt) as (H1 & H2).
      destruct (Z.le_gt_cases amt (wrap64 (credit_limit a - credit_used a)))
        as [Hav|Hlow].
      2:{ by rewrite (H2 Hlow) in Hout. }
      rewrite (H1 Hav). account_fields.
      specialize (Hno Hk Hpos). rewrite String.eqb_refl in Hno.
      specialize (Hno Hav).
      rewrite (credit_available a Hoka) in Hav.
      rewrite (credit_advance_used a amt Hoka Hpos Hav).
      destruct Hoka as (Hbal & _).
      rewrite wrap64_id; [lia|]. unfold in_int64, INT64_MIN, INT64_MAX in *. lia.
    + pose proof (Forall_lookup_1 _ _ _ _ Hok Hb) as Hokb.
      specialize (Hno Hk Hpos).
      destruct (String.eqb_spec pix (pix_key a)) as [|_]; [done|].
      specialize (Hno (Z.of_nat t) b Hf ltac:(lia)).
      rewrite Nat2Z.id in Hno. specialize (Hno Hb Hfund).
      rewrite (net_insert _ t b).
      2:{ by rewrite list_lookup_insert_ne. }
      rewrite (net_insert _ _ _ _ Ha). account_fields.
      destruct Hoka as (Hbal & _). destruct Hokb as (Hbalb & _).
      rewrite !wrap64_id; [lia| |]; unfold in_int64, INT64_MIN, INT64_MAX in *; lia.
  - destruct Hv as [Hi Hlen].
    destruct (lookup_lt_is_Some_2 (accounts st) i Hi) as [a Ha].
    destruct (menu_set_pix_spec st i a pix Hinv Ha Hlen)
      as [[_ Hr]|[(j & b & _ & _ & _ & _ & Hr)|(_ & _ & tbl' & Hr & _)]];
      rewrite Hr; intros [= <-]; try done; cbn [accounts].
    rewrite (net_insert _ _ _ _ Ha). account_fields. lia.
  - intros (a & Ha & -> & Hout)%on_account_cases. cbn [accounts].
    rewrite (net_insert _ _ _ _ Ha). unfold change_credit_limit in *.
    destruct (nl >=? credit_used a); [|done]. account_fields. lia.
  - intros (a & Ha & -> & Hout)%on_account_cases. cbn [accounts].
    rewrite (net_insert _ _ _ _ Ha). unfold change_password in *.
    destruct (negb _); [done|]. destruct (newp =? "")%string; [done|].
    account_fields. lia.
Qed.

(** X17. The ledger equation.  Over all accounts, the sum of balance
    minus credit used changes only through cash: in a reachable state, an
    operation that succeeds without taking a balance above 2^63 - 1 adds
    the amount of a deposit to that sum, takes the amount of a withdrawal
    from it, and leaves it as it is otherwise, a credit advance adding
    the same amount to the balance and to the credit used and a transfer
    taking from one balance what it adds to the other. *)
Theorem ledger_equation st o st' :
  reachable st -> valid_op st o -> no_overflow st o ->
  run st o = Some (st', Done) ->
  net_position st' = net_position st + cash_flow o.
Proof.
  intros Hr. apply run_net_position;
    [by apply reachable_index_inv|by apply reachable_accounts_ok].
Qed.

Lemma ledger_equation_witness :
  net_position paid_state =
  net_position funded_state + cash_flow (Op_transfer 0 300 "user2pix").
Proof.
  apply ledger_equation.
  - apply (exec_from_boot_reachable [Op_deposit 0 1000]). by vm_compute.
  - apply valid_opb_true. by vm_compute.
  - apply no_overflowb_true. by vm_compute.
  - by vm_compute.
Defined.

(** ** Every successful operation is logged *)

Lemma history_insert st i a' tbl :
  (i < account_count st)%nat ->
  history_of (mk_state (<[i := a']> (accounts st)) tbl) i
  = txlog_records (txlog a').
Proof.
  intros Hi. unfold history_of. cbn [accounts].
  by rewrite list_lookup_insert_eq.
Qed.

Lemma history_logged st i a a0 ty amt note tbl :
  reachable st -> accounts st !! i = Some a -> txlog a0 = txlog a ->
  exists r, tx_type r = ty /\ tx_amount r = amt /\
    history_of (mk_state (<[i := log_account_tx a0 ty amt note]> (accounts st)) tbl) i
    = lastn TX_LOG_SIZE (history_of st i ++ [r])%list.
Proof.
  intros Hr Ha Ht. exists (tx_stored ty amt note). split; [done|]. split; [done|].
  rewrite history_insert by by eapply lookup_lt_Some.
  unfold log_account_tx. cbn [txlog set_txlog]. rewrite Ht.
  rewrite txlog_push_records.
  - unfold history_of. by rewrite Ha.
  - by destruct (Forall_lookup_1 _ _ _ _ (reachable_accounts_fit _ Hr) Ha)
      as (_ & _ & _ & _ & Hwf & _).
Qed.

(** X27. Every successful operation is logged.  In every reachable state,
    when an operation of the account menu succeeds, the log of the account
    it was started on receives exactly one record, of the kind of the
    operation (DEPOSIT, WITHDRAW, CREDIT_ADV for a transfer to the own
    alias, TRANSFER_OUT for any other transfer, MISC for an alias, limit
    or password change) and with its amount (0 for MISC): the records
    shown afterwards are the last 256 of the former ones followed by the
    new one. *)
Theorem successful_operation_is_logged st o st' i :
  reachable st -> valid_op st o -> op_account o = Some i ->
  run st o = Some (st', Done) ->
  exists r, tx_type r = (op_record st o).1 /\ tx_amount r = (op_record st o).2 /\
    history_of st' i = lastn TX_LOG_SIZE (history_of st i ++ [r])%list.
Proof.
  intros Hr Hv Ho. pose proof (reachable_index_inv _ Hr) as Hinv.
  destruct o as [name pass ag|i' amt|i' amt|i' amt pix|i' pix|i' nl|i' oldp newp];
    cbn [op_account] in Ho; try done; injection Ho as ->;
    cbn [run valid_op op_record fst snd] in *.
  - intros (a & Ha & -> & Hout)%on_account_cases.
    destruct (Z.le_gt_cases amt 0) as [Hle|Hpos].
    { by rewrite (proj1 (deposit_spec a amt) Hle) in Hout. }
    rewrite (proj2 (deposit_spec a amt) Hpos). cbn [fst].
    by apply (history_logged st i a).
  - intros (a & Ha & -> & Hout)%on_account_cases.
    destruct (withdraw_spec a amt) as (H1 & H2 & H3).
    destruct (Z.le_gt_cases amt 0) as [Hle|Hpos].
    { by rewrite (H1 Hle) in Hout. }
    destruct (Z.le_gt_cases amt (balance a)) as [Hfund|Hlow].
    2:{ by rewrite (H3 Hpos Hlow) in Hout. }
    rewrite (H2 Hpos Hfund). cbn [fst]. by apply (history_logged st i a).
  - destruct Hv as [Hi _]. destruct (lookup_lt_is_Some_2 (accounts st) i Hi) as [a Ha].
    rewrite Ha. cbn [from_option].
    destruct (transfer_cases st i a amt pix Hinv Ha)
      as [[_ E]|[(_ & _ & E)|[(Hk & Hpos & -> & E)|[(_ & _ & _ & _ & E)|
          (Hk & Hpos & Hne & t & b & Hf & Hb & Hti & _ & [[_ E]|[Hfund E]])]]]];
      rewrite E; intros Heq; simplify_eq.
    + rename select ((credit_advance _ _).2 = Done) into Hout.
      rewrite String.eqb_refl. cbn [fst snd].
      destruct (credit_advance_spec a amt) as (H1 & H2).
      destruct (Z.le_gt_cases amt (wrap64 (credit_limit a - credit_used a)))
        as [Hav|Hlow].
      2:{ by rewrite (H2 Hlow) in Hout. }
      rewrite (H1 Hav). cbn [fst]. by apply (history_logged st i a).
    + destruct (String.eqb_spec pix (pix_key a)) as [|_]; [done|]. cbn [fst snd].
      destruct (history_logged st i a (set_balance a (wrap64 (balance a - amt)))
                  TX_TRANSFER_OUT amt (note_transfer_out amt (username b))
                  (pix_table st) Hr Ha eq_refl) as (r & Hty & Ham & Hh).
      exists r. split; [done|]. split; [done|]. rewrite <- Hh.
      unfold history_of. cbn [accounts]. by rewrite list_lookup_insert_ne.
  - destruct Hv as [Hi Hlen].
    destruct (lookup_lt_is_Some_2 (accounts st) i Hi) as [a Ha].
    destruct (menu_set_pix_spec st i a pix Hinv Ha Hlen)
      as [[_ E]|[(j & b & _ & _ & _ & _ & E)|(_ & _ & tbl' & E & _)]];
      rewrite E; intros Heq; simplify_eq.
    by apply (history_logged st i a).
  - intros (a & Ha & -> & Hout)%on_account_cases. unfold change_credit_limit in *.
    destruct (nl >=? credit_used a); [|done]. cbn [fst].
    by apply (history_logged st i a).
  - intros (a & Ha & -> & Hout)%on_account_cases. unfold change_password in *.
    destruct (negb _); [done|]. destruct (newp =? "")%string; [done|]. cbn [fst].
    by apply (history_logged st i a).
Qed.

Lemma successful_operation_is_logged_witness :
  exists r,
    tx_type r = (op_record funded_state (Op_transfer 0 300 "user2pix")).1 /\
    tx_amount r = (op_record funded_state (Op_transfer 0 300 "user2pix")).2 /\
    history_of paid_state 0 = lastn TX_LOG_SIZE (history_of funded_state 0 ++ [r])%list.
Proof.
  apply (successful_operation_is_logged funded_state
           (Op_transfer 0 300 "user2pix") paid_state 0).
  - apply (exec_from_boot_reachable [Op_deposit 0 1000]). by vm_compute.
  - apply valid_opb_true. by vm_compute.
  - done.
  - by vm_compute.
Defined.

(** * Formatting and parsing back *)

Lemma app_nil_r_s (s : string) : s ++ "" = s.
Proof. induction s as [|c s IH]; [done|]. by rewrite app_cons_s, IH. Qed.

Lemma length_app_s (a b : string) :
  String.length (a ++ b) = (String.length a + String.length b)%nat.
Proof.
  induction a as [|c a IH]; [by rewrite app_nil_s|].
  rewrite app_cons_s. cbn [String.length]. by rewrite IH.
Qed.

(** ** The decimal text of a number *)

Lemma uint_string_digits d : all_digits (NilEmpty.string_of_uint d) = true.
Proof. induction d; cbn [NilEmpty.string_of_uint all_digits]; by rewrite ?IHd. Qed.

Lemma uint_string_length d :
  String.length (NilEmpty.string_of_uint d) = Decimal.nb_digits d.
Proof.
  induction d; cbn [NilEmpty.string_of_uint String.length Decimal.nb_digits];
    congruence.
Qed.

Ltac digit_val_compute :=
  repeat match goal with
  | |- context [digit_val ?c] =>
      let v := eval vm_compute in (digit_val c) in change (digit_val c) with v
  end.

Lemma uint_string_value_acc d : forall acc,
  digits_value (NilEmpty.string_of_uint d) (Z.pos acc) = Z.pos (Pos.of_uint_acc d acc).
Proof.
  induction d; intros acc;
    cbn [NilEmpty.string_of_uint digits_value Pos.of_uint_acc]; [done|..];
    rewrite <- IHd; f_equal; digit_val_compute; lia.
Qed.

Lemma uint_string_value d :
  digits_value (NilEmpty.string_of_uint d) 0 = Z.of_N (Pos.of_uint d).
Proof.
  induction d; cbn [NilEmpty.string_of_uint digits_value Pos.of_uint];
    [done|exact IHd|..];
    cbn [Z.of_N]; rewrite <- uint_string_value_acc; f_equal.
Qed.

Lemma of_uint_acc_lower d : forall acc,
  Z.pos acc * 10 ^ Z.of_nat (Decimal.nb_digits d) <= Z.pos (Pos.of_uint_acc d acc).
Proof.
  induction d; intros acc; cbn [Decimal.nb_digits Pos.of_uint_acc]; [lia|..];
    rewrite Nat2Z.inj_succ, Z.pow_succ_r by lia;
    (etransitivity; [|apply IHd]);
    pose proof (Z.pow_nonneg 10 (Z.of_nat (Decimal.nb_digits d))); nia.
Qed.

Lemma to_uint_digits p k :
  Z.pos p < 10 ^ Z.of_nat k -> (Decimal.nb_digits (Pos.to_uint p) <= k)%nat.
Proof.
  intros Hp. pose proof (DecimalPos.Unsigned.of_to p) as Hof.
  assert (Hn : Decimal.unorm (Pos.to_uint p) = Pos.to_uint p).
  { rewrite <- (DecimalPos.Unsigned.to_of (Pos.to_uint p)). by rewrite Hof. }
  destruct (Pos.to_uint p) as [|d|d|d|d|d|d|d|d|d|d] eqn:E;
    cbn [Pos.of_uint] in Hof; try done;
    [| injection Hof as Hof;
       match type of Hof with Pos.of_uint_acc _ ?a = _ =>
         pose proof (of_uint_acc_lower d a) as Hlow end;
       rewrite Hof in Hlow; cbn [Decimal.nb_digits];
       destruct (Nat.le_gt_cases (S (Decimal.nb_digits d)) k) as [|Hgt]; [done|];
       exfalso;
       assert (10 ^ Z.of_nat k <= 10 ^ Z.of_nat (Decimal.nb_digits d))
         by (apply Z.pow_le_mono_r; lia);
       pose proof (Z.pow_pos_nonneg 10 (Z.of_nat k)); nia ..].
  exfalso. rewrite DecimalFacts.unorm_D0 in Hn.
  pose proof (DecimalFacts.nb_digits_unorm d) as Hle.
  destruct d; [by cbn in Hn| rewrite Hn in Hle; cbn [Decimal.nb_digits] in Hle;
    specialize (Hle ltac:(done)); lia ..].
Qed.

Lemma fmt_d_spec n :
  0 <= n ->
  all_digits (fmt_d n) = true /\ digits_value (fmt_d n) 0 = n /\
  fmt_d n <> "" /\
  forall k, (0 < k)%nat -> n < 10 ^ Z.of_nat k -> (String.length (fmt_d n) <= k)%nat.
Proof.
  intros Hn. unfold fmt_d. destruct n as [|p|p]; [| |lia].
  - cbn. repeat split; try done; intros k Hk _; lia.
  - cbn [Z.to_int NilZero.string_of_int].
    pose proof (DecimalPos.Unsigned.to_uint_nonnil p) as Hnn.
    assert (E : NilZero.string_of_uint (Pos.to_uint p)
                = NilEmpty.string_of_uint (Pos.to_uint p)).
    { unfold NilZero.string_of_uint. by destruct (Pos.to_uint p). }
    rewrite E. split; [apply uint_string_digits|]. split.
    { rewrite uint_string_value, DecimalPos.Unsigned.of_to. done. }
    split.
    { intros H0. apply (f_equal String.length) in H0.
      rewrite uint_string_length in H0. cbn in H0.
      by apply DecimalFacts.nb_digits_0 in H0. }
    intros k _ Hk. rewrite uint_string_length. by apply to_uint_digits.
Qed.

Lemma two_digits_spec f :
  0 <= f < 100 ->
  all_digits (two_digits f) = true /\ frac_cents (two_digits f) = f /\
  String.length (two_digits f) = 2%nat.
Proof.
  intros Hf.
  assert (Hall : forallb (fun n =>
                    all_digits (two_digits (Z.of_nat n)) &&
                    (frac_cents (two_digits (Z.of_nat n)) =? Z.of_nat n))
                   (seq 0 100) = true) by (by vm_compute).
  rewrite forallb_forall in Hall.
  specialize (Hall (Z.to_nat f)). rewrite Z2Nat.id in Hall by lia.
  destruct (andb_prop _ _ (Hall ltac:(apply in_seq; lia))) as [H1 H2].
  split; [done|]. split; [lia|done].
Qed.

Lemma cents_to_str_text c cap :
  INT64_MIN < c <= INT64_MAX -> (22 <= cap)%nat ->
  cents_to_str c cap =
    (if c <? 0 then "-" else "") ++ fmt_d (Z.abs c / 100) ++ "."
      ++ two_digits (Z.abs c mod 100) /\
  (String.length (cents_to_str c cap) <= if (c <? 0)%Z then 21 else 20)%nat.
Proof.
  intros Hc Hcap. unfold INT64_MIN, INT64_MAX in Hc.
  set (w := Z.abs c / 100). set (f := Z.abs c mod 100).
  assert (Hw : 0 <= w < 10 ^ 17).
  { subst w. split; [apply Z.div_pos; lia|].
    apply Z.div_lt_upper_bound; lia. }
  assert (Hf : 0 <= f < 100) by (apply Z.mod_pos_bound; lia).
  destruct (fmt_d_spec w) as (_ & _ & _ & Hlen); [lia|].
  destruct (two_digits_spec f Hf) as (_ & _ & Hl2).
  specialize (Hlen 17%nat ltac:(lia) ltac:(lia)).
  set (text := (if c <? 0 then "-" else "") ++ fmt_d w ++ "." ++ two_digits f).
  assert (Htl : (String.length text <= if (c <? 0)%Z then 21 else 20)%nat).
  { subst text. rewrite !length_app_s, Hl2. destruct (c <? 0); cbn; lia. }
  assert (E : cents_to_str c cap = text).
  { rewrite cents_to_str_spec by (unfold INT64_MIN, INT64_MAX; lia).
    unfold snprintf. apply substring_all. destruct (c <? 0); lia. }
  by rewrite E.
Qed.

(** X18. Formatting followed by parsing.  For every amount other than
    -2^63 the text [cents_to_str] writes into a buffer of at least 22
    bytes (the source uses 32 and 64) has at most 21 characters, is not
    cut, and [parse_money_to_cents] reads the same amount back from it:
    an amount the program prints is an amount the program accepts. *)
Theorem money_round_trip c cap :
  INT64_MIN < c <= INT64_MAX -> (22 <= cap)%nat ->
  (String.length (cents_to_str c cap) <= 21)%nat /\
  cents_to_str c cap =
    (if c <? 0 then "-" else "") ++ fmt_d (Z.abs c / 100) ++ "."
      ++ two_digits (Z.abs c mod 100) /\
  parse_money_to_cents (cents_to_str c cap) = Some c.
Proof.
  intros Hc Hcap. unfold INT64_MIN, INT64_MAX in Hc.
  set (w := Z.abs c / 100). set (f := Z.abs c mod 100).
  assert (Hw : 0 <= w < 10 ^ 17).
  { subst w. split; [apply Z.div_pos; lia|].
    apply Z.div_lt_upper_bound; lia. }
  assert (Hf : 0 <= f < 100) by (apply Z.mod_pos_bound; lia).
  assert (Hcf : Z.abs c = w * 100 + f).
  { subst w f. pose proof (Z.div_mod (Z.abs c) 100). lia. }
  destruct (fmt_d_spec w) as (Hd & Hv & Hne & Hlen); [lia|].
  destruct (two_digits_spec f Hf) as (Hd2 & Hv2 & Hl2).
  specialize (Hlen 17%nat ltac:(lia) ltac:(lia)).
  set (text := (if c <? 0 then "-" else "") ++ fmt_d w ++ "." ++ two_digits f).
  assert (Htl : (String.length text <= 21)%nat).
  { subst text. rewrite !length_app_s, Hl2. destruct (c <? 0); cbn; lia. }
  assert (E : cents_to_str c cap = text).
  { rewrite cents_to_str_spec by (unfold INT64_MIN, INT64_MAX; lia).
    unfold snprintf. apply substring_all. lia. }
  rewrite E. split; [done|]. split; [done|].
  set (m := mk_money_text (if c <? 0 then "-" else "") (fmt_d w) true
                          (two_digits f) "").
  assert (Hm : money_string m = text).
  { unfold money_string, m. cbn [mt_sign mt_whole mt_dot mt_frac mt_space].
    by rewrite app_nil_r_s. }
  assert (Hok : money_text_ok m).
  { unfold money_text_ok, m. cbn [mt_sign mt_whole mt_dot mt_frac mt_space].
    split; [destruct (c <? 0); [by right; right|by left]|]. by repeat split. }
  rewrite <- Hm, parse_accepts; [|done| |].
  - f_equal. unfold money_sign, m. cbn [mt_sign mt_whole mt_frac]. rewrite Hv, Hv2.
    rewrite (wrap64_id (w * 100)) by (unfold in_int64, INT64_MIN, INT64_MAX; lia).
    rewrite (wrap64_id (w * 100 + f)) by (unfold in_int64, INT64_MIN, INT64_MAX; lia).
    destruct (Z.ltb_spec c 0); rewrite ?String.eqb_refl; cbn [String.eqb];
      rewrite wrap64_id by (unfold in_int64, INT64_MIN, INT64_MAX; lia); lia.
  - rewrite Hm. subst text. intros H0. apply (f_equal String.length) in H0.
    rewrite !length_app_s, Hl2 in H0. cbn in H0. lia.
  - unfold m. cbn [mt_whole]. rewrite Hv. lia.
Qed.

Lemma money_round_trip_witness :
  (String.length (cents_to_str (-123456) 32) <= 21)%nat /\
  cents_to_str (-123456) 32 =
    (if -123456 <? 0 then "-" else "") ++ fmt_d (Z.abs (-123456) / 100) ++ "."
      ++ two_digits (Z.abs (-123456) mod 100) /\
  parse_money_to_cents (cents_to_str (-123456) 32) = Some (-123456).
Proof.
  apply (money_round_trip (-123456) 32); [by vm_compute|lia].
Defined.

(** * Console input *)

(** ** Reading a line *)

Lemma fgets_length n : forall inp, (String.length (fgets n inp).1 <= n)%nat.
Proof.
  induction n as [|n IH]; intros [|c inp]; simpl; try lia.
  destruct (Ascii.eqb c "010"); simpl; [lia|].
  specialize (IH inp). destruct (fgets n inp). simpl in *. lia.
Qed.

Lemma fgets_split n : forall inp, (fgets n inp).1 ++ (fgets n inp).2 = inp.
Proof.
  induction n as [|n IH]; intros [|c inp]; cbn [fgets fst snd]; try done.
  destruct (Ascii.eqb c "010"); cbn [fst snd]; [done|].
  specialize (IH inp). destruct (fgets n inp). cbn [fst snd] in *.
  by rewrite app_cons_s, IH.
Qed.

Lemma fgets_consumes n c inp :
  (String.length (fgets (S n) (String c inp)).2 <= String.length inp)%nat.
Proof.
  revert c inp. induction n as [|n IH]; intros c inp; cbn [fgets].
  - destruct (Ascii.eqb c "010"); cbn [snd]; [lia|]. by destruct inp.
  - destruct (Ascii.eqb c "010"); cbn [snd]; [lia|].
    destruct inp as [|d inp]; [done|].
    specialize (IH d inp). cbn [fgets] in IH.
    destruct (Ascii.eqb d "010"); cbn [snd String.length] in *; [lia|].
    destruct (fgets n inp). cbn [snd String.length] in *. lia.
Qed.

Lemma c_str_length buf : (String.length (c_str buf) <= String.length buf)%nat.
Proof.
  induction buf as [|c buf IH]; cbn [c_str String.length]; [lia|].
  destruct (Ascii.eqb c "000"); cbn [String.length]; lia.
Qed.

Lemma chop_newline_length s :
  (String.length (chop_newline s) <= String.length s)%nat.
Proof.
  induction s as [|c [|d s] IH]; cbn [chop_newline String.length] in *; [lia| |lia].
  destruct (Ascii.eqb c "010"); cbn [String.length]; lia.
Qed.

Lemma line_no_newline n : forall inp,
  has_char newline (chop_newline (c_str (fgets n inp).1)) = false.
Proof.
  induction n as [|n IH]; intros [|c inp]; cbn [fgets fst]; try done.
  destruct (Ascii.eqb_spec c "010") as [->|Hc]; [done|].
  specialize (IH inp). destruct (fgets n inp) as [l r]. cbn [fst] in *.
  cbn [c_str]. destruct (Ascii.eqb c "000"); [done|].
  destruct (c_str l) as [|d s] eqn:E.
  - cbn [chop_newline]. destruct (Ascii.eqb_spec c "010"); [done|].
    cbn [has_char]. by destruct (Ascii.eqb_spec c newline).
  - change (chop_newline (String c (String d s)))
      with (String c (chop_newline (String d s))).
    cbn [has_char]. rewrite IH. by destruct (Ascii.eqb_spec c newline).
Qed.

Lemma c_str_no_nul buf : has_char NUL (c_str buf) = false.
Proof.
  induction buf as [|c buf IH]; cbn [c_str]; [done|].
  destruct (Ascii.eqb_spec c "000") as [|Hc]; [done|].
  cbn [has_char]. rewrite IH. by destruct (Ascii.eqb_spec c NUL).
Qed.

Lemma chop_newline_keeps c s :
  has_char c s = false -> has_char c (chop_newline s) = false.
Proof.
  induction s as [|d [|e s] IH]; [done| |].
  - cbn [chop_newline]. by destruct (Ascii.eqb d "010").
  - change (chop_newline (String d (String e s)))
      with (String d (chop_newline (String e s))).
    change (has_char c (String d (String e s)))
      with (Ascii.eqb d c || has_char c (String e s)).
    change (has_char c (String d (chop_newline (String e s))))
      with (Ascii.eqb d c || has_char c (chop_newline (String e s))).
    destruct (Ascii.eqb d c); [done|]. apply IH.
Qed.

Lemma c_str_clean s : has_char NUL s = false -> c_str s = s.
Proof.
  induction s as [|c s IH]; cbn [has_char c_str]; [done|].
  destruct (Ascii.eqb_spec c NUL) as [|Hc]; [done|]. cbn [orb]. intros H.
  destruct (Ascii.eqb_spec c "000"); [done|]. by rewrite IH.
Qed.

Lemma chop_newline_clean s : has_char newline s = false -> chop_newline s = s.
Proof.
  induction s as [|c [|d s] IH]; [done| |].
  - cbn [has_char chop_newline].
    destruct (Ascii.eqb_spec c newline) as [|Hc]; [done|]. intros _.
    by destruct (Ascii.eqb_spec c "010").
  - change (has_char newline (String c (String d s)))
      with (Ascii.eqb c newline || has_char newline (String d s)).
    destruct (Ascii.eqb c newline); [done|]. cbn [orb]. intros H.
    change (chop_newline (String c (String d s)))
      with (String c (chop_newline (String d s))). by rewrite IH.
Qed.

Lemma chop_newline_line s :
  has_char newline s = false -> chop_newline (s ++ String newline "") = s.
Proof.
  induction s as [|c s IH]; [done|]. cbn [has_char].
  destruct (Ascii.eqb c newline); [done|]. cbn [orb]. intros H.
  rewrite app_cons_s.
  destruct (s ++ String newline "") as [|d t] eqn:E.
  { by destruct s. }
  change (chop_newline (String c (String d t)))
    with (String c (chop_newline (String d t))). by rewrite IH.
Qed.

Lemma fgets_line s rest : forall n,
  has_char newline s = false -> (String.length s < n)%nat ->
  fgets n (s ++ String newline rest) = (s ++ String newline "", rest).
Proof.
  induction s as [|c s IH]; intros [|n] Hs Hn; cbn [String.length] in Hn; try lia.
  - by rewrite !app_nil_s.
  - rewrite !app_cons_s. cbn [fgets]. cbn [has_char] in Hs.
    destruct (Ascii.eqb_spec c "010") as [->|_]; [done|].
    rewrite IH; [done| |lia]. by destruct (Ascii.eqb c newline).
Qed.

Lemma fgets_full s rest : forall n,
  has_char newline s = false -> String.length s = n ->
  fgets n (s ++ rest) = (s, rest).
Proof.
  induction s as [|c s IH]; intros [|n] Hs Hn; cbn [String.length] in Hn; try lia.
  - by rewrite app_nil_s.
  - rewrite app_cons_s. cbn [fgets]. cbn [has_char] in Hs.
    destruct (Ascii.eqb_spec c "010") as [->|_]; [done|].
    rewrite IH; [done| |lia]. by destruct (Ascii.eqb c newline).
Qed.

Lemma readln_length inp cap :
  (1 <= cap)%nat -> (String.length (readln inp cap).1 < cap)%nat.
Proof.
  intros Hc. unfold readln. pose proof (fgets_length (cap - 1) inp) as H.
  destruct (fgets (cap - 1) inp) as [raw rest]. cbn [fst] in *.
  pose proof (chop_newline_length (c_str raw)). pose proof (c_str_length raw). lia.
Qed.

Lemma get_password_length inp cap :
  (1 <= cap)%nat -> (String.length (get_password inp cap).1 < cap)%nat.
Proof. apply readln_length. Qed.

Lemma readln_rest inp cap :
  (String.length (readln inp cap).2 <= String.length inp)%nat /\
  ((2 <= cap)%nat -> inp <> "" ->
   (String.length (readln inp cap).2 < String.length inp)%nat).
Proof.
  unfold readln. split.
  - pose proof (fgets_split (cap - 1) inp) as H.
    destruct (fgets (cap - 1) inp) as [raw rest]. cbn [fst snd] in *.
    apply (f_equal String.length) in H. rewrite length_app_s in H. lia.
  - intros Hc Hne. destruct inp as [|c inp]; [done|].
    destruct (cap - 1)%nat as [|n] eqn:E; [lia|].
    pose proof (fgets_consumes n c inp) as H.
    destruct (fgets (S n) (String c inp)). cbn [snd String.length] in *. lia.
Qed.

(** X19. [readln] on an input stream.  The line it leaves in a buffer of
    [cap] bytes is shorter than [cap] and holds neither a newline nor a
    NUL; at the end of input it is empty.  A line that fits is returned
    without its newline and the input after the newline is left; from a
    line of [cap - 1] or more bytes only the first [cap - 1] are taken and
    the rest of the line is left in the input, where the next read finds
    it. *)
Theorem readln_takes_one_line cap :
  (1 <= cap)%nat ->
  (forall inp,
     (String.length (readln inp cap).1 < cap)%nat /\
     has_char newline (readln inp cap).1 = false /\
     has_char NUL (readln inp cap).1 = false /\
     (String.length (readln inp cap).2 <= String.length inp)%nat) /\
  readln "" cap = ("", "") /\
  (forall s rest,
     has_char newline s = false -> has_char NUL s = false ->
     (String.length s + 1 < cap)%nat ->
     readln (s ++ String newline rest) cap = (s, rest)) /\
  (forall s rest,
     has_char newline s = false -> has_char NUL s = false ->
     (String.length s + 1 = cap)%nat ->
     readln (s ++ rest) cap = (s, rest)).
Proof.
  intros Hc. split; [|split; [|split]].
  - intros inp. split; [by apply readln_length|].
    split; [|split; [|apply readln_rest]]; unfold readln.
    + pose proof (line_no_newline (cap - 1) inp) as H.
      by destruct (fgets (cap - 1) inp).
    + destruct (fgets (cap - 1) inp) as [raw rest]. cbn [fst].
      apply chop_newline_keeps, c_str_no_nul.
  - unfold readln. by destruct (cap - 1)%nat.
  - intros s rest Hn H0 Hl. unfold readln.
    rewrite fgets_line; [|done|lia].
    rewrite c_str_clean.
    + by rewrite chop_newline_line.
    + clear -H0. induction s as [|c s IH]; [done|]. rewrite app_cons_s.
      cbn [has_char] in *. destruct (Ascii.eqb c NUL); [done|]. by apply IH.
  - intros s rest Hn H0 Hl. unfold readln.
    rewrite fgets_full; [|done|lia].
    by rewrite c_str_clean, chop_newline_clean.
Qed.

Lemma readln_takes_one_line_witness :
  (forall inp,
     (String.length (readln inp 8).1 < 8)%nat /\
     has_char newline (readln inp 8).1 = false /\
     has_char NUL (readln inp 8).1 = false /\
     (String.length (readln inp 8).2 <= String.length inp)%nat) /\
  readln "" 8 = ("", "") /\
  (forall s rest,
     has_char newline s = false -> has_char NUL s = false ->
     (String.length s + 1 < 8)%nat ->
     readln (s ++ String newline rest) 8 = (s, rest)) /\
  (forall s rest,
     has_char newline s = false -> has_char NUL s = false ->
     (String.length s + 1 = 8)%nat ->
     readln (s ++ rest) 8 = (s, rest)).
Proof. apply (readln_takes_one_line 8). lia. Defined.

(** ** Reading an amount *)

Lemma parse_in_range s v : parse_money_to_cents s = Some v -> in_int64 v.
Proof.
  rewrite parse_money_unfold. destruct s as [|c0 s']; [done|].
  destruct (if Ascii.eqb c0 "+" then _ else _) as [sign p].
  destruct (match parse_whole p 0 with Some _ => _ | None => _ end)
    as [[whole frac]|]; [|done].
  intros [= <-]. apply wrap64_range.
Qed.

Lemma read_cents_eof fuel : read_cents_prompt fuel "" = None.
Proof. induction fuel as [|fuel IH]; [done|]. exact IH. Qed.

Lemma read_cents_sound fuel : forall inp v rest,
  read_cents_prompt fuel inp = Some (v, rest) ->
  in_int64 v /\ (String.length rest < String.length inp)%nat.
Proof.
  induction fuel as [|fuel IH]; intros inp v rest; [done|].
  cbn [read_cents_prompt].
  destruct (decide (inp = "")) as [->|Hne].
  { change (readln "" 128) with ("", ""). cbn [parse_money_to_cents].
    by rewrite read_cents_eof. }
  pose proof (readln_rest inp 128) as [_ Hlt]. specialize (Hlt ltac:(lia) Hne).
  destruct (readln inp 128) as [buf inp']. cbn [snd] in Hlt.
  destruct (parse_money_to_cents buf) as [val|] eqn:Hp.
  - intros [= <- <-]. split; [by eapply parse_in_range|done].
  - intros H. destruct (IH _ _ _ H). split; [done|lia].
Qed.

Lemma read_cents_mono fuel : forall inp r fuel',
  read_cents_prompt fuel inp = Some r -> (fuel <= fuel')%nat ->
  read_cents_prompt fuel' inp = Some r.
Proof.
  induction fuel as [|fuel IH]; intros inp r [|fuel'] H Hle; try done; [lia|].
  cbn [read_cents_prompt] in *. destruct (readln inp 128) as [buf inp'].
  destruct (parse_money_to_cents buf); [done|]. apply IH; [done|lia].
Qed.

Lemma read_cents_starves fuel : forall inp,
  (String.length inp < fuel)%nat -> read_cents_prompt fuel inp = None ->
  forall fuel', read_cents_prompt fuel' inp = None.
Proof.
  induction fuel as [|fuel IH]; intros inp Hl H [|fuel']; try done; [lia|].
  destruct (decide (inp = "")) as [->|Hne]; [apply read_cents_eof|].
  cbn [read_cents_prompt] in *.
  pose proof (readln_rest inp 128) as [_ Hlt]. specialize (Hlt ltac:(lia) Hne).
  destruct (readln inp 128) as [buf inp']. cbn [snd] in Hlt.
  destruct (parse_money_to_cents buf); [done|]. apply IH; [lia|done].
Qed.

(** X20. [read_cents_prompt] on an input stream.  When it returns, the
    amount is a [cents_t] value, input was consumed, and more turns give
    the same result.  At the end of input it never returns; more
    generally, if none of the lines left parses, no number of further
    turns makes it return. *)
Theorem read_cents_prompt_returns_or_starves inp :
  (forall fuel v rest, read_cents_prompt fuel inp = Some (v, rest) ->
     in_int64 v /\ (String.length rest < String.length inp)%nat /\
     forall fuel', (fuel <= fuel')%nat ->
       read_cents_prompt fuel' inp = Some (v, rest)) /\
  (read_cents_prompt (S (String.length inp)) inp = None ->
   forall fuel, read_cents_prompt fuel inp = None) /\
  (forall fuel, read_cents_prompt fuel "" = None).
Proof.
  split; [|split].
  - intros fuel v rest H. destruct (read_cents_sound _ _ _ _ H).
    split; [done|]. split; [done|]. intros fuel' Hle. by eapply read_cents_mono.
  - apply read_cents_starves. lia.
  - apply read_cents_eof.
Qed.

(** The third line of [amount_input] is the first that parses. *)
Example read_cents_scenario :
  read_cents_prompt 3 amount_input = Some (1250, "") /\
  read_cents_prompt 2 amount_input = None /\
  read_cents_prompt 3 (line "abc" ++ line "") = None.
Proof. by vm_compute. Qed.

(** ** The states the program visits *)

Lemma account_menu_case_valid fuel i choice inp o inp' st :
  (i < account_count st)%nat ->
  account_menu_case fuel i choice inp = Some (Some o, inp') -> valid_op st o.
Proof.
  intros Hi. unfold account_menu_case. cbv zeta.
  repeat match goal with
  | |- context [Ascii.eqb (first_byte choice) ?c] =>
      destruct (Ascii.eqb (first_byte choice) c)
  end;
  repeat match goal with
  | |- context [read_cents_prompt fuel ?x] =>
      let H := fresh "Hrc" in
      destruct (read_cents_prompt fuel x) as [[? ?]|] eqn:H;
      [apply read_cents_sound in H as [H _]|]
  | |- context [readln ?x ?c] =>
      let H := fresh "Hrl" in
      pose proof (readln_length x c ltac:(vm_compute; lia)) as H;
      destruct (readln x c) as [? ?]; cbn [fst] in H
  | |- context [get_password ?x ?c] =>
      let H := fresh "Hgp" in
      pose proof (get_password_length x c ltac:(vm_compute; lia)) as H;
      destruct (get_password x c) as [? ?]; cbn [fst] in H
  end; intros [= <- <-] || done; cbn [valid_op]; done.
Qed.

Lemma account_menu_reachable fuel : forall st i inp,
  reachable st -> (i < account_count st)%nat ->
  reachable (session_state (account_menu fuel st i inp)).
Proof.
  induction fuel as [|fuel IH]; intros st i inp Hr Hi; [done|].
  cbn [account_menu]. destruct (readln inp 64) as [choice inp1].
  destruct (Ascii.eqb (first_byte choice) "9"); [done|].
  destruct (account_menu_case fuel i choice inp1) as [[[o|] inp2]|] eqn:Hc;
    [|by apply IH|done].
  destruct (step st o) as [st'|] eqn:Hs; [|done].
  pose proof (account_menu_case_valid _ _ _ _ _ _ st Hi Hc) as Hv.
  apply IH; [by eapply reachable_step|].
  apply step_run in Hs as (out & Hrun).
  destruct (run_frame _ _ _ _ Hrun) as ([Hcnt|(n & p & g & _ & E)] & _).
  - by rewrite Hcnt.
  - unfold account_count in *. rewrite E, length_app. lia.
Qed.

Lemma log_in_reachable fuel st inp :
  reachable st -> reachable (session_state (log_in fuel st inp)).
Proof.
  intros Hr. unfold log_in. destruct (readln inp MAX_NAME_LEN) as [name inp1].
  destruct (get_password inp1 MAX_PASS_LEN) as [pass inp2].
  destruct (log_in_account st name pass) as [idx|] eqn:E; [|done].
  apply account_menu_reachable; [done|].
  apply (log_in_account_spec _ _ _ _ Hr) in E as (a & Ha & _).
  by eapply lookup_lt_Some.
Qed.

Lemma sign_up_io_reachable st inp :
  reachable st -> reachable (sign_up_io st inp).1.
Proof.
  intros Hr. unfold sign_up_io.
  pose proof (readln_length inp MAX_NAME_LEN ltac:(vm_compute; lia)) as Hn.
  destruct (readln inp MAX_NAME_LEN) as [name inp1]. cbn [fst] in Hn.
  destruct (name =? "")%string eqn:E1; [done|].
  destruct (find_account_by_name st name >=? 0) eqn:E2; [done|].
  pose proof (get_password_length inp1 MAX_PASS_LEN ltac:(vm_compute; lia)) as Hp.
  destruct (get_password inp1 MAX_PASS_LEN) as [pass inp2]. cbn [fst] in Hp.
  pose proof (readln_length inp2 MAX_AGENCY_LEN ltac:(vm_compute; lia)) as Hg.
  destruct (readln inp2 MAX_AGENCY_LEN) as [ag inp3]. cbn [fst] in Hg.
  destruct (ag =? "")%string eqn:E3; [done|].
  destruct (MAX_ACCOUNTS <=? account_count st)%nat eqn:E4; [done|]. cbn [fst].
  apply (reachable_step st (Op_sign_up name pass ag)); [done|done|].
  unfold step. cbn [run]. unfold sign_up. by rewrite E1, E2, E3, E4.
Qed.

Lemma main_loop_reachable fuel : forall st inp,
  reachable st -> reachable (session_state (main_loop fuel st inp)).
Proof.
  induction fuel as [|fuel IH]; intros st inp Hr; [done|].
  cbn [main_loop]. destruct (readln inp 64) as [opt inp1]. cbv zeta.
  destruct (Ascii.eqb (first_byte opt) "1").
  { pose proof (sign_up_io_reachable st inp1 Hr).
    destruct (sign_up_io st inp1). by apply IH. }
  destruct (Ascii.eqb (first_byte opt) "2").
  { pose proof (log_in_reachable fuel st inp1 Hr).
    destruct (log_in fuel st inp1); [by apply IH|done]. }
  destruct (Ascii.eqb (first_byte opt) "3"); [done|]. by apply IH.
Qed.

(** X21. Whatever is typed, the program only visits reachable states:
    for every input stream and every number of turns of its loops, [main]
    starts and the state it is in, whether it has returned or is still
    running, is one that the operations of the menus reach from the state
    after [init_sample_accounts].  Every line read fits its buffer, every
    amount is a [cents_t] value and the menu is that of an existing
    account, so what is proved of the reachable states holds of the
    program. *)
Theorem program_visits_reachable_states fuel inp :
  exists s, main fuel inp = Some s /\ reachable (session_state s).
Proof.
  unfold main. destruct boot_state as [st|] eqn:Hb; [|by vm_compute in Hb].
  eexists. split; [done|]. apply main_loop_reachable. by apply reachable_boot.
Qed.

(** ** The end of input *)

Lemma account_menu_eof fuel st i : account_menu fuel st i "" = Running st.
Proof. induction fuel as [|fuel IH]; [done|]. exact IH. Qed.

Lemma main_loop_eof fuel st : main_loop fuel st "" = Running st.
Proof. induction fuel as [|fuel IH]; [done|]. exact IH. Qed.

(** X22. At the end of input the program does not stop.  Once the input
    is exhausted, every turn of the loop of [main] reads an empty choice,
    takes the default case and goes round in the same state, and so does
    the loop of [account_menu]: neither returns, however many turns it
    takes.  The loop of [main] returns on the line "3", after one more
    [pause_screen]. *)
Theorem end_of_input_never_returns fuel st i :
  main_loop fuel st "" = Running st /\
  account_menu fuel st i "" = Running st /\
  main fuel "" = Some (Running boot) /\
  (forall rest, main_loop (S fuel) st (line "3" ++ rest)
                = Returned st (pause_screen rest)).
Proof.
  split; [apply main_loop_eof|]. split; [apply account_menu_eof|]. split.
  - unfold main, boot. destruct boot_state as [st0|] eqn:Hb; [|by vm_compute in Hb].
    by rewrite main_loop_eof.
  - intros rest. cbn [main_loop]. unfold line. str_norm.
    by change (readln (String "3" (String newline rest)) 64) with ("3", rest).
Qed.

(** * Further properties: strings, the index, sessions, the log *)

(** ** [safe_strcpy] *)

Lemma substring_prefix s : forall n,
  (exists tail, s = substring 0 n s ++ tail) /\
  String.length (substring 0 n s) = Nat.min (String.length s) n.
Proof.
  induction s as [|c s IH]; intros [|n]; cbn [substring String.length].
  - split; [by exists ""|done].
  - split; [by exists ""|done].
  - split; [by exists (String c s)|done].
  - destruct (IH n) as [[tail Ht] Hl]. split.
    + exists tail. rewrite app_cons_s. by rewrite <- Ht.
    + rewrite Hl. lia.
Qed.

(** X23. [safe_strcpy] into a buffer of [dstcap > 0] bytes stores the
    first [dstcap - 1] bytes of the source, the whole source when it is
    shorter than the buffer, and never more than the buffer holds;
    copying the result again changes nothing. *)
Theorem safe_strcpy_truncates src dstcap :
  (1 <= dstcap)%nat ->
  (exists tail, src = safe_strcpy src dstcap ++ tail) /\
  String.length (safe_strcpy src dstcap)
    = Nat.min (String.length src) (dstcap - 1) /\
  ((String.length src < dstcap)%nat -> safe_strcpy src dstcap = src) /\
  safe_strcpy (safe_strcpy src dstcap) dstcap = safe_strcpy src dstcap.
Proof.
  intros Hc. unfold safe_strcpy.
  destruct (substring_prefix src (dstcap - 1)) as [Hp Hl].
  split; [done|]. split; [done|]. split.
  - intros H. apply substring_all. lia.
  - apply substring_all. lia.
Qed.

Lemma safe_strcpy_truncates_witness :
  (exists tail, "a long user name" = safe_strcpy "a long user name" 8 ++ tail) /\
  String.length (safe_strcpy "a long user name" 8)
    = Nat.min (String.length "a long user name") (8 - 1) /\
  ((String.length "a long user name" < 8)%nat ->
   safe_strcpy "a long user name" 8 = "a long user name") /\
  safe_strcpy (safe_strcpy "a long user name" 8) 8
    = safe_strcpy "a long user name" 8.
Proof. apply (safe_strcpy_truncates "a long user name" 8). lia. Defined.

(** ** The slots of the index and the accounts *)

(** X24. In every reachable state the index holds one slot for each
    account that has an alias and nothing else: every occupied slot
    names an account with an alias, and for every account with an alias
    exactly one slot of the table names it. *)
Theorem index_slots_match_accounts st :
  reachable st ->
  length (pix_table st) = PIX_TABLE_SIZE /\
  (forall p, (p < PIX_TABLE_SIZE)%nat -> pix_slot (pix_table st) p <> 0 ->
     exists i a, pix_slot (pix_table st) p = Z.of_nat i + 1 /\
       accounts st !! i = Some a /\ pix_key a <> "") /\
  (forall i a, accounts st !! i = Some a -> pix_key a <> "" ->
     exists p, (p < PIX_TABLE_SIZE)%nat /\
       pix_slot (pix_table st) p = Z.of_nat i + 1 /\
       forall q, (q < PIX_TABLE_SIZE)%nat ->
         pix_slot (pix_table st) q = Z.of_nat i + 1 -> q = p).
Proof.
  intros Hr. pose proof (reachable_index_inv _ Hr) as Hinv.
  pose proof Hinv as [Hc Hwf Hu Hi]. split; [apply (wf_length _ _ Hwf)|]. split.
  - intros p Hp Hs. destruct (wf_live _ _ Hwf p Hp Hs) as [k Hk].
    apply entry_key_account in Hk as (i & a & ? & ? & ? & ?).
    exists i, a. repeat split; try done. congruence.
  - intros i a Ha Hk. destruct (Hi i a Ha Hk) as (p & Hp & Sp).
    exists p. split; [done|]. split; [done|]. intros q Hq Sq.
    apply (wf_distinct _ _ Hwf q p (pix_key a) Hq Hp);
      apply (entry_key_of_account _ _ _ i); try done; by eapply Hu.
Qed.

Lemma index_slots_match_accounts_witness :
  length (pix_table cluster_state) = PIX_TABLE_SIZE /\
  (forall p, (p < PIX_TABLE_SIZE)%nat ->
     pix_slot (pix_table cluster_state) p <> 0 ->
     exists i a, pix_slot (pix_table cluster_state) p = Z.of_nat i + 1 /\
       accounts cluster_state !! i = Some a /\ pix_key a <> "") /\
  (forall i a, accounts cluster_state !! i = Some a -> pix_key a <> "" ->
     exists p, (p < PIX_TABLE_SIZE)%nat /\
       pix_slot (pix_table cluster_state) p = Z.of_nat i + 1 /\
       forall q, (q < PIX_TABLE_SIZE)%nat ->
         pix_slot (pix_table cluster_state) q = Z.of_nat i + 1 -> q = p).
Proof. apply index_slots_match_accounts, cluster_state_reachable. Defined.

(** ** What a session can do to the other accounts *)

Lemma same_settings_refl a : same_settings a a.
Proof. by repeat split. Qed.

Lemma same_settings_trans a b c :
  same_settings a b -> same_settings b c -> same_settings a c.
Proof.
  intros (? & ? & ? & ? & ? & ? & ?) (? & ? & ? & ? & ? & ? & ?).
  repeat split; congruence.
Qed.

Lemma transfer_settings st i amount pix st' out j a :
  transfer_ st i amount pix = Some (st', out) -> j <> i ->
  accounts st !! j = Some a ->
  exists a', accounts st' !! j = Some a' /\ same_settings a a'.
Proof.
  intros Hrun Hj Ha. revert Hrun. unfold transfer_.
  destruct (accounts st !! i) as [a0|] eqn:Ha0; [|done].
  destruct (pix_key a0 =? "")%string;
    [intros [= <- <-]; exists a; by split; [|apply same_settings_refl]|].
  destruct (amount <=? 0);
    [intros [= <- <-]; exists a; by split; [|apply same_settings_refl]|].
  destruct (pix =? pix_key a0)%string.
  - destruct (credit_advance a0 amount) as [a' o]. intros [= <- <-].
    cbn [accounts]. rewrite list_lookup_insert_ne by done.
    exists a. by split; [|apply same_settings_refl].
  - destruct (pix_find _ _ _) as [tidx|]; [|done].
    destruct (tidx <? 0);
      [intros [= <- <-]; exists a; by split; [|apply same_settings_refl]|].
    destruct (amount <=? balance a0);
      [|intros [= <- <-]; exists a; by split; [|apply same_settings_refl]].
    cbv zeta. intros [= <- <-]. cbn [accounts]. rewrite !list_lookup_alter.
    repeat (case_decide; subst; try done; rewrite ?Ha;
            cbn [fmap option_fmap option_map]);
      (eexists; split; [done|]); by repeat split.
Qed.

Lemma run_other_settings st o st' out i j a :
  run st o = Some (st', out) -> op_account o = Some i -> j <> i ->
  accounts st !! j = Some a ->
  exists a', accounts st' !! j = Some a' /\ same_settings a a'.
Proof.
  intros Hrun Ho Hj Ha.
  destruct o as [name pass ag|i' amt|i' amt|i' amt pix|i' pix|i' nl|i' oldp newp];
    cbn [op_account] in Ho; try done; injection Ho as ->;
    try (destruct (run_frame _ _ _ _ Hrun) as (_ & Hf & _);
         destruct (Hf j a Ha) as (a' & Ha' & _ & _ & _ & Hu);
         exists a'; split; [done|]; rewrite (Hu ltac:(cbn [acts_on]; congruence));
         apply same_settings_refl).
  cbn [run] in Hrun. by eapply transfer_settings.
Qed.

Lemma account_menu_case_account fuel i choice inp o inp' :
  account_menu_case fuel i choice inp = Some (Some o, inp') ->
  op_account o = Some i.
Proof.
  unfold account_menu_case. cbv zeta.
  repeat match goal with
  | |- context [Ascii.eqb (first_byte choice) ?c] =>
      destruct (Ascii.eqb (first_byte choice) c)
  end;
  repeat match goal with
  | |- context [read_cents_prompt fuel ?x] =>
      destruct (read_cents_prompt fuel x) as [[? ?]|]
  | |- context [readln ?x ?c] => destruct (readln x c) as [? ?]
  | |- context [get_password ?x ?c] => destruct (get_password x c) as [? ?]
  end; by intros [= <- <-] || done.
Qed.

(** X25. What a session can do to the accounts of others.  Whatever the
    user of account [i] types in [account_menu], in every state the menu
    goes through every other account keeps its user name, password,
    agency, alias, credit limit and credit used: a session reaches another
    account only through the balance and the log, by paying into it. *)
Theorem session_leaves_other_accounts fuel st i inp j a :
  j <> i -> accounts st !! j = Some a ->
  exists a',
    accounts (session_state (account_menu fuel st i inp)) !! j = Some a' /\
    same_settings a a'.
Proof.
  revert st i inp j a.
  induction fuel as [|fuel IH]; intros st i inp j a Hj Ha;
    [exists a; by split; [|apply same_settings_refl]|].
  cbn [account_menu]. destruct (readln inp 64) as [choice inp1].
  destruct (Ascii.eqb (first_byte choice) "9");
    [exists a; by split; [|apply same_settings_refl]|].
  destruct (account_menu_case fuel i choice inp1) as [[[o|] inp2]|] eqn:Hc;
    [|by apply IH|exists a; by split; [|apply same_settings_refl]].
  destruct (step st o) as [st'|] eqn:Hs;
    [|exists a; by split; [|apply same_settings_refl]].
  apply step_run in Hs as (out & Hrun).
  destruct (run_other_settings _ _ _ _ i j a Hrun
              (account_menu_case_account _ _ _ _ _ _ Hc) Hj Ha) as (a1 & Ha1 & S1).
  destruct (IH st' i (pause_screen inp2) j a1 Hj Ha1) as (a2 & Ha2 & S2).
  exists a2. split; [done|]. by eapply same_settings_trans.
Qed.

Lemma session_leaves_other_accounts_witness :
  exists a',
    accounts (session_state (account_menu 5 boot 0 menu_input)) !! 1%nat
      = Some a' /\
    same_settings (sample_account "user2" "user2pix") a'.
Proof.
  apply (session_leaves_other_accounts 5 boot 0 menu_input 1); [lia|].
  by rewrite boot_accounts.
Defined.

(** The session of [menu_input] returns with 5.00 on each account. *)
Example menu_scenario :
  (fun s => match s with
            | Returned st rest => Some (balance <$> accounts st, rest)
            | _ => None
            end) (account_menu 5 boot 0 menu_input) = Some ([500; 500], "").
Proof. by vm_compute. Qed.

(** The session of [console_input]: the program returns with 10.00 on
    the account of user1 and all input read. *)
Example console_scenario :
  (fun s => match s with
            | Some (Returned st rest) => Some (balance <$> accounts st, rest)
            | _ => None
            end) (main 4 console_input) = Some ([1000; 0], "").
Proof. by vm_compute. Qed.

(** ** A deposit in the printed log *)

Lemma last_lastn_snoc {A} n (l : list A) x :
  (1 <= n)%nat -> last (lastn n (l ++ [x])%list) = Some x.
Proof.
  intros Hn. unfold lastn. rewrite length_app. cbn [length].
  rewrite drop_app_le by lia. by rewrite last_snoc.
Qed.

Lemma last_map_option {A B} (f : A -> B) (l : list A) :
  last (map f l) = f <$> last l.
Proof.
  induction l as [|x l IH]; [done|]. destruct l as [|y l]; [done|].
  change (last (map f (x :: y :: l))) with (last (map f (y :: l))).
  by rewrite IH.
Qed.

Lemma print_txlog_push log ty amt note :
  txlog_wf log ->
  last (print_txlog (txlog_push log ty amt note))
    = Some (print_tx (tx_stored ty amt note)).
Proof.
  intros Hwf. unfold print_txlog.
  assert (Hc : (count (txlog_push log ty amt note) =? 0)%nat = false).
  { apply Nat.eqb_neq. unfold txlog_push.
    destruct (Nat.ltb_spec (count log) TX_LOG_SIZE); cbn [count]; [lia|].
    unfold TX_LOG_SIZE in *. lia. }
  rewrite Hc, txlog_push_records by done.
  rewrite last_map_option, last_lastn_snoc; [done|]. unfold TX_LOG_SIZE. lia.
Qed.

(** X26. A deposit in the printed log.  After a successful deposit into
    an account whose log is in shape, the last line that [print_txlog]
    prints for the account is "[DEPOSIT] A  Deposited A", where A is the
    amount as whole part, '.', two digits: the note is not cut, whatever
    the amount. *)
Theorem deposit_prints_in_log a amount :
  txlog_wf (txlog a) -> 0 < amount <= INT64_MAX ->
  (deposit a amount).2 = Done /\
  last (print_txlog (txlog (deposit a amount).1))
    = Some ("[DEPOSIT] " ++ amount_text amount ++ "  Deposited "
            ++ amount_text amount).
Proof.
  intros Hwf Ham. unfold deposit.
  destruct (Z.leb_spec amount 0) as [|_]; [lia|]. cbn [fst snd].
  split; [done|]. unfold log_account_tx. cbn [txlog set_txlog set_balance].
  rewrite print_txlog_push by done. f_equal.
  assert (Hr : INT64_MIN < amount <= INT64_MAX) by (unfold INT64_MIN; lia).
  destruct (cents_to_str_text amount 64 Hr ltac:(lia)) as [E64 L64].
  destruct (cents_to_str_text amount 32 Hr ltac:(lia)) as [E32 _].
  destruct (Z.ltb_spec amount 0) as [|_]; [lia|].
  rewrite Z.abs_eq, app_nil_s in E64, E32 by lia.
  unfold print_tx, tx_stored. cbn [tx_type tx_amount tx_note tx_type_name].
  rewrite E32. fold (amount_text amount) in *.
  assert (Hn : snprintf TX_NOTE_LEN ("Deposited " ++ cents_to_str amount 64)
               = "Deposited " ++ amount_text amount).
  { unfold snprintf. rewrite <- E64. apply substring_all.
    rewrite length_app_s. cbn [String.length]. unfold TX_NOTE_LEN. lia. }
  rewrite Hn. rewrite safe_strcpy_fits.
  - by str_norm.
  - rewrite <- E64, length_app_s. cbn [String.length]. unfold TX_NOTE_LEN. lia.
Qed.

Lemma deposit_prints_in_log_witness :
  (deposit (sample_account "user1" "user1pix") 1250).2 = Done /\
  last (print_txlog (txlog (deposit (sample_account "user1" "user1pix") 1250).1))
    = Some ("[DEPOSIT] " ++ amount_text 1250 ++ "  Deposited "
            ++ amount_text 1250).
Proof.
  apply (deposit_prints_in_log (sample_account "user1" "user1pix") 1250).
  - apply txlog_empty_wf.
  - by vm_compute.
Defined.
